(** * Token-derivation engine of the client transaction generator

    A shallow embedding of the TypeScript sources

      - [interpolate.ts]   (interpolate, interpolateNum),
      - [cubic_curve.ts]   (class Cubic),
      - [rotation.ts]      (convertRotationToMatrix),
      - [utils.ts]         (floatToHex, isOdd, base64Encode),
      - [transaction.ts]   (class ClientTransaction),

    followed by the properties of the specification that were checked
    against it, and by further properties of the code itself: what a
    token holds and how it reads back, the fields of a constructed
    instance, the frame table, and the ranges and the termination of the
    numeric leaves.

    JavaScript numbers are IEEE-754 binary64 values.  The numeric leaves
    (Cubic, interpolate, floatToHex) are embedded once, over an interface
    [JsNumber] holding exactly the arithmetic those functions use, and the
    interface is instantiated twice:

      - [binary64]: the bit-exact double arithmetic the program runs on
        (Stdlib's executable [SpecFloat] model, precision 53, emax 1024);
      - [exact]: the same operations over the rationals, without rounding,
        which is the reading the specification uses when it speaks of
        "reals".

    The properties of the numeric leaves are stated on [binary64].  A
    double is read as the rational number it denotes ([Value.B2Q]), and
    the operations of [SpecFloat] are shown to return that number
    rounded, or the number itself when a double can hold it.

    Loops without a syntactic bound ([while]) take a [fuel] argument and
    answer [None] when it runs out.  [String.fromCharCode(...bytes)]
    passes one argument per byte; the longest argument list the engine
    accepts is a parameter of [Module Engine]. *)

From Stdlib Require Import ZArith QArith Qround Qabs Qpower Lia Lqa Bool Ascii String.
From Stdlib Require Import Floats.SpecFloat.
From stdpp Require Import base list strings pretty.

Set Default Proof Using "Type".

(* ===================================================================== *)
(** * JavaScript numbers                                                  *)
(* ===================================================================== *)

Module JsNum.

(** The arithmetic used by the numeric leaves.  [lit] is an integer
    literal, [toInteger] the mathematical value of a number that is a
    finite integer. *)
Class JsNumber (F : Type) := {
  lit : Z -> F;
  num_add : F -> F -> F;
  num_sub : F -> F -> F;
  num_mul : F -> F -> F;
  num_div : F -> F -> F;
  num_floor : F -> F;
  num_abs : F -> F;
  num_ltb : F -> F -> bool;
  num_leb : F -> F -> bool;
  num_eqb : F -> F -> bool;
  toInteger : F -> option Z
}.

Declare Scope js_scope.
Delimit Scope js_scope with js.
Infix "+" := num_add : js_scope.
Infix "-" := num_sub : js_scope.
Infix "*" := num_mul : js_scope.
Infix "/" := num_div : js_scope.
Notation "a <? b" := (num_ltb a b) : js_scope.
Notation "a <=? b" := (num_leb a b) : js_scope.
Notation "a >? b" := (num_ltb b a) (only parsing) : js_scope.
Notation "a >=? b" := (num_leb b a) (only parsing) : js_scope.
Notation "a === b" := (num_eqb a b) (at level 70, no associativity) : js_scope.

(** ** Exact rational arithmetic.  Results are kept in lowest terms.

    The rationals have no infinity and no NaN; the sources divide by the
    constants 2 and 16 and by controls they have just compared with 0
    or 1, so that no division by zero is reached. *)

Definition Qltb (a b : Q) : bool :=
  match Qcompare a b with Lt => true | _ => false end.

Definition Qis_int (q : Q) : option Z :=
  if Qeq_bool q (inject_Z (Qfloor q)) then Some (Qfloor q) else None.

#[export] Instance exact : JsNumber Q := {|
  lit := inject_Z;
  num_add := fun a b => Qred (Qplus a b);
  num_sub := fun a b => Qred (Qminus a b);
  num_mul := fun a b => Qred (Qmult a b);
  num_div := fun a b => Qred (Qdiv a b);
  num_floor := fun a => inject_Z (Qfloor a);
  num_abs := fun a => Qabs a;
  num_ltb := Qltb;
  num_leb := Qle_bool;
  num_eqb := Qeq_bool;
  toInteger := Qis_int
|}.

(** ** IEEE-754 binary64, round to nearest, ties to even. *)

Definition b64 : Type := spec_float.

Definition prec : Z := 53.
Definition emax : Z := 1024.

Definition b64_of_Z (z : Z) : b64 := binary_normalize prec emax z 0 false.

(** [Math.floor]: the largest integer not above the argument; zeros,
    infinities and NaN are returned unchanged. *)
Definition b64_floor (x : b64) : b64 :=
  match x with
  | S754_finite s m e =>
      if (0 <=? e)%Z then x
      else binary_normalize prec emax
             (Z.shiftr (if s then Z.neg m else Z.pos m) (- e)) 0 s
  | _ => x
  end.

Definition b64_toInteger (x : b64) : option Z :=
  match x with
  | S754_zero _ => Some 0%Z
  | S754_finite s m e =>
      let v := if s then Z.neg m else Z.pos m in
      if (0 <=? e)%Z then Some (Z.shiftl v e)
      else if (Z.land (Z.pos m) (Z.ones (- e)) =? 0)%Z
           then Some (Z.shiftr v (- e)) else None
  | _ => None
  end.

#[export] Instance binary64 : JsNumber b64 := {|
  lit := b64_of_Z;
  num_add := SFadd prec emax;
  num_sub := SFsub prec emax;
  num_mul := SFmul prec emax;
  num_div := SFdiv prec emax;
  num_floor := b64_floor;
  num_abs := SFabs;
  num_ltb := SFltb;
  num_leb := SFleb;
  num_eqb := SFeqb;
  toInteger := b64_toInteger
|}.

End JsNum.
Import JsNum.

(* ===================================================================== *)
(** * Completions: exceptions and fuel                                    *)
(* ===================================================================== *)

(** The [throw new Error(...)] sites of the sources, the exception
    [atob] raises on malformed input, and the [RangeError] an engine
    raises for a call with more arguments than it accepts. *)
Inductive error : Set :=
  | MismatchedInterpolationArguments
  | CannotInterpolate
  | EmptyKey
  | KeyNotFound
  | InvalidCharacterError
  | InvalidKeyBytes
  | InvalidFramesData
  | InsufficientCurveValues
  | NoAnimationData
  | InvalidFrameRow
  | KeyBytesUndefinedOrEmpty
  | RangeError.

(** How the evaluation of a function body ends: it returns, it throws, or
    the fuel given to its loops did not suffice. *)
Inductive completion (A : Type) : Type :=
  | Normal (a : A)
  | Throw (e : error)
  | OutOfFuel.
Arguments Normal {A} a.
Arguments Throw {A} e.
Arguments OutOfFuel {A}.

#[export] Instance completion_ret : MRet completion := @Normal.
#[export] Instance completion_bind : MBind completion := fun A B f m =>
  match m with
  | Normal a => f a
  | Throw e => Throw e
  | OutOfFuel => OutOfFuel
  end.

(** [try { body } catch (error) { handler }]: only a thrown error reaches
    the handler. *)
Definition try_catch {A} (body : completion A) (handler : error -> completion A)
  : completion A :=
  match body with
  | Throw e => handler e
  | c => c
  end.

(** A loop result: [None] is an exhausted fuel. *)
Definition of_fuel {A} (o : option A) : completion A :=
  match o with Some a => Normal a | None => OutOfFuel end.

(* ===================================================================== *)
(** * Platform functions                                                  *)
(* ===================================================================== *)

(** The functions of the JavaScript runtime the sources call: number
    formatting, [btoa]/[atob], SHA-256.  They are written out from their
    standards so that the embedding can be evaluated. *)
Module Platform.
Local Open Scope Z_scope.

Abbreviation bytes := (list Z) (only parsing).

(** Storing into a [Uint8Array] element keeps the low eight bits. *)
Definition u8 (z : Z) : Z := z mod 256.

(** Strings are sequences of one-byte characters; a string holds the
    UTF-8 form of its text, which is what [TextEncoder.encode] yields. *)
Definition charCode (c : ascii) : Z := Z.of_N (N_of_ascii c).
Definition char_of (z : Z) : ascii := ascii_of_N (Z.to_N (z mod 256)).
Definition TextEncoder_encode (s : string) : bytes :=
  map charCode (list_ascii_of_string s).
Definition String_fromCharCodes (l : bytes) : string :=
  string_of_list_ascii (map char_of l).

(** ** Numbers *)

Definition NaN : b64 := S754_nan.
Definition Math_PI : b64 := S754_finite false 7074237752028440 (-51).

(** The mantissa of a finite number with its sign. *)
Definition signed (s : bool) (m : positive) : Z :=
  if s then Z.neg m else Z.pos m.

(** [Math.round]: nearest integer, ties towards +infinity. *)
Definition Math_round (x : b64) : b64 :=
  match x with
  | S754_finite s m e =>
      if 0 <=? e then x
      else binary_normalize prec emax
             (Z.shiftr (2 * signed s m + 2 ^ (- e)) (- e + 1)) 0 s
  | _ => x
  end.

(** The double nearest to [n / d], for [0 <= n] and [0 < d], with sign [s]. *)
Definition b64_of_ratio (s : bool) (n d : Z) : b64 :=
  match n with
  | Z0 => S754_zero s
  | _ =>
      let '(mz, ez, lz) := SFdiv_core_binary prec emax n 0 d 0 in
      binary_round_aux prec emax s mz ez lz
  end.

(** [Number(x.toFixed(2))]: below 10^21 the nearest multiple of 0.01
    (ties to the larger magnitude) read back as a double; [toFixed]
    prints larger numbers, infinities and NaN as [toString] does, so
    they are read back unchanged. *)
Definition toFixed2 (x : b64) : b64 :=
  match x with
  | S754_zero _ => S754_zero false
  | S754_finite s m e =>
      if SFleb (b64_of_Z (10 ^ 21)) (SFabs x) then x
      else
        let n := if 0 <=? e then 100 * Z.pos m * 2 ^ e
                 else Z.shiftr (200 * Z.pos m + 2 ^ (- e)) (- e + 1) in
        b64_of_ratio s n 100
  | _ => x
  end.

(** Digits of a natural number in radix 16, lower case. *)
Definition hex_digit (d : Z) : ascii :=
  if d <? 10 then char_of (48 + d) else char_of (87 + d).

Fixpoint hex_of_nat_aux (fuel : nat) (n : Z) (acc : string) : string :=
  match fuel with
  | O => acc
  | S fuel' =>
      let acc' := String (hex_digit (n mod 16)) acc in
      if n / 16 =? 0 then acc' else hex_of_nat_aux fuel' (n / 16) acc'
  end.

Definition Z_toString16 (z : Z) : string :=
  let digits := hex_of_nat_aux (S (Z.to_nat (Z.log2 (Z.abs z)))) (Z.abs z) "" in
  if z <? 0 then String "-" digits else digits.

(** [n.toString(16)] on the result of a [Math.round]: an integer, an
    infinity or NaN. *)
Definition toString16 (x : b64) : string :=
  match b64_toInteger x with
  | Some z => Z_toString16 z
  | None =>
      match x with
      | S754_infinity false => "Infinity"
      | S754_infinity true => "-Infinity"
      | _ => "NaN"
      end
  end.

(** ** Reference trigonometry

    ECMAScript leaves the last bits of [Math.cos] and [Math.sin] to the
    implementation, so the sources are embedded over arbitrary such
    functions.  To evaluate the embedding, the Maclaurin series is summed
    in fixed point, 256 binary places, and rounded once to a double;
    thirty terms are more than a double can resolve for the angles of a
    few turns. *)

Definition places : Z := 256.

Definition fixed_of_b64 (x : b64) : option Z :=
  match x with
  | S754_zero _ => Some 0
  | S754_finite s m e => Some (Z.shiftl (signed s m) (e + places))
  | _ => None
  end.

Definition b64_of_fixed (v : Z) : b64 :=
  b64_of_ratio (v <? 0) (Z.abs v) (2 ^ places).

(** Each term is the one before times [- x^2 / ((n+1) * (n+2))], [n]
    growing by two. *)
Fixpoint series (terms : nat) (x2 n term acc : Z) : Z :=
  match terms with
  | O => acc
  | S terms' =>
      let term' := - Z.shiftr (term * x2) places / ((n + 1) * (n + 2)) in
      series terms' x2 (n + 2) term' (acc + term')
  end.

Definition cos_reference (x : b64) : b64 :=
  match fixed_of_b64 x with
  | Some v =>
      b64_of_fixed (series 30 (Z.shiftr (v * v) places) 0 (2 ^ places) (2 ^ places))
  | None => S754_nan
  end.

Definition sin_reference (x : b64) : b64 :=
  match x with
  | S754_zero _ => x
  | _ =>
      match fixed_of_b64 x with
      | Some v => b64_of_fixed (series 30 (Z.shiftr (v * v) places) 1 v v)
      | None => S754_nan
      end
  end.

(** ** Base64: [btoa] and [atob] *)

Definition base64_alphabet : string :=
  "ABCDEFGHIJKLMNOPQRSTUVWXYZabcdefghijklmnopqrstuvwxyz0123456789+/".

Definition base64_char (i : Z) : ascii :=
  match String.get (Z.to_nat i) base64_alphabet with
  | Some c => c
  | None => "="%char
  end.

(** [btoa] on a binary string given by its bytes. *)
Fixpoint btoa (data : bytes) : string :=
  match data with
  | [] => ""
  | [a] =>
      String (base64_char (Z.shiftr a 2))
        (String (base64_char (Z.land (Z.shiftl a 4) 63)) "==")
  | [a; b] =>
      String (base64_char (Z.shiftr a 2))
        (String (base64_char (Z.lor (Z.land (Z.shiftl a 4) 63) (Z.shiftr b 4)))
           (String (base64_char (Z.land (Z.shiftl b 2) 63)) "="))
  | a :: b :: c :: rest =>
      String (base64_char (Z.shiftr a 2))
        (String (base64_char (Z.lor (Z.land (Z.shiftl a 4) 63) (Z.shiftr b 4)))
           (String (base64_char (Z.lor (Z.land (Z.shiftl b 2) 63) (Z.shiftr c 6)))
              (String (base64_char (Z.land c 63)) (btoa rest))))
  end.

Definition base64_value (c : ascii) : option Z :=
  let n := charCode c in
  if (65 <=? n) && (n <=? 90) then Some (n - 65)
  else if (97 <=? n) && (n <=? 122) then Some (n - 71)
  else if (48 <=? n) && (n <=? 57) then Some (n + 4)
  else if n =? 43 then Some 62
  else if n =? 47 then Some 63
  else None.

Definition is_ascii_whitespace (c : ascii) : bool :=
  let n := charCode c in
  (n =? 9) || (n =? 10) || (n =? 12) || (n =? 13) || (n =? 32).

(** Groups of four sextets become three bytes; a rest of two or three
    sextets becomes one or two bytes, its surplus bits dropped. *)
Fixpoint sextets_to_bytes (l : list Z) : bytes :=
  match l with
  | a :: b :: c :: d :: rest =>
      Z.lor (Z.shiftl a 2) (Z.shiftr b 4)
      :: Z.lor (Z.land (Z.shiftl b 4) 255) (Z.shiftr c 2)
      :: Z.lor (Z.land (Z.shiftl c 6) 255) d
      :: sextets_to_bytes rest
  | [a; b; c] =>
      [Z.lor (Z.shiftl a 2) (Z.shiftr b 4);
       Z.lor (Z.land (Z.shiftl b 4) 255) (Z.shiftr c 2)]
  | [a; b] => [Z.lor (Z.shiftl a 2) (Z.shiftr b 4)]
  | _ => []
  end.

Definition strip_padding (l : list ascii) : list ascii :=
  if (length l mod 4 =? 0)%nat then
    match reverse l with
    | "="%char :: "="%char :: r => reverse r
    | "="%char :: r => reverse r
    | _ => l
    end
  else l.

(** [atob]: the forgiving-base64 decode of the HTML standard. *)
Definition atob (data : string) : completion bytes :=
  let l := strip_padding
             (filter (fun c => is_ascii_whitespace c = false)
                     (list_ascii_of_string data)) in
  if (length l mod 4 =? 1)%nat then Throw InvalidCharacterError
  else
    match mapM base64_value l with
    | Some sextets => Normal (sextets_to_bytes sextets)
    | None => Throw InvalidCharacterError
    end.

End Platform.


(** SHA-256 (FIPS 180-4), the digest [crypto.subtle.digest] computes. *)
Module SHA256.
Local Open Scope Z_scope.

Definition w32 (x : Z) : Z := x mod 2 ^ 32.
Definition add32 (x y : Z) : Z := w32 (x + y).
Definition rotr (n x : Z) : Z := Z.lor (Z.shiftr x n) (w32 (Z.shiftl x (32 - n))).
Definition not32 (x : Z) : Z := 2 ^ 32 - 1 - x.

Definition Ch (x y z : Z) : Z := Z.lxor (Z.land x y) (Z.land (not32 x) z).
Definition Maj (x y z : Z) : Z :=
  Z.lxor (Z.lxor (Z.land x y) (Z.land x z)) (Z.land y z).
Definition Sigma0 (x : Z) : Z := Z.lxor (Z.lxor (rotr 2 x) (rotr 13 x)) (rotr 22 x).
Definition Sigma1 (x : Z) : Z := Z.lxor (Z.lxor (rotr 6 x) (rotr 11 x)) (rotr 25 x).
Definition sigma0 (x : Z) : Z := Z.lxor (Z.lxor (rotr 7 x) (rotr 18 x)) (Z.shiftr x 3).
Definition sigma1 (x : Z) : Z := Z.lxor (Z.lxor (rotr 17 x) (rotr 19 x)) (Z.shiftr x 10).

(** The constants are the first 32 bits of the fractional parts of the
    cube roots (round constants) and square roots (initial hash value)
    of the first primes; they are computed as the standard defines them. *)
Definition is_prime (n : Z) : bool :=
  (1 <? n) && forallb (fun d => negb (n mod d =? 0)) (seqZ 2 (Z.sqrt n - 1)).

Definition primes (count : nat) : list Z :=
  take count (filter (fun n => is_prime n = true) (seqZ 2 400)).

(** The integer cube root, found bit by bit from [2^bits] down. *)
Fixpoint cube_root (bits : nat) (n acc : Z) : Z :=
  match bits with
  | O => acc
  | S bits' =>
      let candidate := acc + 2 ^ Z.of_nat bits' in
      cube_root bits' n
        (if candidate * candidate * candidate <=? n then candidate else acc)
  end.

Definition K : list Z :=
  map (fun p => w32 (cube_root 40 (p * 2 ^ 96) 0)) (primes 64).

Record state := mk {
  ha : Z; hb : Z; hc : Z; hd : Z; he : Z; hf : Z; hg : Z; hh : Z
}.

Definition H0 : state :=
  match map (fun p => w32 (Z.sqrt (p * 2 ^ 64))) (primes 8) with
  | [a; b; c; d; e; f; g; h] => mk a b c d e f g h
  | _ => mk 0 0 0 0 0 0 0 0
  end.

(** Message padding: a one bit, zero bits up to 56 modulo 64 bytes, and
    the bit length as a 64-bit big-endian integer. *)
Definition be_bytes (n : nat) (x : Z) : list Z :=
  map (fun i => Z.land (Z.shiftr x (8 * Z.of_nat i)) 255) (reverse (seq 0 n)).

Definition pad (msg : list Z) : list Z :=
  let len := Z.of_nat (length msg) in
  msg ++ [128] ++ replicate (Z.to_nat ((55 - len) mod 64)) 0 ++ be_bytes 8 (8 * len).

Fixpoint words (fuel : nat) (l : list Z) : list Z :=
  match fuel, l with
  | S fuel', a :: b :: c :: d :: rest =>
      (Z.shiftl a 24 + Z.shiftl b 16 + Z.shiftl c 8 + d) :: words fuel' rest
  | _, _ => []
  end.

(** The message schedule, kept newest first while it is extended. *)
Definition schedule_step (rw : list Z) : list Z :=
  add32 (add32 (add32 (sigma1 (nth 1 rw 0)) (nth 6 rw 0)) (sigma0 (nth 14 rw 0)))
        (nth 15 rw 0) :: rw.

Definition schedule (block : list Z) : list Z :=
  reverse (Nat.iter 48 schedule_step (reverse block)).

Definition round (s : state) (kw : Z * Z) : state :=
  let T1 := add32 (add32 (add32 (add32 (hh s) (Sigma1 (he s))) (Ch (he s) (hf s) (hg s)))
                         (fst kw)) (snd kw) in
  let T2 := add32 (Sigma0 (ha s)) (Maj (ha s) (hb s) (hc s)) in
  mk (add32 T1 T2) (ha s) (hb s) (hc s) (add32 (hd s) T1) (he s) (hf s) (hg s).

Definition compress (h : state) (block : list Z) : state :=
  let s := fold_left round (zip K (schedule block)) h in
  mk (add32 (ha h) (ha s)) (add32 (hb h) (hb s)) (add32 (hc h) (hc s))
     (add32 (hd h) (hd s)) (add32 (he h) (he s)) (add32 (hf h) (hf s))
     (add32 (hg h) (hg s)) (add32 (hh h) (hh s)).

Fixpoint blocks (fuel : nat) (h : state) (ws : list Z) : state :=
  match fuel with
  | O => h
  | S fuel' =>
      match ws with
      | [] => h
      | _ => blocks fuel' (compress h (take 16 ws)) (drop 16 ws)
      end
  end.

Definition digest (msg : list Z) : list Z :=
  let padded := pad msg in
  let ws := words (length padded) padded in
  let h := blocks (length ws) H0 ws in
  flat_map (be_bytes 4) [ha h; hb h; hc h; hd h; he h; hf h; hg h; hh h].

End SHA256.


(* ===================================================================== *)
(** * cubic_curve.ts                                                      *)
(* ===================================================================== *)

Module Cubic.
Section WithNumbers.
Context {F : Type} `{JsNumber F}.
Local Open Scope js_scope.

(** The object state: [this.curves].  The model covers objects that hold
    at least four controls, the only ones [animate] constructs; entries
    past the fourth are never read. *)
Record t := new { c0 : F; c1 : F; c2 : F; c3 : F }.

(** [Cubic.calculate(a, b, m)]. *)
Definition calculate (a b m : F) : F :=
  lit 3 * a * (lit 1 - m) * (lit 1 - m) * m
  + lit 3 * b * (lit 1 - m) * m * m
  + m * m * m.

(** The literal [0.00001]. *)
Definition tolerance : F := lit 1 / lit 100000.

(** One pass through the body of [while (start < end)]: either the
    function returns, or the loop goes on with new [start], [mid], [end]. *)
Inductive step_result :=
  | Return (v : F)
  | Continue (start mid end_ : F).

Definition loop_body (this : t) (time start end_ : F) : step_result :=
  let mid := (start + end_) / lit 2 in
  let xEst := calculate (c0 this) (c2 this) mid in
  if num_abs (time - xEst) <? tolerance then
    Return (calculate (c1 this) (c3 this) mid)
  else if xEst <? time then Continue mid mid end_
  else Continue start mid mid.

Fixpoint loop (fuel : nat) (this : t) (time start mid end_ : F) : option F :=
  match fuel with
  | O => None
  | S fuel' =>
      if start <? end_ then
        match loop_body this time start end_ with
        | Return v => Some v
        | Continue start' mid' end' => loop fuel' this time start' mid' end'
        end
      else Some (calculate (c1 this) (c3 this) mid)
  end.

(** [getValue(time)]. *)
Definition getValue (fuel : nat) (this : t) (time : F) : option F :=
  if time <=? lit 0 then
    let startGradient :=
      if c0 this >? lit 0 then c1 this / c0 this
      else if (c1 this === lit 0) && (c2 this >? lit 0) then c3 this / c2 this
      else lit 0 in
    Some (startGradient * time)
  else if time >=? lit 1 then
    let endGradient :=
      if c2 this <? lit 1 then (c3 this - lit 1) / (c2 this - lit 1)
      else if (c2 this === lit 1) && (c0 this <? lit 1)
           then (c1 this - lit 1) / (c0 this - lit 1)
      else lit 0 in
    Some (lit 1 + endGradient * (time - lit 1))
  else loop fuel this time (lit 0) (lit 0) (lit 1).

End WithNumbers.
Arguments t F : clear implicits.
End Cubic.


(* ===================================================================== *)
(** * interpolate.ts                                                      *)
(* ===================================================================== *)

Module Interpolate.
Section WithNumbers.
Context {F : Type} `{JsNumber F}.
Local Open Scope js_scope.

(** [number | boolean]. *)
Inductive value :=
  | VNum (x : F)
  | VBool (b : bool).

(** [interpolateNum(fromVal, toVal, f)]. *)
Definition interpolateNum (fromVal toVal : value) (f : F) : completion value :=
  match fromVal, toVal with
  | VNum a, VNum b => Normal (VNum (a * (lit 1 - f) + b * f))
  | VBool a, VBool b => Normal (VBool (if f <? lit 1 / lit 2 then a else b))
  | _, _ => Throw CannotInterpolate
  end.

(** The [for] loop of [interpolate], run on two arrays of one length:
    position [i] of the output is pushed before position [i+1] is
    looked at. *)
Fixpoint interpolate_each (fromList toList : list value) (f : F)
  : completion (list value) :=
  match fromList, toList with
  | a :: fromList', b :: toList' =>
      v ← interpolateNum a b f;
      out ← interpolate_each fromList' toList' f;
      Normal (v :: out)
  | _, _ => Normal []
  end.

(** [interpolate(fromList, toList, f)]. *)
Definition interpolate (fromList toList : list value) (f : F)
  : completion (list value) :=
  if negb (length fromList =? length toList)%nat
  then Throw MismatchedInterpolationArguments
  else interpolate_each fromList toList f.

End WithNumbers.
Arguments value F : clear implicits.
End Interpolate.

(* ===================================================================== *)
(** * utils.ts                                                            *)
(* ===================================================================== *)

Module Utils.

(** [n.toString()] for an integer [n]. *)
Definition Z_toString (z : Z) : string := pretty z.

Section WithNumbers.
Context {F : Type} `{JsNumber F}.
Local Open Scope js_scope.

(** [r.toString()] as [floatToHex] uses it: on the result of a
    [Math.floor], which is an integer or, past the finite numbers, NaN. *)
Definition num_toString (r : F) : string :=
  match toInteger r with
  | Some z => Z_toString z
  | None => "NaN"
  end.

(** [String.fromCharCode(n)], for the codes below 256 (Rocq characters
    are bytes); [floatToHex] reaches it with 65..70 only. *)
Definition fromCharCode (n : F) : string :=
  match toInteger n with
  | Some z => String (ascii_of_N (Z.to_N (z mod 256))) ""
  | None => String zero ""
  end.

(** The two branches that turn a digit value into text. *)
Definition digit (r : F) : string :=
  if r >? lit 9 then fromCharCode (r + lit 55) else num_toString r.

(** The variables the first loop of [floatToHex] assigns. *)
Record int_state := { x : F; quotient : F; result : list string }.

(** Body of [while (quotient > 0)]. *)
Definition int_body (s : int_state) : int_state :=
  let quotient := num_floor (x s / lit 16) in
  let remainder := num_floor (x s - quotient * lit 16) in
  {| x := quotient; quotient := quotient;
     result := digit remainder :: result s |}.

Fixpoint int_loop (fuel : nat) (s : int_state) : option int_state :=
  match fuel with
  | O => None
  | S fuel' =>
      if quotient s >? lit 0 then int_loop fuel' (int_body s) else Some s
  end.

(** Body of [while (fraction > 0)], on [fraction] and [result]. *)
Definition frac_body (s : F * list string) : F * list string :=
  let fraction := fst s * lit 16 in
  let integer := num_floor fraction in
  (fraction - integer, snd s ++ [digit integer]).

Fixpoint frac_loop (fuel : nat) (s : F * list string) : option (F * list string) :=
  match fuel with
  | O => None
  | S fuel' =>
      if fst s >? lit 0 then frac_loop fuel' (frac_body s) else Some s
  end.

Definition join (l : list string) : string := String.concat "" l.

(** [floatToHex(x)]. *)
Definition floatToHex (fuel : nat) (x0 : F) : option string :=
  let quotient := num_floor x0 in
  let fraction := x0 - quotient in
  s ← int_loop fuel {| x := x0; quotient := quotient; result := [] |};
  if fraction === lit 0 then Some (join (result s))
  else
    r ← frac_loop fuel (fraction, result s ++ ["."]);
    Some (join (snd r)).

(** [isOdd(num)]. *)
Definition isOdd (num : Z) : F :=
  if (Z.rem num 2 =? 0)%Z then lit 0 else lit (-1).

End WithNumbers.

(** [string | Uint8Array]. *)
Inductive data :=
  | Text (s : string)
  | Bytes (b : Platform.bytes).

(** [base64Encode(data)]. *)
Definition base64Encode (d : data) : string :=
  let d := match d with
           | Text s => Platform.TextEncoder_encode s
           | Bytes b => b
           end in
  Platform.btoa d.

End Utils.

(* ===================================================================== *)
(** * rotation.ts                                                         *)
(* ===================================================================== *)

Module Rotation.
Section WithTrigonometry.
(** [Math.cos] and [Math.sin] are implementation-approximated in
    ECMAScript: they are parameters. *)
Variables Math_cos Math_sin : b64 -> b64.
Local Open Scope js_scope.

(** [convertRotationToMatrix(rotation)]. *)
Definition convertRotationToMatrix (rotation : b64) : list b64 :=
  let rad := rotation * Platform.Math_PI / lit 180 in
  [Math_cos rad; SFopp (Math_sin rad); Math_sin rad; Math_cos rad].

End WithTrigonometry.
End Rotation.


(* ===================================================================== *)
(** * The parsed homepage                                                 *)
(* ===================================================================== *)

(** What the sources ask of the cheerio document: the [content]
    attributes of the elements matching
    [meta[name="twitter-site-verification"]], and the elements matching
    [[id^="loading-x-anim"]], each with the [d] attributes of the [path]
    elements below it.  An absent attribute is [None]. *)
Module Dom.

Record path_element := { attr_d : option string }.
Record frame_element := { find_path : list path_element }.
Record document := {
  site_verification : list (option string);
  loading_x_anim : list frame_element
}.

(** [selection.attr(name)] reads the first element of a selection. *)
Definition attr {A} (get : A -> option string) (selection : list A)
  : option string :=
  match selection with
  | [] => None
  | e :: _ => get e
  end.

End Dom.

(** String methods used on the path data. *)
Module Str.

Fixpoint drop (n : nat) (s : string) : string :=
  match n, s with
  | S n', String _ s' => drop n' s'
  | _, _ => s
  end.

(** [s.split(sep)] for a one-character separator. *)
Fixpoint split (sep : ascii) (s : string) : list string :=
  match s with
  | EmptyString => [EmptyString]
  | String c s' =>
      if Ascii.eqb c sep then EmptyString :: split sep s'
      else match split sep s' with
           | piece :: pieces => String c piece :: pieces
           | [] => [String c EmptyString]
           end
  end.

Definition is_digit (c : ascii) : bool :=
  let n := Platform.charCode c in (48 <=? n)%Z && (n <=? 57)%Z.

(** [s.replace(/[^\d]+/g, ' ')]: every maximal run of non-digits becomes
    one space. *)
Fixpoint replace_non_digits (in_run : bool) (s : string) : string :=
  match s with
  | EmptyString => EmptyString
  | String c s' =>
      if is_digit c then String c (replace_non_digits false s')
      else if in_run then replace_non_digits true s'
      else String " " (replace_non_digits true s')
  end.

Fixpoint trim_start (s : string) : string :=
  match s with
  | String " " s' => trim_start s'
  | _ => s
  end.

(** [s.trim()], on text made of digits and spaces. *)
Definition trim (s : string) : string :=
  String.rev (trim_start (String.rev (trim_start s))).

(** [parseInt(s, 10)] on a run of decimal digits. *)
Definition parseInt (s : string) : Z :=
  fold_left (fun acc c => (10 * acc + (Platform.charCode c - 48))%Z)
            (list_ascii_of_string s) 0%Z.

Definition startsWith (c : ascii) (s : string) : bool :=
  match s with
  | String c' _ => Ascii.eqb c c'
  | EmptyString => false
  end.

Definition toLowerCase (s : string) : string :=
  string_of_list_ascii
    (map (fun c => let n := Platform.charCode c in
                   if (65 <=? n)%Z && (n <=? 90)%Z then Platform.char_of (n + 32) else c)
         (list_ascii_of_string s)).

(** [s.replace(/[.-]/g, '')]. *)
Definition remove_dots_dashes (s : string) : string :=
  string_of_list_ascii
    (filter (fun c => Ascii.eqb c "." || Ascii.eqb c "-" = false)
            (list_ascii_of_string s)).

(** [s.replace(/=/g, '')]. *)
Definition remove_equals (s : string) : string :=
  string_of_list_ascii
    (filter (fun c => Ascii.eqb c "=" = false) (list_ascii_of_string s)).

End Str.


(* ===================================================================== *)
(** * transaction.ts                                                      *)
(* ===================================================================== *)

Module ClientTransaction.
Import Platform Dom.
Local Open Scope js_scope.

Definition ADDITIONAL_RANDOM_NUMBER : Z := 3.
Definition DEFAULT_KEYWORD : string := "obfiowerehiring".

(** The fields of an instance; a field declared with [!] is [None] until
    it is assigned, and [null] is [None] for the two index fields. *)
Record t := {
  defaultRowIndex : option Z;
  defaultKeyBytesIndices : option (list Z);
  homePage : document;
  key : option string;
  keyBytes : option bytes;
  animationKey : option string
}.

(** The private constructor. *)
Definition constructor (homePageResponse : document) : t :=
  {| defaultRowIndex := None; defaultKeyBytesIndices := None;
     homePage := homePageResponse;
     key := None; keyBytes := None; animationKey := None |}.

(** How the call of [getIndicesWithFetch] in [create] ends: no
    [customFetch] was given, the call threw, or it returned a row index
    and key-byte indices. *)
Inductive indices_fetch :=
  | NoCustomFetch
  | FetchThrew
  | Fetched (rowIndex : Z) (keyBytesIndices : list Z).

(** [getKey()].  Its inner [catch] rethrows, so it throws whenever the
    element or its content is missing. *)
Definition getKey (this : t) : completion string :=
  let element := site_verification (homePage this) in
  if (length element =? 0)%nat then Throw KeyNotFound
  else match attr id element with
       | None | Some EmptyString => Throw KeyNotFound
       | Some content => Normal content
       end.

(** [getKeyBytes(key)]. *)
Definition getKeyBytes (key : string) : completion bytes := atob key.

(** [getFrames()]. *)
Definition getFrames (this : t) : list frame_element :=
  loading_x_anim (homePage this).

Definition default_array : list (list Z) :=
  [[0; 0; 0; 255; 255; 255; 120; 100; 100; 0; 0; 1]]%Z.

(** The rows [get2DArray] reads out of the path data. *)
Definition path_rows (pathData : string) : list (list Z) :=
  let pathSegments := Str.split "C" (Str.drop 9 pathData) in
  map (fun item =>
         map Str.parseInt
           (filter (fun x => (0 <? String.length x)%nat = true)
              (Str.split " " (Str.trim (Str.replace_non_digits false item)))))
      pathSegments.

(** [get2DArray(keyBytes)]; [frames] is always left to [getFrames]. *)
Definition get2DArray (this : t) (keyBytes : bytes) : completion (list (list Z)) :=
  if (length keyBytes <? 6)%nat then Throw InvalidKeyBytes
  else
    let frames := getFrames this in
    if (length frames =? 0)%nat then Normal default_array
    else
      let frameIndex :=
        (keyBytes !!! 5%nat mod Z.max (Z.of_nat (length frames)) 1)%Z in
      match frames !! Z.to_nat frameIndex with
      | None => Normal default_array
      | Some frame =>
          let path := find_path frame in
          if (length path =? 0)%nat then Normal default_array
          else match attr attr_d path with
               | None | Some EmptyString => Normal default_array
               | Some pathData =>
                   if (String.length pathData <? 10)%nat then Normal default_array
                   else
                     let result := path_rows pathData in
                     match result with
                     | [] => Normal default_array
                     | row0 :: _ =>
                         if (length row0 <? 7)%nat then Normal default_array
                         else Normal result
                     end
               end
      end.

(** [solve(value, minVal, maxVal, rounding)]. *)
Definition solve (value minVal maxVal : b64) (rounding : bool) : b64 :=
  let result := value * (maxVal - minVal) / lit 255 + minVal in
  if rounding then b64_floor result else toFixed2 result.

(** The cast [as number[]] of an interpolation result. *)
Definition as_number (v : Interpolate.value b64) : b64 :=
  match v with
  | Interpolate.VNum x => x
  | Interpolate.VBool b => if b then lit 1 else lit 0
  end.

Section WithTrigonometry.
Variables Math_cos Math_sin : b64 -> b64.

(** The body of the [for (const value of matrix)] loop: the text pushed
    for one matrix component. *)
Definition matrix_text (fuel : nat) (value : b64) : completion string :=
  let rounded := toFixed2 value in
  let rounded := if rounded <? lit 0 then SFopp rounded else rounded in
  hexValue ← of_fuel (Utils.floatToHex fuel rounded);
  if Str.startsWith "." hexValue
  then Normal (String "0" (Str.toLowerCase hexValue))
  else Normal (match hexValue with EmptyString => "0" | _ => hexValue end).

(** The [try] block of [animate]. *)
Definition animate_try (fuel : nat) (frames : list Z) (targetTime : b64)
  : completion string :=
  if (length frames <? 7)%nat then Throw InvalidFramesData
  else
    let fromColor :=
      map Interpolate.VNum (map b64_of_Z (take 3 frames) ++ [lit 1]) in
    let toColor :=
      map Interpolate.VNum (map b64_of_Z (take 3 (drop 3 frames)) ++ [lit 1]) in
    let fromRotation := [Interpolate.VNum (lit 0)] in
    let toRotation :=
      [Interpolate.VNum (solve (b64_of_Z (frames !!! 6%nat)) (lit 60) (lit 360) true)] in
    let curveValues :=
      imap (fun index item =>
              solve (b64_of_Z item) (Utils.isOdd (Z.of_nat index)) (lit 1) false)
           (drop 7 frames) in
    match curveValues with
    | a :: b :: c :: d :: _ =>
        let cubic := Cubic.new a b c d in
        val ← of_fuel (Cubic.getValue fuel cubic targetTime);
        color ← Interpolate.interpolate fromColor toColor val;
        let color := map (fun value => if value >? lit 0 then value else lit 0)
                         (map as_number color) in
        rotation ← Interpolate.interpolate fromRotation toRotation val;
        let matrix :=
          Rotation.convertRotationToMatrix Math_cos Math_sin
            (default NaN (as_number <$> rotation !! 0%nat)) in
        let strArr :=
          map (fun value => toString16 (Math_round value))
              (take (length color - 1) color) in
        texts ← mapM (matrix_text fuel) matrix;
        let strArr := strArr ++ texts ++ ["0"; "0"] in
        Normal (Str.remove_dots_dashes (Utils.join strArr))
    | _ => Throw InsufficientCurveValues
    end.

Definition fallback_animation_key : string := "1e00f00".

(** [animate(frames, targetTime)]. *)
Definition animate (fuel : nat) (frames : list Z) (targetTime : b64)
  : completion string :=
  try_catch (animate_try fuel frames targetTime)
            (fun _ => Normal fallback_animation_key).

(** [keyBytes[index] % 16]: NaN when the index is out of range. *)
Definition byte_mod_16 (keyBytes : bytes) (index : Z) : option Z :=
  if (index <? 0)%Z then None
  else b ← keyBytes !! Z.to_nat index; Some (b mod 16)%Z.

Definition number_of (o : option Z) : b64 :=
  match o with Some z => lit z | None => NaN end.

(** The [try] block of [getAnimationKey]. *)
Definition getAnimationKey_try (fuel : nat) (this : t) (keyBytes : bytes)
  : completion string :=
  let totalTime := lit 4096 in
  arr ← get2DArray this keyBytes;
  let rowIndex :=
    match defaultRowIndex this with
    | Some i => byte_mod_16 keyBytes i
    | None => byte_mod_16 keyBytes 2
    end in
  if (length arr =? 0)%nat then Throw NoAnimationData
  else
    let rowIndex := (fun r => r mod Z.of_nat (length arr))%Z <$> rowIndex in
    let frameTime :=
      match defaultKeyBytesIndices this with
      | Some (i :: indices) =>
          fold_left (fun acc index => acc * number_of (byte_mod_16 keyBytes index))
                    (i :: indices) (lit 1)
      | _ =>
          number_of (byte_mod_16 keyBytes 12) * number_of (byte_mod_16 keyBytes 14)
          * number_of (byte_mod_16 keyBytes 7)
      end in
    match rowIndex ≫= (fun r => arr !! Z.to_nat r) with
    | None => Throw InvalidFrameRow
    | Some frameRow =>
        if (length frameRow <? 7)%nat then Throw InvalidFrameRow
        else
          let targetTime := frameTime / totalTime in
          animate fuel frameRow targetTime
    end.

(** [getAnimationKey(keyBytes)]. *)
Definition getAnimationKey (fuel : nat) (this : t) (keyBytes : bytes)
  : completion string :=
  try_catch (getAnimationKey_try fuel this keyBytes)
            (fun _ => Normal fallback_animation_key).

Definition fallbackKey : string := "TWVudGlvbmVkQnlPYnNlcnZlcjwzRGV2ZWxvcG1lbnQ=".

(** Assignment of the three fields [create] fills in. *)
Definition assign (instance : t) (key : string) (keyBytes : bytes)
    (animationKey : string) : t :=
  {| defaultRowIndex := defaultRowIndex instance;
     defaultKeyBytesIndices := defaultKeyBytesIndices instance;
     homePage := homePage instance;
     key := Some key; keyBytes := Some keyBytes;
     animationKey := Some animationKey |}.

(** The first [try]/[catch] of [create]: the indices. *)
Definition with_indices (instance : t) (customFetch : indices_fetch) : t :=
  match customFetch with
  | NoCustomFetch => instance
  | Fetched rowIndex keyBytesIndices =>
      {| defaultRowIndex := Some rowIndex;
         defaultKeyBytesIndices := Some keyBytesIndices;
         homePage := homePage instance; key := key instance;
         keyBytes := keyBytes instance; animationKey := animationKey instance |}
  | FetchThrew =>
      {| defaultRowIndex := Some 2%Z;
         defaultKeyBytesIndices := Some [12; 14; 7]%Z;
         homePage := homePage instance; key := key instance;
         keyBytes := keyBytes instance; animationKey := animationKey instance |}
  end.

(** The second [try] block of [create]. *)
Definition create_try (fuel : nat) (instance : t) : completion t :=
  k ← getKey instance;
  match k with
  | EmptyString => Throw EmptyKey
  | _ =>
      kb ← getKeyBytes k;
      ak ← getAnimationKey fuel instance kb;
      Normal (assign instance k kb ak)
  end.

(** [ClientTransaction.create(homePageResponse, customFetch)]. *)
Definition create (fuel : nat) (homePageResponse : document)
    (customFetch : indices_fetch) : completion t :=
  let instance := with_indices (constructor homePageResponse) customFetch in
  try_catch (create_try fuel instance)
    (fun _ =>
       kb ← getKeyBytes fallbackKey;
       Normal (assign instance fallbackKey kb fallback_animation_key)).

End WithTrigonometry.

(** [timeNow || Math.floor((Date.now() - 1682924400000) / 1000)], on an
    integer or absent [timeNow] and the clock reading [now]. *)
Definition effective_time (timeNow : option Z) (now : Z) : Z :=
  match timeNow with
  | Some 0%Z | None => ((now - 1682924400000) / 1000)%Z
  | Some time => time
  end.

(** [ToInt32]. *)
Definition ToInt32 (z : Z) : Z := ((z + 2 ^ 31) mod 2 ^ 32 - 2 ^ 31)%Z.

(** The loop filling [timeNowBytes]. *)
Definition timeNowBytes (timeNow : Z) : bytes :=
  map (fun i => u8 (Z.land (Z.shiftr (ToInt32 timeNow) (i * 8)) 255))
      [0; 1; 2; 3]%Z.

(** A [for] loop of statements [bytesArr[pos++] = f(source[i])]: the
    array and [pos] after it.  A store past the end of a typed array is
    ignored. *)
Definition store_each (f : Z -> Z) (source : bytes) (st : bytes * nat)
  : bytes * nat :=
  fold_left (fun '(bytesArr, pos) b => (<[pos := u8 (f b)]> bytesArr, S pos))
            source st.

(** The array [bytesArr] as [generateTransactionId] hands it to
    [base64Encode]. *)
Definition token_bytes (keyBytes : bytes) (animationKey : option string)
    (method path : string) (timeNow : Z) (randomNum : Z) : bytes :=
  let timeNowBytes := timeNowBytes timeNow in
  let stringToHash :=
    method +:+ "!" +:+ path +:+ "!" +:+ Utils.Z_toString timeNow
    +:+ DEFAULT_KEYWORD +:+ default "undefined" animationKey in
  let hashBytes := SHA256.digest (TextEncoder_encode stringToHash) in
  let bytesArr :=
    replicate (length keyBytes + length timeNowBytes + 16 + 1) 0%Z in
  let bytesArr := <[0%nat := u8 randomNum]> bytesArr in
  let pos := 1%nat in
  let '(bytesArr, pos) :=
    store_each (fun b => Z.lxor b randomNum) keyBytes (bytesArr, pos) in
  let '(bytesArr, pos) :=
    store_each (fun b => Z.lxor b randomNum) timeNowBytes (bytesArr, pos) in
  let '(bytesArr, pos) :=
    store_each (fun b => Z.lxor b randomNum)
               (map (fun i => hashBytes !!! i) (seq 0 16)) (bytesArr, pos) in
  <[pos := u8 (Z.lxor ADDITIONAL_RANDOM_NUMBER randomNum)]> bytesArr.

(** [generateTransactionId(method, path, timeNow)], with the clock
    reading [now] and the value [randomNum] of
    [Math.floor(Math.random() * 256)]. *)
Definition generateTransactionId (this : t) (method path : string)
    (timeNow : option Z) (now randomNum : Z) : completion string :=
  match keyBytes this with
  | None | Some [] => Throw KeyBytesUndefinedOrEmpty
  | Some keyBytes =>
      let timeNow := effective_time timeNow now in
      let bytesArr :=
        token_bytes keyBytes (animationKey this) method path timeNow randomNum in
      Normal (Str.remove_equals (Utils.base64Encode (Utils.Bytes bytesArr)))
  end.

End ClientTransaction.

(* ===================================================================== *)
(** * The bound of an engine on the arguments of a call                   *)
(* ===================================================================== *)

(** [base64Encode] ends with [btoa(String.fromCharCode(...bytes))]: the
    spread hands every byte of the array to one call as an argument of
    its own.  ECMAScript puts no bound on the number of arguments, and
    the functions above are embedded without one.  An engine has one,
    set by its stack, and raises a [RangeError] for a call it cannot
    hold; [max_arguments] is the largest number of arguments the engine
    at hand accepts.  The functions that reach the spread are embedded
    here a second time, as such an engine runs them. *)
Module Engine.
Import Platform ClientTransaction.

Section WithBound.
Variable max_arguments : nat.

(** [String.fromCharCode(...codes)], as the binary string [btoa] is
    given. *)
Definition fromCharCode_spread (codes : bytes) : completion bytes :=
  if (max_arguments <? length codes)%nat then Throw RangeError
  else Normal codes.

(** [base64Encode(data)]. *)
Definition base64Encode (d : Utils.data) : completion string :=
  let d := match d with
           | Utils.Text s => TextEncoder_encode s
           | Utils.Bytes b => b
           end in
  binary ← fromCharCode_spread d;
  Normal (btoa binary).

(** [generateTransactionId(method, path, timeNow)]. *)
Definition generateTransactionId (this : ClientTransaction.t)
    (method path : string) (timeNow : option Z) (now randomNum : Z)
  : completion string :=
  match keyBytes this with
  | None | Some [] => Throw KeyBytesUndefinedOrEmpty
  | Some keyBytes =>
      let timeNow := effective_time timeNow now in
      let bytesArr :=
        token_bytes keyBytes (animationKey this) method path timeNow randomNum in
      text ← base64Encode (Utils.Bytes bytesArr);
      Normal (Str.remove_equals text)
  end.

End WithBound.
End Engine.

(* ===================================================================== *)
(** * The specification's own formulas                                    *)
(* ===================================================================== *)

(** Definitions that follow the words of the specification; each is
    compared with the embedded code below. *)
Module Spec.
Import Platform.
Local Open Scope Z_scope.

Definition is_byte (z : Z) : Prop := 0 <= z < 256.

(** "pack [timestamp] into 4 little-endian bytes". *)
Definition le_bytes4 (timestamp : Z) : bytes :=
  map (fun i => (timestamp / 256 ^ i) mod 256) [0; 1; 2; 3].

(** "[digest = SHA256(method + "!" + path + "!" + timestamp +
    STATIC_KEYWORD + animationKey)]". *)
Definition digest (method path : string) (timestamp : Z) (animationKey : string)
  : bytes :=
  SHA256.digest
    (TextEncoder_encode
       (method +:+ "!" +:+ path +:+ "!" +:+ Utils.Z_toString timestamp
        +:+ "obfiowerehiring" +:+ animationKey)).

Definition xor_with (r : Z) (l : bytes) : bytes := map (fun b => Z.lxor b r) l.

(** "buffer = [r] ++ (SiteKeyBytes XOR r) ++ (timestampBytes XOR r) ++
    (digest[0:16] XOR r) ++ [(FIXED_CONSTANT=3) XOR r]". *)
Definition token_buffer (siteKey : bytes) (animationKey method path : string)
    (timestamp r : Z) : bytes :=
  [r] ++ xor_with r siteKey ++ xor_with r (le_bytes4 timestamp)
  ++ xor_with r (take 16 (digest method path timestamp animationKey))
  ++ [Z.lxor 3 r].

(** "base64-encode the buffer and strip [=] padding characters". *)
Definition encode (buffer : bytes) : string := Str.remove_equals (btoa buffer).

(** "selects one such element using [siteKeyBytes[5] mod frameCount]". *)
Definition selected_frame (doc : Dom.document) (siteKeyBytes : bytes)
  : option Dom.frame_element :=
  Dom.loading_x_anim doc
    !! Z.to_nat (siteKeyBytes !!! 5%nat
                 mod Z.of_nat (length (Dom.loading_x_anim doc))).

(** "no frames, no matching path, or insufficient row data (<7 integers)":
    no frame element at all, or a selected frame without a [path]
    element, without path data on its first [path], or whose path data
    yield fewer than 7 integers in the first row. *)
Definition insufficient_markup (doc : Dom.document) (siteKeyBytes : bytes) : Prop :=
  Dom.loading_x_anim doc = []
  \/ exists frame, selected_frame doc siteKeyBytes = Some frame
       /\ (Dom.find_path frame = []
           \/ exists p ps, Dom.find_path frame = p :: ps
                /\ (Dom.attr_d p = None \/ Dom.attr_d p = Some EmptyString
                    \/ exists d, Dom.attr_d p = Some d
                         /\ (length (hd [] (ClientTransaction.path_rows d)) < 7)%nat)).

(** A position that "pairs a number with a boolean". *)
Definition mixed {F} (a b : Interpolate.value F) : Prop :=
  match a, b with
  | Interpolate.VNum _, Interpolate.VBool _
  | Interpolate.VBool _, Interpolate.VNum _ => True
  | _, _ => False
  end.

(** "[bezier(a,b,m) = 3a(1-m)^2 m + 3b(1-m)m^2 + m^3]", over the
    rationals. *)
Definition bezier (a b m : Q) : Q :=
  (3 * a * (1 - m) * (1 - m) * m + 3 * b * (1 - m) * m * m + m * m * m)%Q.

(** The linear identity controls [0, 0, 1, 1]. *)
Definition identity_controls {F} `{JsNumber F} : Cubic.t F :=
  Cubic.new (lit 0) (lit 0) (lit 1) (lit 1).

End Spec.

(** The variables of the two [while] loops after a number of passes,
    to state what a pass does to them. *)
Module Trace.

(** The variables of the first loop of [floatToHex] after [k] passes
    through its body, started on the input [x0]. *)
Definition int_states {F} `{JsNumber F} (x0 : F) (k : nat) : Utils.int_state :=
  Nat.iter k Utils.int_body
    {| Utils.x := x0; Utils.quotient := num_floor x0; Utils.result := [] |}.

(** The variables [start], [mid], [end] of the bisection loop after [n]
    passes, none of which returned; [None] if the loop ended before. *)
Fixpoint after_passes {F} `{JsNumber F} (n : nat) (this : Cubic.t F) (time : F)
    (st : F * F * F) : option (F * F * F) :=
  match n with
  | O => Some st
  | S n' =>
      let '(start, mid, end_) := st in
      if num_ltb start end_ then
        match Cubic.loop_body this time start end_ with
        | Cubic.Return _ => None
        | Cubic.Continue start' mid' end' =>
            after_passes n' this time (start', mid', end')
        end
      else None
  end.

End Trace.

(* ===================================================================== *)
(** * The numbers doubles denote                                          *)
(* ===================================================================== *)

Module Value.
Import Platform.

(** [2^e], for an exponent of either sign. *)
Definition pow2 (e : Z) : Q := (2 # 1) ^ e.

(** The rational number a double denotes; 0 for the infinities and NaN. *)
Definition B2Q (x : b64) : Q :=
  match x with
  | S754_finite s m e => inject_Z (signed s m) * pow2 e
  | _ => 0
  end.

(** A zero or a finite number. *)
Definition is_finite (x : b64) : bool :=
  match x with
  | S754_zero _ | S754_finite _ _ _ => true
  | _ => false
  end.

(** The sign as a factor. *)
Definition sgn (s : bool) : Q := if s then (- 1)%Q else 1%Q.

(** A double that is a zero or finite and has a bounded mantissa. *)
Definition good (x : b64) : Prop :=
  valid_binary prec emax x = true /\ is_finite x = true.

(** A number a double can hold: an integer below [2^53] in magnitude
    times a power of two from [2^-1074] to [2^971]. *)
Definition representable (q : Q) : Prop :=
  exists k j : Z,
    (Z.abs k < 2 ^ 53)%Z /\ (-1074 <= j <= 971)%Z /\ (q == inject_Z k * pow2 j)%Q.

(** The bound on the rounding error of one operation whose exact result
    is below 16 in magnitude: [2^-48]. *)
Definition eps : Q := 1 # 281474976710656.

(** [x] is a zero or a finite double within [delta] of the number [q]. *)
Definition approx (x : b64) (q delta : Q) : Prop :=
  good x /\ (- delta <= B2Q x - q <= delta)%Q.

(** A double of magnitude at most 1. *)
Definition unit_double (c : b64) : bool :=
  valid_binary prec emax c && SFleb (SFabs c) (lit 1 : b64).

(** A multiple of [2^-n] between 0 and 1. *)
Definition dyadic (n : Z) (q : Q) : Prop :=
  exists a : Z, (0 <= a <= 2 ^ n)%Z /\ (q == inject_Z a * pow2 (- n))%Q.

(** The margin the x-estimate of a pass that goes on keeps from the
    time: the tolerance less the rounding errors. *)
Definition tau : Q := (99999 # 10000000000) - 25 * eps.

(** The inputs of the bisection: x-controls of magnitude at most 1 and
    a time strictly between 0 and 1. *)
Definition setting (this : Cubic.t b64) (time : b64) : Prop :=
  unit_double (Cubic.c0 this) = true /\ unit_double (Cubic.c2 this) = true
  /\ valid_binary prec emax time = true
  /\ SFltb (lit 0 : b64) time = true /\ SFltb time (lit 1 : b64) = true.

(** What holds of [start] and [end] after [i] passes. *)
Definition bracket (this : Cubic.t b64) (time : b64) (i : nat) (s e : b64) : Prop :=
  good s /\ good e
  /\ dyadic (Z.of_nat i) (B2Q s) /\ dyadic (Z.of_nat i) (B2Q e)
  /\ (B2Q e - B2Q s == pow2 (- Z.of_nat i))%Q
  /\ (Spec.bezier (B2Q (Cubic.c0 this)) (B2Q (Cubic.c2 this)) (B2Q s) < B2Q time)%Q
  /\ (B2Q time < Spec.bezier (B2Q (Cubic.c0 this)) (B2Q (Cubic.c2 this)) (B2Q e))%Q.

(** The variables of the first loop of [floatToHex] hold doubles, and
    [quotient] is the floor of [x]. *)
Definition tidy (s : Utils.int_state (F := b64)) : Prop :=
  good (Utils.x s) /\ good (Utils.quotient s)
  /\ (B2Q (Utils.quotient s) == inject_Z (Qfloor (B2Q (Utils.x s))))%Q.

End Value.

(** Inputs at which the embedding is evaluated below. *)
Module Samples.
Import ClientTransaction.
Local Open Scope Z_scope.

Definition no_markup : Dom.document :=
  {| Dom.site_verification := []; Dom.loading_x_anim := [] |}.



Definition quarter : b64 := SFdiv prec emax (lit 1) (lit 4).

(** An instance whose site key is the three bytes 1, 2, 3 and whose
    animation key is the fallback. *)
Definition sample_instance : ClientTransaction.t :=
  {| defaultRowIndex := None; defaultKeyBytesIndices := None;
     homePage := {| Dom.site_verification := [Some "AQID"];
                    Dom.loading_x_anim := [] |};
     key := Some "AQID"; keyBytes := Some [1; 2; 3];
     animationKey := Some "1e00f00" |}.

(** An instance whose site key is 150000 zero bytes, as a verification
    content of 200000 letters [A] decodes to. *)
Definition long_key_instance : ClientTransaction.t :=
  {| defaultRowIndex := None; defaultKeyBytesIndices := None;
     homePage :=
       {| Dom.site_verification :=
            [Some (string_of_list_ascii (replicate (Z.to_nat 200000) "A"%char))];
          Dom.loading_x_anim := [] |};
     key := Some (string_of_list_ascii (replicate (Z.to_nat 200000) "A"%char));
     keyBytes := Some (replicate (Z.to_nat 150000) 0);
     animationKey := Some "1e00f00" |}.

End Samples.

(* ===================================================================== *)
(** * Readers, checks and further inputs                                 *)
(* ===================================================================== *)

(** What the texts and arrays of the program hold, to state the
    properties of the second part of the development. *)
Module Reading.
Import Platform.
Local Open Scope Z_scope.

(** The integer a sequence of bytes denotes, lowest byte first. *)
Definition le_value (l : bytes) : Z :=
  fold_right (fun b acc => b + 256 * acc) 0 l.

(** The six-bit groups [btoa] writes for a byte sequence, before they
    are turned into characters. *)
Fixpoint sextets (data : bytes) : list Z :=
  match data with
  | [] => []
  | [a] => [Z.shiftr a 2; Z.land (Z.shiftl a 4) 63]
  | [a; b] =>
      [Z.shiftr a 2; Z.lor (Z.land (Z.shiftl a 4) 63) (Z.shiftr b 4);
       Z.land (Z.shiftl b 2) 63]
  | a :: b :: c :: rest =>
      Z.shiftr a 2
      :: Z.lor (Z.land (Z.shiftl a 4) 63) (Z.shiftr b 4)
      :: Z.lor (Z.land (Z.shiftl b 2) 63) (Z.shiftr c 6)
      :: Z.land c 63 :: sextets rest
  end.

(** The [=] signs [btoa] ends with. *)
Definition padding (data : bytes) : list ascii :=
  match (length data mod 3)%nat with
  | 1%nat => ["="; "="]%char
  | 2%nat => ["="]%char
  | _ => []
  end.

(** The characters left by [replace(/[^\d]+/g, ' ')]. *)
Definition digit_or_space (c : ascii) : Prop :=
  Str.is_digit c = true \/ c = " "%char.

(** The value of an upper-case hexadecimal digit. *)
Definition hex_digit_value (c : ascii) : option Z :=
  let n := charCode c in
  if (48 <=? n) && (n <=? 57) then Some (n - 48)
  else if (65 <=? n) && (n <=? 70) then Some (n - 55)
  else None.

(** The value of the digits read so far, [a], continued by the digits
    of [s]; [None] if [s] holds another character. *)
Definition hex_value_from (a : Z) (s : string) : option Z :=
  fold_left (fun acc c => a ← acc; d ← hex_digit_value c; Some (16 * a + d))
            (list_ascii_of_string s) (Some a).

(** The value of an upper-case hexadecimal numeral; the empty numeral
    has the value 0. *)
Definition hex_value (s : string) : option Z := hex_value_from 0 s.

(** The variable [mid] of the bisection loop when it ends without any
    comparison with the x-estimate having succeeded, as for the time
    NaN: the interval is halved towards [start] until it is empty. *)
Fixpoint final_mid (fuel : nat) (start mid end_ : b64) : option b64 :=
  match fuel with
  | O => None
  | S fuel' =>
      if num_ltb start end_ then
        let mid := num_div (num_add start end_) (lit 2) in
        final_mid fuel' start mid mid
      else Some mid
  end.

(** The curve [animate] builds from a frame row. *)
Definition curveValues (frames : list Z) : list b64 :=
  imap (fun index item =>
          ClientTransaction.solve (b64_of_Z item)
            (Utils.isOdd (Z.of_nat index)) (lit 1) false)
       (drop 7 frames).

(** What a cosine or a sine may be: NaN, or a double between -1 and 1. *)
Definition cosine_like (y : b64) : bool :=
  match y with
  | S754_nan => true
  | _ => valid_binary prec emax y && SFleb (SFabs y) (lit 1 : b64)
  end.

(** The angle, in radians, whose cosine and sine [animate] takes when
    the bisection has returned [val]: the rotation interpolated from 0
    to the angle of the frame row, times [Math.PI / 180]. *)
Definition rotation_angle (frames : list Z) (val : b64) : b64 :=
  ((lit 0 * (lit 1 - val)
    + ClientTransaction.solve (b64_of_Z (frames !!! 6%nat)) (lit 60) (lit 360) true
      * val) * Math_PI / lit 180)%js.

End Reading.

(** Properties of one, two or three small numbers, written as boolean
    functions so that they can be evaluated on every such number. *)
Module Checks.
Import Platform Reading.
Local Open Scope Z_scope.

(** Bit identities between the bytes [btoa] reads and the six-bit groups
    it writes, checked on every pair of bytes. *)
Definition sextet_check (a b : Z) : bool :=
  let s1 := Z.shiftr a 2 in
  let s2 := Z.lor (Z.land (Z.shiftl a 4) 63) (Z.shiftr b 4) in
  let s2' := Z.land (Z.shiftl a 4) 63 in
  let s3 := Z.lor (Z.land (Z.shiftl a 2) 63) (Z.shiftr b 6) in
  let s3' := Z.land (Z.shiftl a 2) 63 in
  let s4 := Z.land a 63 in
  forallb (fun s => (0 <=? s) && (s <? 64)) [s1; s2; s2'; s3; s3'; s4]
  && (Z.lor (Z.shiftl s1 2) (Z.shiftr s2 4) =? a)
  && (Z.lor (Z.shiftl s1 2) (Z.shiftr s2' 4) =? a)
  && (Z.land (Z.shiftl s2 4) 255 =? Z.land b 240)
  && (Z.shiftr s3 2 =? Z.land a 15)
  && (Z.shiftr s3' 2 =? Z.land a 15)
  && (Z.lor (Z.land a 240) (Z.land a 15) =? a)
  && (Z.lor (Z.land (Z.shiftl s3 6) 255) (Z.land b 63) =? b).

(** The bytes [atob] builds from six-bit groups are bytes, checked on
    every pair of groups. *)
Definition group_check (a b : Z) : bool :=
  forallb (fun s => (0 <=? s) && (s <? 256))
    [Z.lor (Z.shiftl a 2) (Z.shiftr b 4);
     Z.lor (Z.land (Z.shiftl a 4) 255) (Z.shiftr b 2);
     Z.lor (Z.land (Z.shiftl a 6) 255) b].

(** The ranges of [solve] on one byte value, as [animate] calls it. *)
Definition solve_check (v : Z) : bool :=
  let within lo x hi := SFleb lo x && SFleb x hi in
  match toInteger (ClientTransaction.solve (lit v) (lit 60) (lit 360) true) with
  | Some z => (60 <=? z) && (z <=? 360)
  | None => false
  end
  && within (lit 0) (ClientTransaction.solve (lit v) (lit 0) (lit 1) false) (lit 1)
  && within (lit (-1)) (ClientTransaction.solve (lit v) (lit (-1)) (lit 1) false) (lit 1).

(** [floatToHex] returns, within [fuel] passes of each loop, on the
    magnitude of the number of hundredths [n / 100] with sign [s]. *)
Definition hundredth_check (fuel : nat) (s : bool) (n : Z) : bool :=
  let rounded := b64_of_ratio s n 100 in
  let rounded := if num_ltb rounded (lit 0) then SFopp rounded else rounded in
  match Utils.floatToHex fuel rounded with
  | Some _ => true
  | None => false
  end.

(** The digit texts of [floatToHex] are the sixteen upper-case
    hexadecimal digits. *)
Definition digit_check (d : Z) : bool :=
  match list_ascii_of_string (Utils.digit (inject_Z d)) with
  | [c] => match hex_digit_value c with Some v => v =? d | None => false end
  | _ => false
  end.

(** The same double, constructor by constructor. *)
Definition b64_same (x y : b64) : bool :=
  match x, y with
  | S754_zero s, S754_zero s' => Bool.eqb s s'
  | S754_infinity s, S754_infinity s' => Bool.eqb s s'
  | S754_nan, S754_nan => true
  | S754_finite s m e, S754_finite s' m' e' =>
      Bool.eqb s s' && Pos.eqb m m' && Z.eqb e e'
  | _, _ => false
  end.

(** The product of three residues modulo 16 is computed without
    rounding. *)
Definition product_check (a b c : Z) : bool :=
  b64_same (num_mul (num_mul (lit a) (lit b)) (lit c)) (lit (a * b * c)).

(** [p] is the product of three residues modulo 16: it is 0, or it is
    a multiple of a positive product of two of them by a third one. *)
Definition is_product (p : Z) : bool :=
  (p =? 0)
  || existsb (fun a =>
                existsb (fun b => (0 <? a * b) && (p mod (a * b) =? 0)
                                  && (p / (a * b) <? 16))
                        (seqZ 0 16))
             (seqZ 0 16).

(** The 344 products of three residues modulo 16, in ascending order. *)
Definition frame_products : list Z :=
  Eval vm_compute in List.filter is_product (seqZ 0 3376).

(** [p] occurs in the list [l]. *)
Fixpoint listed (p : Z) (l : list Z) : bool :=
  match l with
  | [] => false
  | q :: l' => if q =? p then true else listed p l'
  end.

(** Every product of three residues is in the list. *)
Definition product_listed (a b c : Z) : bool :=
  listed (a * b * c) frame_products.

(** The bisection returns, within [fuel] passes, for the curve of the
    default row at the frame time [p / 4096]. *)
Definition default_row_check (fuel : nat) (p : Z) : bool :=
  match curveValues (hd [] ClientTransaction.default_array) with
  | c0 :: c1 :: c2 :: c3 :: _ =>
      match Cubic.getValue fuel (Cubic.new c0 c1 c2 c3)
              (num_div (lit p) (lit 4096)) with
      | Some _ => true
      | None => false
      end
  | _ => false
  end.

End Checks.

(* ===================================================================== *)
(** * Token assembly: generateTransactionId                               *)
(* ===================================================================== *)

Section TokenAssembly.
Import Platform ClientTransaction Spec Samples.
Local Open Scope Z_scope.

Lemma lxor_byte a b : is_byte a -> is_byte b -> is_byte (Z.lxor a b).
Proof.
  unfold is_byte. intros [Ha0 Ha] [Hb0 Hb]. split.
  - apply Z.lxor_nonneg. lia.
  - destruct (Z.eq_dec (Z.lxor a b) 0) as [->|Hne]; [lia|].
    assert (0 < Z.lxor a b) by (pose proof (proj2 (Z.lxor_nonneg a b)); lia).
    change 256 with (2 ^ 8) in *.
    apply Z.log2_lt_pow2; [lia|].
    pose proof (Z.log2_lxor a b Ha0 Hb0) as Hl.
    assert (Z.log2 a < 8).
    { destruct (Z.eq_dec a 0) as [->|]; [reflexivity|]. apply Z.log2_lt_pow2; lia. }
    assert (Z.log2 b < 8).
    { destruct (Z.eq_dec b 0) as [->|]; [reflexivity|]. apply Z.log2_lt_pow2; lia. }
    lia.
Qed.

Lemma u8_byte z : is_byte z -> u8 z = z.
Proof. unfold is_byte, u8. intros. apply Z.mod_small. lia. Qed.

Lemma map_u8_xor r l :
  is_byte r -> Forall is_byte l ->
  map (fun b => u8 (Z.lxor b r)) l = xor_with r l.
Proof.
  intros Hr Hl. unfold xor_with. apply map_ext_Forall.
  eapply Forall_impl; [exact Hl|]. intros b Hb. cbn.
  apply u8_byte, lxor_byte; assumption.
Qed.

(** A loop of stores that stays inside the array overwrites the slice it
    walks over and leaves the rest. *)
Lemma store_each_inside f source : forall bytesArr pos,
  (pos + length source <= length bytesArr)%nat ->
  store_each f source (bytesArr, pos)
  = (take pos bytesArr ++ map (fun b => u8 (f b)) source
       ++ drop (pos + length source) bytesArr,
     (pos + length source)%nat).
Proof.
  unfold store_each.
  induction source as [|b source IH]; intros bytesArr pos Hlen; cbn [fold_left length map].
  - rewrite Nat.add_0_r. cbn. by rewrite take_drop.
  - cbn [length] in Hlen.
    rewrite IH by (rewrite length_insert; lia). f_equal; [|lia].
    rewrite (take_S_r _ _ (u8 (f b))) by (apply list_lookup_insert_eq; lia).
    rewrite take_insert_ge by lia.
    rewrite drop_insert_lt by lia.
    rewrite <- app_assoc. cbn. by rewrite Nat.add_succ_r.
Qed.

(** The same loop run on the still untouched, zero-filled rest of the
    array. *)
Lemma store_each_fresh f source pre n pos :
  pos = length pre -> (length source <= n)%nat ->
  store_each f source (pre ++ replicate n 0, pos)
  = (pre ++ map (fun b => u8 (f b)) source ++ replicate (n - length source) 0,
     (pos + length source)%nat).
Proof.
  intros -> Hn.
  rewrite store_each_inside by (rewrite length_app, length_replicate; lia).
  rewrite take_app_length, drop_app_add', drop_replicate by reflexivity.
  reflexivity.
Qed.

Lemma be_bytes_byte n x : Forall is_byte (SHA256.be_bytes n x).
Proof.
  unfold SHA256.be_bytes. apply Forall_forall. intros b Hb.
  apply list_elem_of_In, in_map_iff in Hb as (i & <- & _).
  unfold is_byte. change 255 with (Z.ones 8). rewrite Z.land_ones by lia.
  apply Z.mod_pos_bound. lia.
Qed.

(** The digest is 32 bytes. *)
Lemma digest_length msg : length (SHA256.digest msg) = 32%nat.
Proof. unfold SHA256.digest. reflexivity. Qed.

Lemma digest_bytes msg : Forall is_byte (SHA256.digest msg).
Proof.
  unfold SHA256.digest. cbn [flat_map].
  repeat (apply Forall_app; split; [apply be_bytes_byte|]).
  constructor.
Qed.

(** The digest of the standard's three-letter test message. *)
Example digest_abc :
  SHA256.digest (TextEncoder_encode "abc")
  = [0xba; 0x78; 0x16; 0xbf; 0x8f; 0x01; 0xcf; 0xea;
     0x41; 0x41; 0x40; 0xde; 0x5d; 0xae; 0x22; 0x23;
     0xb0; 0x03; 0x61; 0xa3; 0x96; 0x17; 0x7a; 0x9c;
     0xb4; 0x10; 0xff; 0x61; 0xf2; 0x00; 0x15; 0xad].
Proof. vm_compute. reflexivity. Qed.

Lemma lookup_total_seq_take (l : list Z) n :
  (n <= length l)%nat -> map (fun i => l !!! i) (seq 0 n) = take n l.
Proof.
  intros Hn. apply list_eq. intros i.
  rewrite list_lookup_fmap. destruct (decide (i < n)%nat) as [Hi|Hi].
  - rewrite lookup_seq_lt by lia. cbn. rewrite lookup_take_lt by lia.
    symmetry. apply list_lookup_lookup_total_lt. lia.
  - rewrite lookup_seq_ge by lia. cbn. symmetry.
    apply lookup_ge_None. rewrite length_take. lia.
Qed.

(** [timeNowBytes] holds the four low bytes of the integer, whatever its
    sign or size. *)
Lemma timeNowBytes_le t : timeNowBytes t = le_bytes4 t.
Proof.
  unfold timeNowBytes, le_bytes4.
  assert (Hc : forall k, 0 <= k <= 24 ->
            u8 (Z.land (Z.shiftr (ToInt32 t) k) 255) = (t / 2 ^ k) mod 256).
  { intros k Hk. unfold u8. change 255 with (Z.ones 8).
    rewrite Z.land_ones by lia. rewrite Z.mod_mod by lia.
    rewrite Z.shiftr_div_pow2 by lia. unfold ToInt32.
    rewrite (Z.mod_eq (t + 2 ^ 31) (2 ^ 32)) by lia.
    set (q := (t + 2 ^ 31) / 2 ^ 32).
    replace (t + 2 ^ 31 - 2 ^ 32 * q - 2 ^ 31)
      with (t + (- q * 2 ^ (32 - k)) * 2 ^ k).
    2:{ replace (2 ^ 32) with (2 ^ (32 - k) * 2 ^ k)
          by (rewrite <- Z.pow_add_r by lia; f_equal; lia). ring. }
    rewrite Z.div_add by lia.
    replace (2 ^ (32 - k)) with (2 ^ (24 - k) * 256)
      by (change 256 with (2 ^ 8); rewrite <- Z.pow_add_r by lia; f_equal; lia).
    replace (- q * (2 ^ (24 - k) * 256)) with ((- q * 2 ^ (24 - k)) * 256) by ring.
    apply Z_mod_plus_full. }
  cbn [map]. rewrite !Hc by lia. reflexivity.
Qed.

Lemma le_bytes4_byte t : Forall is_byte (le_bytes4 t).
Proof.
  unfold le_bytes4. cbn [map].
  repeat constructor; unfold is_byte; apply Z.mod_pos_bound; lia.
Qed.

(** What [generateTransactionId] hands to [base64Encode]: the buffer of
    the specification without its last byte.  The array is allocated with
    [keyBytes.length + 4 + 16 + 1] elements, one short of the
    [1 + keyBytes.length + 4 + 16 + 1] values stored, and the final store,
    of [ADDITIONAL_RANDOM_NUMBER ^ randomNum], falls past its end. *)
Lemma token_bytes_layout kb ak method path t r :
  Forall is_byte kb -> is_byte r ->
  token_bytes kb (Some ak) method path t r
  = [r] ++ xor_with r kb ++ xor_with r (le_bytes4 t)
    ++ xor_with r (take 16 (digest method path t ak)).
Proof.
  intros Hkb Hr. unfold token_bytes. cbn [default from_option id].
  set (h := digest method path t ak).
  change (SHA256.digest (TextEncoder_encode _)) with h.
  assert (Hh : length h = 32%nat) by apply digest_length.
  rewrite lookup_total_seq_take by lia.
  assert (Hh16 : length (take 16 h) = 16%nat) by (rewrite length_take; lia).
  assert (Htb : length (timeNowBytes t) = 4%nat) by reflexivity.
  rewrite Htb.
  replace (length kb + 4 + 16 + 1)%nat with (S (length kb + 20)) by lia.
  cbn [replicate]. change (<[0%nat:=u8 r]> (0 :: ?l)) with ([u8 r] ++ l).
  rewrite (store_each_fresh _ kb [u8 r]) by (cbn; lia).
  replace (length kb + 20 - length kb)%nat with 20%nat by lia.
  rewrite (app_assoc [u8 r]).
  rewrite (store_each_fresh _ (timeNowBytes t)) by (rewrite ?length_app, ?length_map, ?Htb; cbn; lia).
  rewrite Htb. change (20 - 4)%nat with 16%nat.
  rewrite (app_assoc ([u8 r] ++ _)).
  rewrite (store_each_fresh _ (take 16 h))
    by (rewrite ?length_app, ?length_map, ?Htb, ?Hh16; cbn; lia).
  rewrite Hh16. cbn [Nat.sub replicate]. rewrite app_nil_r.
  rewrite list_insert_ge
    by (rewrite !length_app, !length_map, Htb, Hh16; cbn; lia).
  rewrite !map_u8_xor; auto.
  2:{ apply Forall_take. apply digest_bytes. }
  2:{ rewrite timeNowBytes_le. apply le_bytes4_byte. }
  rewrite timeNowBytes_le, u8_byte by assumption.
  by rewrite <- !app_assoc.
Qed.

(** C1.  For a nonzero timestamp, a non-empty site key and a random byte
    [r], [generateTransactionId] returns the padding-free base64 text of a
    buffer that is the buffer of the specification,
    [[r] ++ (SiteKey XOR r) ++ (4 little-endian bytes of t XOR r)
     ++ (first 16 digest bytes XOR r) ++ [3 XOR r]],
    WITHOUT its final byte [3 XOR r]: the claimed layout is not what the
    code produces. *)
Theorem generateTransactionId_omits_final_byte
    (this : ClientTransaction.t) kb ak method path t now r :
  keyBytes this = Some kb -> animationKey this = Some ak ->
  kb <> [] -> Forall is_byte kb -> is_byte r -> t <> 0 ->
  exists buffer,
    generateTransactionId this method path (Some t) now r
      = Normal (encode buffer)
    /\ buffer ++ [Z.lxor 3 r] = token_buffer kb ak method path t r.
Proof.
  intros Hkb Hak Hne Hbytes Hr Ht.
  exists (token_bytes kb (Some ak) method path t r). split.
  - unfold generateTransactionId. rewrite Hkb, Hak.
    destruct kb as [|b kb']; [congruence|].
    unfold effective_time. destruct t; [congruence| |]; reflexivity.
  - rewrite token_bytes_layout by assumption.
    unfold token_buffer. by rewrite <- !app_assoc.
Qed.

(** The theorem at the sample instance, timestamp 1700000000, random
    byte 7. *)
Lemma generateTransactionId_omits_final_byte_witness :
  exists buffer,
    generateTransactionId sample_instance "GET" "/1.1/x.json"
      (Some 1700000000) 0 7 = Normal (encode buffer)
    /\ buffer ++ [Z.lxor 3 7]
       = token_buffer [1; 2; 3] "1e00f00" "GET" "/1.1/x.json" 1700000000 7.
Proof.
  apply (generateTransactionId_omits_final_byte sample_instance).
  - reflexivity.
  - reflexivity.
  - discriminate.
  - repeat constructor; unfold is_byte; lia.
  - unfold is_byte; lia.
  - discriminate.
Defined.

(** The same input evaluated: the token returned, next to the token the
    specified buffer encodes to. *)
Example generateTransactionId_failing_input :
  generateTransactionId sample_instance "GET" "/1.1/x.json"
    (Some 1700000000) 0 7
  = Normal "BwYFBAf2VGJ2Vt3tNi8/SqNcqKkjstIm"
  /\ encode (token_buffer [1; 2; 3] "1e00f00" "GET" "/1.1/x.json" 1700000000 7)
     = "BwYFBAf2VGJ2Vt3tNi8/SqNcqKkjstImBA".
Proof. split; vm_compute; reflexivity. Qed.

(** Without a bound on the arguments of a call, [generateTransactionId]
    throws exactly when the instance's key bytes are undefined or empty,
    and in every other case it returns a token, whatever the method,
    path, timestamp, clock and random byte. *)
Lemma generateTransactionId_without_bound
    (this : ClientTransaction.t) method path timeNow now r :
  ((exists e, generateTransactionId this method path timeNow now r = Throw e)
   <-> keyBytes this = None \/ keyBytes this = Some [])
  /\ ((exists e, generateTransactionId this method path timeNow now r = Throw e)
      \/ (exists token,
            generateTransactionId this method path timeNow now r = Normal token)).
Proof.
  unfold generateTransactionId.
  destruct (keyBytes this) as [[|b kb]|]; split.
  - split; [auto|]. intros _. by eexists.
  - left. by eexists.
  - split; [intros [e He]; discriminate | intros [H|H]; discriminate].
  - right. by eexists.
  - split; [auto|]. intros _. by eexists.
  - left. by eexists.
Qed.

(** With the clock at 1700000000000 ms, the token for an explicit 0
    carries the time 17075600. *)
Example explicit_zero_timestamp_example :
  generateTransactionId sample_instance "GET" "/1.1/x.json" (Some 0)
    1700000000000 7
  = Normal "BwYFBJeKAwbOCDkCR4oDTAtKV4c/m7nc"
  /\ generateTransactionId sample_instance "GET" "/1.1/x.json" (Some 17075600)
       1700000000000 7
     = Normal "BwYFBJeKAwbOCDkCR4oDTAtKV4c/m7nc".
Proof. split; vm_compute; reflexivity. Qed.

End TokenAssembly.

(* ===================================================================== *)
(** * Frame extraction: get2DArray                                        *)
(* ===================================================================== *)

Section FrameExtraction.
Import Platform Dom ClientTransaction Spec Samples.

(** C8, as stated, fails: with fewer than six key bytes [get2DArray]
    throws before it looks at the document, here on a document without
    any animation markup. *)
Lemma get2DArray_short_key_raises :
  get2DArray (constructor no_markup) [1; 2; 3; 4; 5]%Z = Throw InvalidKeyBytes
  /\ get2DArray (constructor no_markup) [1; 2; 3; 4; 5]%Z <> Normal default_array.
Proof. split; [reflexivity | discriminate]. Qed.

(** C8, amended.  For a key of at least six bytes [get2DArray] never
    throws, and it returns the single fallback row
    [[0,0,0,255,255,255,120,100,100,0,0,1]] whenever the document has no
    animation frames, or the selected frame has no [path] element, no
    path data, or path data whose first row holds fewer than 7 integers. *)
Theorem get2DArray_fallback (this : ClientTransaction.t) (keyBytes : list Z) :
  (6 <= length keyBytes)%nat ->
  (exists arr, get2DArray this keyBytes = Normal arr)
  /\ (insufficient_markup (homePage this) keyBytes ->
      get2DArray this keyBytes = Normal default_array).
Proof.
  intros Hlen. unfold get2DArray, insufficient_markup, selected_frame, getFrames.
  destruct (length keyBytes <? 6)%nat eqn:Hlt; [apply Nat.ltb_lt in Hlt; lia|].
  destruct (loading_x_anim (homePage this)) as [|fr frames] eqn:Hframes.
  { cbn. split; [by eexists | done]. }
  cbn [length Nat.eqb].
  rewrite Z.max_l by lia.
  destruct ((fr :: frames) !! _) as [frame|] eqn:Hsel.
  2:{ split; [by eexists | done]. }
  destruct (find_path frame) as [|p ps] eqn:Hpath.
  { cbn. split; [by eexists | done]. }
  cbn [length Nat.eqb Dom.attr].
  destruct (attr_d p) as [[|c d]|] eqn:Hd.
  1,3: split; [by eexists | done].
  destruct (String.length (String c d) <? 10)%nat eqn:Hshort.
  { split; [by eexists | done]. }
  destruct (path_rows (String c d)) as [|row0 rows] eqn:Hrows.
  { split; [by eexists | done]. }
  destruct (length row0 <? 7)%nat eqn:Hrow.
  { split; [by eexists | done]. }
  split; [by eexists|].
  intros [Hnil | (frame' & Hsel' & [Hnopath | (p' & ps' & Hp & Hcase)])].
  - discriminate.
  - congruence.
  - assert (frame' = frame) as -> by congruence.
    assert (p' = p) as -> by congruence.
    destruct Hcase as [Hnone | [Hempty | (d' & Hd' & Hfew)]]; try congruence.
    assert (d' = String c d) as -> by congruence.
    rewrite Hrows in Hfew. cbn in Hfew. apply Nat.ltb_ge in Hrow. lia.
Qed.

(** The theorem on a document without markup and a key of six bytes. *)
Lemma get2DArray_fallback_witness :
  get2DArray (constructor no_markup) [77; 101; 110; 116; 105; 111]%Z
  = Normal default_array.
Proof.
  apply (get2DArray_fallback (constructor no_markup)
           [77; 101; 110; 116; 105; 111]%Z).
  - cbn. lia.
  - left. reflexivity.
Defined.

(** Path data of a frame, read as [get2DArray] reads it, and a frame
    whose first row is too short. *)
Example path_rows_example :
  path_rows "M 10,10 C 1 2 3 4 5 6 7 8 9,10 11 C 0 1 2 3 4 5 6 7h8 9 10"
  = [[1; 2; 3; 4; 5; 6; 7; 8; 9; 10; 11]; [0; 1; 2; 3; 4; 5; 6; 7; 8; 9; 10]]%Z
  /\ path_rows "M 0 0 0 0C1 2 3" = [[]; [1; 2; 3]]%Z.
Proof. split; reflexivity. Qed.

End FrameExtraction.

(* ===================================================================== *)
(** * Interpolation                                                       *)
(* ===================================================================== *)

Section InterpolationFacts.
Context {F : Type} `{JsNumber F}.
Import Interpolate Spec.
Local Open Scope js_scope.

Lemma mixed_dec (a b : value F) : {mixed a b} + {~ mixed a b}.
Proof. destruct a, b; cbn; auto. Qed.

Lemma interpolateNum_throws a b f :
  (exists e, interpolateNum a b f = Throw e) <-> mixed a b.
Proof.
  destruct a, b; cbn; split; try done; try (intros [e He]; discriminate);
    intros _; by eexists.
Qed.

Lemma interpolate_each_throws fromList : forall toList f,
  (exists e, interpolate_each fromList toList f = Throw e)
  <-> exists i a b, fromList !! i = Some a /\ toList !! i = Some b /\ mixed a b.
Proof.
  induction fromList as [|a fromList IH]; intros [|b toList] f; cbn.
  1-3: split; [intros [e He]; discriminate | intros (i & a' & b' & Ha & Hb & _)];
       try (by destruct i); by rewrite lookup_nil in Hb.
  destruct (mixed_dec a b) as [Hm|Hm].
  - split.
    + intros _. exists 0%nat, a, b. auto.
    + intros _. destruct (proj2 (interpolateNum_throws a b f) Hm) as [e He].
      rewrite He. cbn. by eexists.
  - assert (Hv : exists v, interpolateNum a b f = Normal v).
    { destruct a, b; cbn in *; try done; by eexists. }
    destruct Hv as [v Hv]. rewrite Hv. cbn.
    specialize (IH toList f).
    destruct (interpolate_each fromList toList f) as [out|e|] eqn:Heach; cbn.
    + split; [intros [e He]; discriminate|].
      intros ([|i] & a' & b' & Ha & Hb & Hmix); cbn in *.
      * congruence.
      * destruct (proj2 IH) as [e He]; [by eauto 6 | discriminate].
    + split; [|by eauto]. intros _.
      destruct (proj1 IH) as (i & a' & b' & Ha & Hb & Hmix); [by eauto|].
      exists (S i), a', b'. auto.
    + split; [intros [e He]; discriminate|].
      intros ([|i] & a' & b' & Ha & Hb & Hmix); cbn in *.
      * congruence.
      * destruct (proj2 IH) as [e He]; [by eauto 6 | discriminate].
Qed.

Lemma interpolate_each_returns fromList : forall toList f,
  length fromList = length toList ->
  (forall i a b, fromList !! i = Some a -> toList !! i = Some b -> ~ mixed a b) ->
  exists out,
    interpolate_each fromList toList f = Normal out
    /\ length out = length fromList
    /\ forall i,
         (forall x y, fromList !! i = Some (VNum x) -> toList !! i = Some (VNum y) ->
            out !! i = Some (VNum (x * (lit 1 - f) + y * f)))
         /\ (forall p q, fromList !! i = Some (VBool p) -> toList !! i = Some (VBool q) ->
            out !! i = Some (VBool (if f <? lit 1 / lit 2 then p else q))).
Proof.
  induction fromList as [|a fromList IH]; intros [|b toList] f Hlen Hpure;
    try discriminate.
  - exists []. cbn. repeat split; intros; by rewrite lookup_nil in *.
  - cbn in Hlen. injection Hlen as Hlen.
    destruct (IH toList f Hlen) as (out & Hout & Hlo & Hpoint).
    { intros i a' b' Ha Hb. apply (Hpure (S i)); assumption. }
    cbn. rewrite Hout.
    pose proof (Hpure 0%nat a b eq_refl eq_refl) as Hab.
    destruct a as [x|p], b as [y|q]; cbn in Hab; try done; cbn;
      (eexists; split; [reflexivity|]; split; [cbn; by rewrite Hlo|]);
      intros [|i]; cbn; (split; [intros x' y' | intros p' q']); intros Ha Hb;
      simplify_eq; try done; try (by apply Hpoint).
Qed.

(** C7.  [interpolate] throws exactly when the two arrays differ in
    length or some position holds a number on one side and a boolean on
    the other; otherwise it returns an array of the same length whose
    i-th element is [from[i]*(1-f) + to[i]*f] for two numbers and
    [from[i]] if [f < 0.5], else [to[i]], for two booleans.  This holds
    in every arithmetic, binary64 included. *)
Theorem interpolate_spec (fromList toList : list (value F)) (f : F) :
  ((exists e, interpolate fromList toList f = Throw e)
   <-> (length fromList <> length toList
        \/ exists i a b, fromList !! i = Some a /\ toList !! i = Some b /\ mixed a b))
  /\ ((exists e, interpolate fromList toList f = Throw e)
      \/ exists out,
           interpolate fromList toList f = Normal out
           /\ length out = length fromList
           /\ forall i,
                (forall x y,
                   fromList !! i = Some (VNum x) -> toList !! i = Some (VNum y) ->
                   out !! i = Some (VNum (x * (lit 1 - f) + y * f)))
                /\ (forall p q,
                   fromList !! i = Some (VBool p) -> toList !! i = Some (VBool q) ->
                   out !! i = Some (VBool (if f <? lit 1 / lit 2 then p else q)))).
Proof.
  unfold interpolate.
  destruct (length fromList =? length toList)%nat eqn:Hlen; cbn [negb].
  - apply Nat.eqb_eq in Hlen. split.
    + rewrite interpolate_each_throws. split; [auto|]. intros [Hne|Hm]; [done|auto].
    + destruct (interpolate_each fromList toList f) as [out|e|] eqn:Heach.
      * right.
        destruct (interpolate_each_returns fromList toList f Hlen) as (out' & Ho & Hrest).
        { intros i a b Ha Hb Hm.
          destruct (proj2 (interpolate_each_throws fromList toList f)) as [e He];
            [by eauto 6 | congruence]. }
        exists out'. split; [congruence | exact Hrest].
      * left. by eexists.
      * exfalso.
        destruct (interpolate_each_returns fromList toList f Hlen) as (out' & Ho & _);
          [|congruence].
        intros i a b Ha Hb Hm.
        destruct (proj2 (interpolate_each_throws fromList toList f)) as [e He];
          [by eauto 6 | congruence].
  - apply Nat.eqb_neq in Hlen. split.
    + split; [auto|]. intros _. by eexists.
    + left. by eexists.
Qed.

End InterpolationFacts.

(** The test vectors of the specification, in binary64. *)
Example interpolate_vectors :
  let n (z : Z) := Interpolate.VNum (lit z : b64) in
  let b := @Interpolate.VBool b64 in
  let f (z : Z) : b64 := (lit z / lit 10)%js in
  Interpolate.interpolate [n 0%Z; n 0%Z] [n 10%Z; n 10%Z] (f 5%Z)
    = Normal [n 5%Z; n 5%Z]
  /\ Interpolate.interpolate [b true] [b false] (f 4%Z) = Normal [b true]
  /\ Interpolate.interpolate [b true] [b false] (f 6%Z) = Normal [b false]
  /\ Interpolate.interpolate [n 0%Z] [n 1%Z; n 2%Z] (f 5%Z)
     = Throw MismatchedInterpolationArguments
  /\ Interpolate.interpolate [n 0%Z; b true] [n 1%Z; n 2%Z] (f 5%Z)
     = Throw CannotInterpolate.
Proof. repeat split; vm_compute; reflexivity. Qed.

(* ===================================================================== *)
(** * Exact arithmetic                                                    *)
(* ===================================================================== *)

(** The operations of the [exact] instance, up to [==]. *)
Section ExactArithmetic.
Local Open Scope Q_scope.

Lemma Qltb_lt a b : Qltb a b = true <-> a < b.
Proof.
  unfold Qltb. rewrite Qlt_alt. destruct (a ?= b); split; congruence.
Qed.

Lemma Qltb_ge a b : Qltb a b = false <-> b <= a.
Proof.
  rewrite <- not_true_iff_false, Qltb_lt. split.
  - apply Qnot_lt_le.
  - intros H1 H2. exact (Qlt_not_le _ _ H2 H1).
Qed.

Lemma exact_add a b : @num_add Q exact a b == a + b.
Proof. apply Qred_correct. Qed.
Lemma exact_sub a b : @num_sub Q exact a b == a - b.
Proof. apply Qred_correct. Qed.
Lemma exact_mul a b : @num_mul Q exact a b == a * b.
Proof. apply Qred_correct. Qed.
Lemma exact_div a b : @num_div Q exact a b == a / b.
Proof. apply Qred_correct. Qed.

Lemma Qfloor_unique (z : Z) (q : Q) :
  inject_Z z <= q -> q < inject_Z (z + 1) -> Qfloor q = z.
Proof.
  intros Hle Hlt.
  assert (z <= Qfloor q)%Z.
  { rewrite <- (Qfloor_Z z). apply Qfloor_resp_le, Hle. }
  assert (Qfloor q < z + 1)%Z.
  { rewrite Zlt_Qlt. eapply Qle_lt_trans; [apply Qfloor_le | exact Hlt]. }
  lia.
Qed.

(** Dividing the floor by 16 and flooring again is flooring the
    sixteenth. *)
Lemma Qfloor_div16 (y : Q) :
  Qfloor (inject_Z (Qfloor y) / inject_Z 16) = Qfloor (y / inject_Z 16).
Proof.
  symmetry. change (inject_Z 16) with (16 # 1).
  set (n := Qfloor y). set (m := Qfloor (inject_Z n / (16 # 1))).
  assert (Hn1 : inject_Z n <= y) by apply Qfloor_le.
  assert (Hn2 : y < inject_Z (n + 1)) by apply Qlt_floor.
  assert (Hm1 : inject_Z m <= inject_Z n / (16 # 1)) by apply Qfloor_le.
  assert (Hm2 : inject_Z n / (16 # 1) < inject_Z (m + 1)) by apply Qlt_floor.
  clearbody m. unfold Qdiv in *. change (/ (16 # 1)) with (1 # 16) in *.
  assert (Hz : (n + 1 <= 16 * (m + 1))%Z).
  { assert (n < 16 * (m + 1))%Z; [|lia].
    rewrite Zlt_Qlt, inject_Z_mult. change (inject_Z 16) with (16 # 1). lra. }
  rewrite Zle_Qle, inject_Z_mult in Hz. change (inject_Z 16) with (16 # 1) in Hz.
  apply Qfloor_unique; lra.
Qed.

End ExactArithmetic.

(* ===================================================================== *)
(** * Doubles as numbers                                                  *)
(* ===================================================================== *)

(** The operations of [SpecFloat] on zeros and finite doubles, read on
    the numbers they denote: a result is the exact result rounded, off
    it by at most a unit of the last place of its magnitude, and it is
    the exact result whenever a double can hold that. *)

Section Powers.
Import Value.
Local Open Scope Q_scope.

Lemma pow2_pos e : 0 < pow2 e.
Proof. unfold pow2. apply Qpower_0_lt. reflexivity. Qed.

Lemma pow2_add a b : pow2 (a + b) == pow2 a * pow2 b.
Proof. unfold pow2. apply Qpower_plus. discriminate. Qed.

Lemma pow2_succ a : pow2 (a + 1) == 2 * pow2 a.
Proof. rewrite pow2_add. change (pow2 1) with 2. ring. Qed.

Lemma pow2_le a b : (a <= b)%Z -> pow2 a <= pow2 b.
Proof. intros Hab. unfold pow2. apply Qpower_le_compat_l; [exact Hab | discriminate]. Qed.

Lemma pow2_lt a b : (a < b)%Z -> pow2 a < pow2 b.
Proof.
  intros Hab. replace b with (a + (b - a - 1) + 1)%Z by lia.
  rewrite pow2_succ, pow2_add.
  assert (H1 : 1 <= pow2 (b - a - 1)).
  { change 1 with (pow2 0). apply pow2_le. lia. }
  pose proof (pow2_pos a). nra.
Qed.

Lemma pow2_Z n : (0 <= n)%Z -> inject_Z (2 ^ n) == pow2 n.
Proof. intros Hn. unfold pow2. by rewrite Zpower_Qpower. Qed.

End Powers.

Section Digits.
Local Open Scope Z_scope.

Lemma digits2_pos_bound (m : positive) : Z.pos m < 2 ^ Z.pos (digits2_pos m).
Proof.
  induction m as [m IH|m IH|]; cbn [digits2_pos]; [| |reflexivity];
    rewrite Pos2Z.inj_succ, Z.pow_succ_r by lia; lia.
Qed.

Lemma fexp_spec e : fexp prec emax e = Z.max (e - 53) (-1074).
Proof. reflexivity. Qed.

Lemma digits2_pos_lower (m : positive) : 2 ^ (Z.pos (digits2_pos m) - 1) <= Z.pos m.
Proof.
  induction m as [m IH|m IH|]; cbn [digits2_pos]; [| |reflexivity];
    rewrite Pos2Z.inj_succ;
    replace (Z.succ (Z.pos (digits2_pos m)) - 1) with (Z.succ (Z.pos (digits2_pos m) - 1))
      by lia;
    rewrite Z.pow_succ_r by lia; lia.
Qed.

Lemma Zdigits2_bounds m :
  0 < m -> 0 < Zdigits2 m /\ 2 ^ (Zdigits2 m - 1) <= m < 2 ^ Zdigits2 m.
Proof.
  destruct m as [|p|p]; try lia. intros _. cbn [Zdigits2].
  pose proof (digits2_pos_lower p). pose proof (digits2_pos_bound p). lia.
Qed.

Lemma Zdigits2_nonneg m : 0 <= m -> 0 <= Zdigits2 m.
Proof. destruct m; cbn; lia. Qed.

(** A number below [2^d] has at most [d] digits. *)
Lemma Zdigits2_le m d : 0 <= m < 2 ^ d -> 0 <= d -> Zdigits2 m <= d.
Proof.
  intros [Hm0 Hm] Hd. destruct (Z.eq_dec m 0) as [->|Hne]; [cbn; lia|].
  destruct (Zdigits2_bounds m) as (Hpos & Hlo & _); [lia|].
  destruct (Z.le_gt_cases (Zdigits2 m) d) as [|Hgt]; [assumption|].
  assert (2 ^ d <= 2 ^ (Zdigits2 m - 1)) by (apply Z.pow_le_mono_r; lia). lia.
Qed.

(** A number from [2^d] on has more than [d] digits. *)
Lemma Zdigits2_gt m d : 2 ^ d <= m -> 0 <= d -> d < Zdigits2 m.
Proof.
  intros Hm Hd.
  assert (0 < 2 ^ d) by (apply Z.pow_pos_nonneg; lia).
  destruct (Zdigits2_bounds m) as (Hpos & _ & Hhi); [lia|].
  destruct (Z.lt_ge_cases d (Zdigits2 m)) as [|Hge]; [assumption|].
  assert (2 ^ Zdigits2 m <= 2 ^ d) by (apply Z.pow_le_mono_r; lia). lia.
Qed.

Lemma Zdigits2_mono m m' : 0 <= m <= m' -> Zdigits2 m <= Zdigits2 m'.
Proof.
  intros [Hm Hmm']. destruct (Z.eq_dec m' 0) as [->|Hne].
  { assert (m = 0) by lia. subst. lia. }
  destruct (Zdigits2_bounds m') as (Hpos & _ & Hhi); [lia|].
  apply Zdigits2_le; lia.
Qed.

(** Dropping [n] low bits drops [n] digits. *)
Lemma Zdigits2_shift m n :
  0 <= n -> 2 ^ n <= m -> Zdigits2 (m / 2 ^ n) = Zdigits2 m - n.
Proof.
  intros Hn Hm.
  assert (Hp : 0 < 2 ^ n) by (apply Z.pow_pos_nonneg; lia).
  destruct (Zdigits2_bounds m) as (Hpos & Hlo & Hhi); [lia|].
  assert (Hdn : n < Zdigits2 m) by (apply Zdigits2_gt; lia).
  assert (Hq1 : 2 ^ (Zdigits2 m - n - 1) <= m / 2 ^ n).
  { apply Z.div_le_lower_bound; [lia|].
    rewrite <- Z.pow_add_r by lia. replace (n + (Zdigits2 m - n - 1)) with (Zdigits2 m - 1) by lia.
    exact Hlo. }
  assert (Hq2 : m / 2 ^ n < 2 ^ (Zdigits2 m - n)).
  { apply Z.div_lt_upper_bound; [lia|].
    rewrite <- Z.pow_add_r by lia. replace (n + (Zdigits2 m - n)) with (Zdigits2 m) by lia.
    exact Hhi. }
  assert (Hle : Zdigits2 (m / 2 ^ n) <= Zdigits2 m - n).
  { apply Zdigits2_le; [|lia]. split; [apply Z.div_pos; lia | exact Hq2]. }
  assert (Hge : Zdigits2 m - n - 1 < Zdigits2 (m / 2 ^ n)).
  { apply Zdigits2_gt; [exact Hq1 | lia]. }
  lia.
Qed.

(** One more has the same digits or one digit more. *)
Lemma Zdigits2_succ m : 0 <= m -> Zdigits2 (m + 1) <= Zdigits2 m + 1.
Proof.
  intros Hm. destruct (Z.eq_dec m 0) as [->|Hne]; [vm_compute; discriminate|].
  destruct (Zdigits2_bounds m) as (Hpos & _ & Hhi); [lia|].
  apply Zdigits2_le; [|lia]. rewrite Z.pow_add_r by lia. change (2 ^ 1) with 2. lia.
Qed.

End Digits.

Section Shifts.
Local Open Scope Z_scope.

Lemma shr_1_m mrs : 0 <= shr_m mrs -> shr_m (shr_1 mrs) = shr_m mrs / 2.
Proof.
  destruct mrs as [m r s]. cbn [shr_m]. intros Hm.
  rewrite <- Z.div2_div. destruct m as [|[p|p|]|p]; try reflexivity; lia.
Qed.

Lemma iter_pos_nat {A} (f : A -> A) (n : positive) : forall x,
  SpecFloat.iter_pos f n x = Nat.iter (Pos.to_nat n) f x.
Proof.
  induction n as [n IH|n IH|]; intros x; cbn [SpecFloat.iter_pos].
  - rewrite !IH, Pos2Nat.inj_xI.
    replace (2 * Pos.to_nat n)%nat with (Pos.to_nat n + Pos.to_nat n)%nat by lia.
    by rewrite Nat.iter_succ_r, Nat.iter_add.
  - rewrite !IH, Pos2Nat.inj_xO.
    replace (2 * Pos.to_nat n)%nat with (Pos.to_nat n + Pos.to_nat n)%nat by lia.
    by rewrite Nat.iter_add.
  - reflexivity.
Qed.

Lemma shr_iter (j : nat) : forall mrs,
  0 <= shr_m mrs ->
  shr_m (Nat.iter j shr_1 mrs) = shr_m mrs / 2 ^ Z.of_nat j.
Proof.
  induction j as [|j IH]; intros mrs Hm.
  - cbn. by rewrite Z.div_1_r.
  - rewrite Nat.iter_succ_r, IH by (rewrite shr_1_m by lia; apply Z.div_pos; lia).
    rewrite shr_1_m by lia. rewrite Nat2Z.inj_succ, Z.pow_succ_r by lia.
    rewrite Z.div_div by (try apply Z.pow_pos_nonneg; lia). reflexivity.
Qed.

(** [shr] by a positive count divides the mantissa; otherwise it does
    nothing. *)
Lemma shr_positive mrs e n :
  0 <= shr_m mrs -> 0 < n ->
  shr_m (fst (shr mrs e n)) = shr_m mrs / 2 ^ n /\ snd (shr mrs e n) = e + n.
Proof.
  intros Hm Hn. destruct n as [|p|p]; try lia. cbn [shr fst snd].
  rewrite iter_pos_nat, shr_iter by lia. by rewrite positive_nat_Z.
Qed.

Lemma shr_not_positive mrs e n : n <= 0 -> shr mrs e n = (mrs, e).
Proof. intros Hn. destruct n as [|p|p]; try reflexivity; lia. Qed.

Lemma loc_of_shr_record_of_loc m l : loc_of_shr_record (shr_record_of_loc m l) = l.
Proof. by destruct l as [|[]]. Qed.

Lemma shr_m_of_loc m l : shr_m (shr_record_of_loc m l) = m.
Proof. by destruct l as [|[]]. Qed.

Lemma round_nearest_even_cases m l :
  round_nearest_even m l = m \/ round_nearest_even m l = m + 1.
Proof. destruct l as [|[]]; cbn; auto. destruct (Z.even m); auto. Qed.

End Shifts.

Section Rounding.
Import Value.
Local Open Scope Z_scope.

Lemma fexp_mono a b : a <= b -> fexp prec emax a <= fexp prec emax b.
Proof. rewrite !fexp_spec. lia. Qed.

Lemma fexp_succ a : fexp prec emax (a + 1) <= fexp prec emax a + 1.
Proof. rewrite !fexp_spec. lia. Qed.

(** Moving a factor [2^n] between the mantissa and the exponent. *)
Lemma scale_exponent a e n :
  0 <= n -> (inject_Z (a * 2 ^ n) * pow2 e == inject_Z a * pow2 (e + n))%Q.
Proof.
  intros Hn. rewrite inject_Z_mult, pow2_Z, pow2_add by exact Hn. ring.
Qed.

(** [shr_fexp] on a mantissa that is not too long for its exponent. *)
Lemma shr_fexp_spec mx ex lx :
  0 <= mx -> ex <= fexp prec emax (Zdigits2 mx + ex) ->
  snd (shr_fexp prec emax mx ex lx) = fexp prec emax (Zdigits2 mx + ex)
  /\ shr_m (fst (shr_fexp prec emax mx ex lx))
     = mx / 2 ^ (fexp prec emax (Zdigits2 mx + ex) - ex)
  /\ (fexp prec emax (Zdigits2 mx + ex) = ex ->
      loc_of_shr_record (fst (shr_fexp prec emax mx ex lx)) = lx).
Proof.
  intros Hmx Halign. unfold shr_fexp.
  set (e1 := fexp prec emax (Zdigits2 mx + ex)) in *.
  destruct (Z.eq_dec e1 ex) as [Heq|Hne].
  - rewrite shr_not_positive by lia. cbn [fst snd].
    rewrite shr_m_of_loc, loc_of_shr_record_of_loc.
    replace (e1 - ex) with 0 by lia. rewrite Z.div_1_r. auto.
  - destruct (shr_positive (shr_record_of_loc mx lx) ex (e1 - ex)) as [Hm He];
      [rewrite shr_m_of_loc; lia | lia |].
    rewrite Hm, He, shr_m_of_loc. split_and!; [lia | reflexivity | lia].
Qed.

(** A quotient by a power of two, between its bounds. *)
Lemma div_pow2_bounds m n :
  0 <= m -> 0 <= n ->
  (m / 2 ^ n) * 2 ^ n <= m < (m / 2 ^ n + 1) * 2 ^ n.
Proof.
  intros Hm Hn. assert (Hp : 0 < 2 ^ n) by (apply Z.pow_pos_nonneg; lia).
  pose proof (Z.mul_div_le m (2 ^ n) Hp).
  pose proof (Z.mul_succ_div_gt m (2 ^ n) Hp). lia.
Qed.

(** After the shift the mantissa has the digits its exponent asks for. *)
Lemma shifted_canonical mx ex :
  0 <= mx -> ex <= fexp prec emax (Zdigits2 mx + ex) ->
  fexp prec emax
    (Zdigits2 (mx / 2 ^ (fexp prec emax (Zdigits2 mx + ex) - ex))
     + fexp prec emax (Zdigits2 mx + ex))
  = fexp prec emax (Zdigits2 mx + ex).
Proof.
  intros Hmx Halign.
  set (e1 := fexp prec emax (Zdigits2 mx + ex)) in *.
  set (n := e1 - ex). assert (Hn : 0 <= n) by (unfold n; lia).
  assert (Hp : 0 < 2 ^ n) by (apply Z.pow_pos_nonneg; lia).
  destruct (Z.le_gt_cases (2 ^ n) mx) as [Hbig|Hsmall].
  - rewrite Zdigits2_shift by assumption.
    replace (Zdigits2 mx - n + e1) with (Zdigits2 mx + ex) by (unfold n; lia).
    reflexivity.
  - rewrite Z.div_small by lia. cbn [Zdigits2].
    assert (Hd : Zdigits2 mx <= n) by (apply Zdigits2_le; lia).
    assert (He1 : e1 = Z.max (Zdigits2 mx + ex - 53) (-1074)) by apply fexp_spec.
    rewrite fexp_spec. unfold n in Hd. lia.
Qed.

(** The rounding of a mantissa [mx] at the exponent [ex], standing for
    a number [z] of [[mx * 2^ex, (mx + 1) * 2^ex)] that is below [2^k]:
    the result is a zero or a finite double with a bounded mantissa,
    off [z] by at most [2 ^ (fexp k + 1)]. *)
Lemma round_aux_spec sx mx ex lx (z : Q) k :
  0 <= mx -> ex <= fexp prec emax (Zdigits2 mx + ex) ->
  (inject_Z mx * pow2 ex <= z)%Q -> (z < inject_Z (mx + 1) * pow2 ex)%Q ->
  (z < pow2 k)%Q -> k <= 1023 ->
  exists m e,
    0 <= m
    /\ binary_round_aux prec emax sx mx ex lx
       = match m with
         | Z0 => S754_zero sx
         | Zpos p => S754_finite sx p e
         | Zneg _ => S754_nan
         end
    /\ (0 < m -> bounded prec emax (Z.to_pos m) e = true)
    /\ (- pow2 (fexp prec emax k + 1) <= inject_Z m * pow2 e - z
        <= pow2 (fexp prec emax k + 1))%Q.
Proof.
  intros Hmx Halign Hlo Hhi Hk Hk'.
  set (e1 := fexp prec emax (Zdigits2 mx + ex)) in *.
  set (n := e1 - ex). assert (Hn : 0 <= n) by (unfold n; lia).
  destruct (shr_fexp_spec mx ex lx Hmx Halign) as (He1 & Hm1 & Hloc1).
  fold e1 in He1, Hm1, Hloc1. fold n in Hm1.
  pose proof (shifted_canonical mx ex Hmx Halign) as Hcanon1.
  fold e1 in Hcanon1. fold n in Hcanon1.
  set (m1 := mx / 2 ^ n) in *.
  assert (Hm1' : 0 <= m1) by (apply Z.div_pos; [lia | apply Z.pow_pos_nonneg; lia]).
  pose proof (div_pow2_bounds mx n Hmx Hn) as Hdiv. fold m1 in Hdiv.
  (* the number between the two neighbours at the exponent [e1] *)
  assert (Hz1 : (inject_Z m1 * pow2 e1 <= z)%Q).
  { replace e1 with (ex + n) by (unfold n; lia).
    rewrite <- scale_exponent by exact Hn.
    eapply Qle_trans; [|exact Hlo].
    apply Qmult_le_compat_r; [|apply Qlt_le_weak, pow2_pos].
    rewrite <- Zle_Qle. lia. }
  assert (Hz2 : (z < inject_Z (m1 + 1) * pow2 e1)%Q).
  { replace e1 with (ex + n) by (unfold n; lia).
    rewrite <- scale_exponent by exact Hn.
    eapply Qlt_le_trans; [exact Hhi|].
    apply Qmult_le_compat_r; [|apply Qlt_le_weak, pow2_pos].
    rewrite <- Zle_Qle. lia. }
  (* the exponent is at most the one of [2^k] *)
  assert (He1k : e1 <= fexp prec emax k).
  { destruct (Z.eq_dec mx 0) as [Hz|Hnz].
    - assert (He1' : e1 = Z.max (Zdigits2 mx + ex - 53) (-1074)) by apply fexp_spec.
      rewrite fexp_spec. subst mx. cbn [Zdigits2] in He1'. lia.
    - apply fexp_mono.
      destruct (Zdigits2_bounds mx) as (Hd & Hdlo & _); [lia|].
      destruct (Z.le_gt_cases (Zdigits2 mx + ex) k) as [|Hgt]; [assumption|].
      exfalso.
      assert (H1 : (pow2 k <= pow2 (Zdigits2 mx - 1 + ex))%Q) by (apply pow2_le; lia).
      assert (H2 : (pow2 (Zdigits2 mx - 1 + ex) <= inject_Z mx * pow2 ex)%Q).
      { rewrite pow2_add.
        apply Qmult_le_compat_r; [|apply Qlt_le_weak, pow2_pos].
        rewrite <- (pow2_Z (Zdigits2 mx - 1)) by lia.
        rewrite <- Zle_Qle. exact Hdlo. }
      apply (Qlt_irrefl z).
      eapply Qlt_le_trans; [exact Hk|]. eapply Qle_trans; [exact H1|].
      eapply Qle_trans; [exact H2 | exact Hlo]. }
  unfold binary_round_aux.
  destruct (shr_fexp prec emax mx ex lx) as [mrs1 e1'] eqn:Hshr1.
  cbn [fst snd] in He1, Hm1, Hloc1. subst e1'.
  set (m2 := round_nearest_even (shr_m mrs1) (loc_of_shr_record mrs1)).
  assert (Hm2 : m2 = m1 \/ m2 = m1 + 1).
  { unfold m2. rewrite Hm1. apply round_nearest_even_cases. }
  assert (Hm2' : 0 <= m2) by lia.
  assert (Hd2 : Zdigits2 m1 <= Zdigits2 m2 <= Zdigits2 m1 + 1).
  { split; [apply Zdigits2_mono; lia|].
    destruct Hm2 as [->| ->]; [lia | by apply Zdigits2_succ]. }
  set (e2 := fexp prec emax (Zdigits2 m2 + e1)).
  assert (He2 : e1 <= e2 <= e1 + 1).
  { unfold e2. split.
    - rewrite <- Hcanon1 at 1. apply fexp_mono. lia.
    - rewrite <- Hcanon1 at 2.
      eapply Z.le_trans; [|apply fexp_succ]. apply fexp_mono. lia. }
  destruct (shr_fexp_spec m2 e1 loc_Exact Hm2') as (He2' & Hm3 & _);
    [fold e2; lia|].
  fold e2 in He2', Hm3.
  destruct (shr_fexp prec emax m2 e1 loc_Exact) as [mrs2 e2'] eqn:Hshr2.
  cbn [fst snd] in He2', Hm3. subst e2'.
  set (m3 := shr_m mrs2) in *.
  assert (Hm3' : 0 <= m3).
  { rewrite Hm3. apply Z.div_pos; [lia | apply Z.pow_pos_nonneg; lia]. }
  exists m3, e2. split; [exact Hm3'|].
  assert (Hbounded : 0 < m3 -> bounded prec emax (Z.to_pos m3) e2 = true).
  { intros Hpos. unfold bounded, canonical_mantissa.
    apply andb_true_intro. split.
    - apply Z.eqb_eq.
      change (Z.pos (digits2_pos (Z.to_pos m3))) with (Zdigits2 (Z.pos (Z.to_pos m3))).
      rewrite Z2Pos.id by exact Hpos.
      destruct (Z.eq_dec e2 e1) as [Heq|Hne].
      + rewrite Hm3, Heq, Z.sub_diag, Z.div_1_r. fold e2. exact Heq.
      + assert (Hstep : e2 - e1 = 1) by lia.
        rewrite Hm3, Hstep in *. 
        assert (2 ^ 1 <= m2).
        { destruct (Z.le_gt_cases (2 ^ 1) m2) as [|Hsmall]; [assumption|].
          rewrite Z.div_small in Hpos by lia. lia. }
        rewrite Zdigits2_shift by lia.
        replace (Zdigits2 m2 - 1 + e2) with (Zdigits2 m2 + e1) by lia. reflexivity.
    - apply Z.leb_le. unfold emax, prec. rewrite fexp_spec in He1k. lia. }
  split; [|split; [exact Hbounded|]].
  - destruct m3 as [|p|p] eqn:Hp; [reflexivity| |lia].
    specialize (Hbounded ltac:(lia)). unfold bounded in Hbounded.
    apply andb_prop in Hbounded as [_ Hle]. cbn [Z.to_pos] in Hle. by rewrite Hle.
  - (* the error *)
    assert (Hpe : (pow2 (fexp prec emax k + 1) >= 2 * pow2 e1)%Q).
    { rewrite <- pow2_succ. apply pow2_le. lia. }
    assert (Hstep2 : (- pow2 e1 <= inject_Z m3 * pow2 e2 - inject_Z m2 * pow2 e1 <= 0)%Q).
    { destruct (Z.eq_dec e2 e1) as [Heq|Hne].
      - rewrite Hm3, Heq, Z.sub_diag, Z.div_1_r.
        pose proof (pow2_pos e1). lra.
      - assert (Hstep : e2 - e1 = 1) by lia. rewrite Hstep in Hm3.
        pose proof (div_pow2_bounds m2 1 Hm2' ltac:(lia)) as Hdiv2.
        rewrite <- Hm3 in Hdiv2. change (2 ^ 1) with 2 in Hdiv2.
        replace e2 with (e1 + 1) by lia. rewrite pow2_succ.
        assert (Hq1 : (inject_Z m3 * 2 <= inject_Z m2)%Q).
        { change 2%Q with (inject_Z 2). rewrite <- inject_Z_mult, <- Zle_Qle. lia. }
        assert (Hq2 : (inject_Z m2 <= inject_Z m3 * 2 + 1)%Q).
        { change 2%Q with (inject_Z 2). change 1%Q with (inject_Z 1).
          rewrite <- inject_Z_mult, <- inject_Z_plus, <- Zle_Qle. lia. }
        pose proof (pow2_pos e1). nra. }
    assert (Hstep1 : (- pow2 e1 <= inject_Z m2 * pow2 e1 - z <= pow2 e1)%Q).
    { rewrite inject_Z_plus in Hz2. change (inject_Z 1) with 1%Q in Hz2.
      destruct Hm2 as [->| ->].
      - lra.
      - rewrite inject_Z_plus. change (inject_Z 1) with 1%Q. lra. }
    pose proof (pow2_pos e1). lra.
Qed.


Lemma signed_sgn s m : (inject_Z (Platform.signed s m) == sgn s * inject_Z (Z.pos m))%Q.
Proof.
  destruct s; cbn [Platform.signed sgn]; [|ring].
  change (Z.neg m) with (- Z.pos m). rewrite inject_Z_opp. ring.
Qed.

Lemma sgn_xorb a b : (sgn (xorb a b) == sgn a * sgn b)%Q.
Proof. by destruct a, b. Qed.

Lemma B2Q_finite s m e :
  (B2Q (S754_finite s m e) == sgn s * (inject_Z (Z.pos m) * pow2 e))%Q.
Proof. cbn [B2Q]. rewrite signed_sgn. ring. Qed.


(** The same rounding, read on the doubles. *)
Lemma round_aux_value sx mx ex lx (z : Q) k :
  0 <= mx -> ex <= fexp prec emax (Zdigits2 mx + ex) ->
  (inject_Z mx * pow2 ex <= z)%Q -> (z < inject_Z (mx + 1) * pow2 ex)%Q ->
  (z < pow2 k)%Q -> k <= 1023 ->
  good (binary_round_aux prec emax sx mx ex lx)
  /\ (- pow2 (fexp prec emax k + 1)
      <= B2Q (binary_round_aux prec emax sx mx ex lx) - sgn sx * z
      <= pow2 (fexp prec emax k + 1))%Q.
Proof.
  intros Hmx Halign Hlo Hhi Hk Hk'.
  destruct (round_aux_spec sx mx ex lx z k Hmx Halign Hlo Hhi Hk Hk')
    as (m & e & Hm & -> & Hbounded & Herr).
  destruct m as [|p|p]; [| |lia].
  - split; [by split|]. cbn [B2Q].
    change (inject_Z 0) with 0%Q in Herr. destruct sx; cbn [sgn]; lra.
  - split; [split; [exact (Hbounded ltac:(lia)) | reflexivity]|].
    rewrite B2Q_finite. destruct sx; cbn [sgn]; lra.
Qed.

End Rounding.

Section Operations.
Import Value.
Local Open Scope Z_scope.

Lemma bounded_canonical m e :
  bounded prec emax m e = true ->
  fexp prec emax (Zdigits2 (Z.pos m) + e) = e /\ e <= 971.
Proof.
  unfold bounded, canonical_mantissa. intros H.
  apply andb_prop in H as [Hc He]. apply Z.eqb_eq in Hc. apply Z.leb_le in He.
  split; [exact Hc | exact He].
Qed.

Lemma pow2_bound_pos k : (0 < pow2 (fexp prec emax k + 1))%Q.
Proof. apply pow2_pos. Qed.

(** The product of two doubles: a double again, off the product of
    their values by at most [2 ^ (fexp k + 1)] when that product is
    below [2^k] in magnitude. *)
Lemma SFmul_spec x y k :
  good x -> good y -> k <= 1023 ->
  (- pow2 k < B2Q x * B2Q y < pow2 k)%Q ->
  good (SFmul prec emax x y)
  /\ (- pow2 (fexp prec emax k + 1)
      <= B2Q (SFmul prec emax x y) - B2Q x * B2Q y
      <= pow2 (fexp prec emax k + 1))%Q.
Proof.
  intros [Hvx Hfx] [Hvy Hfy] Hk Hmag.
  pose proof (pow2_bound_pos k) as Hpos.
  destruct x as [sx|sx| |sx mx ex], y as [sy|sy| |sy my ey]; try discriminate.
  1-3: split; [by split|]; cbn [SFmul B2Q]; lra.
  cbn [valid_binary] in Hvx, Hvy.
  destruct (bounded_canonical _ _ Hvx) as [Hcx _].
  destruct (bounded_canonical _ _ Hvy) as [Hcy _].
  set (z := (inject_Z (Z.pos (mx * my)) * pow2 (ex + ey))%Q).
  assert (Hz : (B2Q (S754_finite sx mx ex) * B2Q (S754_finite sy my ey)
                == sgn (xorb sx sy) * z)%Q).
  { rewrite !B2Q_finite, sgn_xorb. unfold z.
    rewrite Pos2Z.inj_mul, inject_Z_mult, pow2_add. ring. }
  rewrite Hz in Hmag |- *.
  assert (Hz0 : (0 <= z)%Q).
  { unfold z. apply Qmult_le_0_compat; [|apply Qlt_le_weak, pow2_pos].
    change 0%Q with (inject_Z 0). rewrite <- Zle_Qle. lia. }
  cbn [SFmul].
  apply round_aux_value; try assumption; try lia.
  - (* alignment *)
    destruct (Zdigits2_bounds (Z.pos mx)) as (Hdx & Hlx & _); [lia|].
    destruct (Zdigits2_bounds (Z.pos my)) as (Hdy & Hly & _); [lia|].
    assert (Hd : Zdigits2 (Z.pos mx) - 1 + (Zdigits2 (Z.pos my) - 1)
                 < Zdigits2 (Z.pos (mx * my))).
    { apply Zdigits2_gt; [|lia]. rewrite Z.pow_add_r, Pos2Z.inj_mul by lia.
      apply Z.mul_le_mono_nonneg; try lia; apply Z.pow_nonneg; lia. }
    rewrite fexp_spec in *. lia.
  - unfold z. apply Qle_refl.
  - unfold z. apply Qmult_lt_compat_r; [apply pow2_pos|].
    rewrite <- Zlt_Qlt. lia.
  - destruct (xorb sx sy); cbn [sgn] in Hmag; lra.
Qed.

Lemma pos_iter_xO m d : Z.pos (Pos.iter xO m d) = Z.pos m * 2 ^ Z.pos d.
Proof.
  induction d as [|d IH] using Pos.peano_ind.
  - cbn [Pos.iter]. rewrite Pos2Z.inj_xO. change (2 ^ 1) with 2. lia.
  - rewrite Pos.iter_succ, Pos2Z.inj_xO, IH, Pos2Z.inj_succ, Z.pow_succ_r by lia. lia.
Qed.

Lemma shl_align_spec mx ex ex' :
  snd (shl_align mx ex ex') = Z.min ex ex'
  /\ Z.pos (fst (shl_align mx ex ex')) = Z.pos mx * 2 ^ (ex - Z.min ex ex').
Proof.
  unfold shl_align. destruct (ex' - ex) as [|d|d] eqn:Hd; cbn [fst snd].
  - replace (Z.min ex ex') with ex by lia. rewrite Z.sub_diag. lia.
  - replace (Z.min ex ex') with ex by lia. rewrite Z.sub_diag. lia.
  - replace (Z.min ex ex') with ex' by lia. rewrite pos_iter_xO.
    replace (ex - ex') with (Z.pos d) by lia. split; reflexivity.
Qed.

Lemma Zdigits2_mul_pow2 m j :
  0 < m -> 0 <= j -> Zdigits2 (m * 2 ^ j) = Zdigits2 m + j.
Proof.
  intros Hm Hj. destruct (Zdigits2_bounds m Hm) as (Hd & Hlo & Hhi).
  assert (Hp : 0 < 2 ^ j) by (apply Z.pow_pos_nonneg; lia).
  assert (Hle : Zdigits2 (m * 2 ^ j) <= Zdigits2 m + j).
  { apply Zdigits2_le; [|lia]. rewrite Z.pow_add_r by lia. nia. }
  assert (Hgt : Zdigits2 m - 1 + j < Zdigits2 (m * 2 ^ j)).
  { apply Zdigits2_gt; [|lia]. rewrite Z.pow_add_r by lia. nia. }
  lia.
Qed.

(** The rounding of a mantissa of any length. *)
Lemma binary_round_spec sx mx ex k :
  (inject_Z (Z.pos mx) * pow2 ex < pow2 k)%Q -> k <= 1023 ->
  good (binary_round prec emax sx mx ex)
  /\ (- pow2 (fexp prec emax k + 1)
      <= B2Q (binary_round prec emax sx mx ex)
         - sgn sx * (inject_Z (Z.pos mx) * pow2 ex)
      <= pow2 (fexp prec emax k + 1))%Q.
Proof.
  intros Hmag Hk. unfold binary_round.
  set (e1 := fexp prec emax (Z.pos (digits2_pos mx) + ex)).
  destruct (shl_align_spec mx ex e1) as [He Hm].
  destruct (shl_align mx ex e1) as [mz ez]. cbn [fst snd] in He, Hm. subst ez.
  assert (Hsame : (inject_Z (Z.pos mz) * pow2 (Z.min ex e1)
                   == inject_Z (Z.pos mx) * pow2 ex)%Q).
  { rewrite Hm, scale_exponent by lia. 
    replace (Z.min ex e1 + (ex - Z.min ex e1)) with ex by lia. reflexivity. }
  rewrite <- Hsame in Hmag |- *.
  apply round_aux_value; try assumption; try lia.
  - rewrite Hm, Zdigits2_mul_pow2 by lia.
    replace (Zdigits2 (Z.pos mx) + (ex - Z.min ex e1) + Z.min ex e1)
      with (Z.pos (digits2_pos mx) + ex) by (cbn [Zdigits2]; lia).
    fold e1. lia.
  - apply Qle_refl.
  - apply Qmult_lt_compat_r; [apply pow2_pos|]. rewrite <- Zlt_Qlt. lia.
Qed.

Lemma binary_normalize_spec m e k :
  (- pow2 k < inject_Z m * pow2 e < pow2 k)%Q -> k <= 1023 ->
  good (binary_normalize prec emax m e false)
  /\ (- pow2 (fexp prec emax k + 1)
      <= B2Q (binary_normalize prec emax m e false) - inject_Z m * pow2 e
      <= pow2 (fexp prec emax k + 1))%Q.
Proof.
  intros Hmag Hk. pose proof (pow2_bound_pos k) as Hpos.
  destruct m as [|p|p]; cbn [binary_normalize].
  - split; [by split|]. cbn [B2Q]. change (inject_Z 0) with 0%Q. lra.
  - destruct (binary_round_spec false p e k) as [Hgood Herr]; [lra | exact Hk |].
    split; [exact Hgood|]. cbn [sgn] in Herr. lra.
  - change (Z.neg p) with (- Z.pos p) in *. rewrite inject_Z_opp in *.
    destruct (binary_round_spec true p e k) as [Hgood Herr]; [lra | exact Hk |].
    split; [exact Hgood|]. cbn [sgn] in Herr. lra.
Qed.

Lemma cond_Zopp_sgn s m : (inject_Z (cond_Zopp s m) == sgn s * inject_Z m)%Q.
Proof. destruct s; cbn [cond_Zopp sgn]; [rewrite inject_Z_opp|]; ring. Qed.

(** A mantissa aligned to a smaller exponent denotes the same number. *)
Lemma aligned_value s m e ez :
  ez <= e ->
  (inject_Z (cond_Zopp s (Z.pos (fst (shl_align m e ez)))) * pow2 ez
   == B2Q (S754_finite s m e))%Q.
Proof.
  intros Hez. destruct (shl_align_spec m e ez) as [_ Hm].
  rewrite cond_Zopp_sgn, Hm, B2Q_finite. replace (Z.min e ez) with ez by lia.
  rewrite <- Qmult_assoc, scale_exponent by lia.
  replace (ez + (e - ez)) with e by lia. reflexivity.
Qed.

(** The sum of two doubles. *)
Lemma SFadd_spec x y k :
  good x -> good y -> k <= 1023 ->
  (- pow2 k < B2Q x + B2Q y < pow2 k)%Q ->
  good (SFadd prec emax x y)
  /\ (- pow2 (fexp prec emax k + 1)
      <= B2Q (SFadd prec emax x y) - (B2Q x + B2Q y)
      <= pow2 (fexp prec emax k + 1))%Q.
Proof.
  intros [Hvx Hfx] [Hvy Hfy] Hk Hmag.
  pose proof (pow2_bound_pos k) as Hpos.
  destruct x as [sx|sx| |sx mx ex], y as [sy|sy| |sy my ey]; try discriminate.
  - split; [by destruct sx, sy|]. destruct sx, sy; cbn [SFadd B2Q]; lra.
  - split; [by split|]. cbn [SFadd]. change (B2Q (S754_zero sx)) with 0%Q. lra.
  - split; [by split|]. cbn [SFadd]. change (B2Q (S754_zero sy)) with 0%Q. lra.
  - cbn [SFadd]. cbv zeta.
    set (ez := Z.min ex ey).
    pose proof (aligned_value sx mx ex ez ltac:(lia)) as Hx.
    pose proof (aligned_value sy my ey ez ltac:(lia)) as Hy.
    set (S := cond_Zopp sx _ + cond_Zopp sy _).
    assert (HS : (inject_Z S * pow2 ez
                  == B2Q (S754_finite sx mx ex) + B2Q (S754_finite sy my ey))%Q).
    { unfold S. rewrite inject_Z_plus, <- Hx, <- Hy. ring. }
    rewrite <- HS in Hmag |- *. by apply binary_normalize_spec.
Qed.

Lemma sgn_negb s : (sgn (negb s) == - sgn s)%Q.
Proof. by destruct s. Qed.

(** The difference of two doubles. *)
Lemma SFsub_spec x y k :
  good x -> good y -> k <= 1023 ->
  (- pow2 k < B2Q x - B2Q y < pow2 k)%Q ->
  good (SFsub prec emax x y)
  /\ (- pow2 (fexp prec emax k + 1)
      <= B2Q (SFsub prec emax x y) - (B2Q x - B2Q y)
      <= pow2 (fexp prec emax k + 1))%Q.
Proof.
  intros [Hvx Hfx] [Hvy Hfy] Hk Hmag.
  pose proof (pow2_bound_pos k) as Hpos.
  destruct x as [sx|sx| |sx mx ex], y as [sy|sy| |sy my ey]; try discriminate.
  - split; [by destruct sx, sy|]. destruct sx, sy; cbn [SFsub B2Q]; lra.
  - split; [by split|]. cbn [SFsub]. rewrite !B2Q_finite, sgn_negb.
    change (B2Q (S754_zero sx)) with 0%Q. lra.
  - split; [by split|]. cbn [SFsub]. change (B2Q (S754_zero sy)) with 0%Q. lra.
  - cbn [SFsub]. cbv zeta.
    set (ez := Z.min ex ey).
    pose proof (aligned_value sx mx ex ez ltac:(lia)) as Hx.
    pose proof (aligned_value sy my ey ez ltac:(lia)) as Hy.
    set (S := cond_Zopp sx _ - cond_Zopp sy _).
    assert (HS : (inject_Z S * pow2 ez
                  == B2Q (S754_finite sx mx ex) - B2Q (S754_finite sy my ey))%Q).
    { unfold S. unfold Z.sub. rewrite inject_Z_plus, inject_Z_opp, <- Hx, <- Hy. ring. }
    rewrite <- HS in Hmag |- *. by apply binary_normalize_spec.
Qed.

(** The integer quotient [SFdiv] starts from: it is not too long for
    its exponent, and it is the quotient of the two mantissas once the
    first one is scaled. *)
Lemma div_core_spec mx ex my ey :
  exists q e' l,
    SFdiv_core_binary prec emax (Z.pos mx) ex (Z.pos my) ey = (q, e', l)
    /\ 0 <= q /\ e' <= ex - ey
    /\ e' <= fexp prec emax (Zdigits2 q + e')
    /\ q * Z.pos my <= Z.pos mx * 2 ^ (ex - ey - e') < (q + 1) * Z.pos my
    /\ l = new_location (Z.pos my) (Z.pos mx * 2 ^ (ex - ey - e') - q * Z.pos my).
Proof.
  unfold SFdiv_core_binary.
  set (d1 := Zdigits2 (Z.pos mx)). set (d2 := Zdigits2 (Z.pos my)).
  set (D := d1 + ex - (d2 + ey)).
  set (e' := Z.min (fexp prec emax D) (ex - ey)).
  set (s := ex - ey - e'). assert (Hs : 0 <= s) by (unfold s, e'; lia).
  set (m' := match s with
             | 0 => Z.pos mx
             | Z.pos _ => Z.shiftl (Z.pos mx) s
             | Z.neg _ => 0
             end).
  assert (Hm' : m' = Z.pos mx * 2 ^ s).
  { unfold m'. destruct s as [|p|p] eqn:Hsp; [lia | | lia].
    rewrite Z.shiftl_mul_pow2 by lia. reflexivity. }
  pose proof (Z_div_mod m' (Z.pos my) ltac:(lia)) as Hdiv.
  destruct (Z.div_eucl m' (Z.pos my)) as [q r]. destruct Hdiv as [Heq Hr].
  assert (Hp : 0 < 2 ^ s) by (apply Z.pow_pos_nonneg; lia).
  assert (Hq : 0 <= q) by nia.
  exists q, e', (new_location (Z.pos my) r).
  split; [reflexivity|]. split; [exact Hq|]. split; [unfold e'; lia|].
  split; [|change (ex - ey - e') with s; rewrite <- Hm'; split; [nia | f_equal; lia]].
  destruct (Zdigits2_bounds (Z.pos mx)) as (Hd1 & Hlo1 & _); [lia|].
  destruct (Zdigits2_bounds (Z.pos my)) as (Hd2 & _ & Hhi2); [lia|].
  fold d1 in Hd1, Hlo1. fold d2 in Hd2, Hhi2.
  assert (He' : e' <= fexp prec emax D) by (unfold e'; lia).
  destruct (Z.le_gt_cases e' (D - 1)) as [Hsmall|Hbig].
  - eapply Z.le_trans; [exact He'|]. apply fexp_mono.
    set (j := D - 1 - e'). assert (Hj : 0 <= j) by (unfold j; lia).
    assert (Hjs : j = d1 - 1 - d2 + s) by (unfold j, D, s; lia).
    assert (Hqj : 2 ^ j <= q).
    { assert (Hlt : Z.pos my * 2 ^ j < Z.pos my * (q + 1)); [|nia].
      eapply Z.lt_le_trans with (m := 2 ^ (d1 - 1) * 2 ^ s).
      - replace (2 ^ (d1 - 1) * 2 ^ s) with (2 ^ d2 * 2 ^ j).
        2:{ rewrite <- !Z.pow_add_r by lia. f_equal. lia. }
        apply Z.mul_lt_mono_pos_r; [apply Z.pow_pos_nonneg; lia | lia].
      - nia. }
    pose proof (Zdigits2_gt q j Hqj Hj). unfold j in *. lia.
  - rewrite fexp_spec in *. lia.
Qed.

(** The quotient of two doubles, the second one not a zero. *)
Lemma SFdiv_spec x y k :
  good x -> good y -> ~ (B2Q y == 0)%Q -> k <= 1023 ->
  (- pow2 k < B2Q x / B2Q y < pow2 k)%Q ->
  good (SFdiv prec emax x y)
  /\ (- pow2 (fexp prec emax k + 1)
      <= B2Q (SFdiv prec emax x y) - B2Q x / B2Q y
      <= pow2 (fexp prec emax k + 1))%Q.
Proof.
  intros [Hvx Hfx] [Hvy Hfy] Hy0 Hk Hmag.
  pose proof (pow2_bound_pos k) as Hpos.
  destruct x as [sx|sx| |sx mx ex], y as [sy|sy| |sy my ey]; try discriminate.
  1,3: exfalso; apply Hy0; reflexivity.
  - split; [by split|]. cbn [SFdiv]. change (B2Q (S754_zero sx)) with 0%Q.
    change (B2Q (S754_zero (xorb sx sy))) with 0%Q.
    unfold Qdiv. rewrite Qmult_0_l. lra.
  - cbn [SFdiv].
    destruct (div_core_spec mx ex my ey) as (q & e' & l & -> & Hq & He' & Halign & Hdiv & _).
    set (s := ex - ey - e') in *.
    set (z := (inject_Z (Z.pos mx) * pow2 ex / (inject_Z (Z.pos my) * pow2 ey))%Q).
    assert (Hden : (0 < inject_Z (Z.pos my) * pow2 ey)%Q).
    { apply Qmult_lt_0_compat; [|apply pow2_pos].
      change 0%Q with (inject_Z 0). rewrite <- Zlt_Qlt. lia. }
    assert (Hz : (B2Q (S754_finite sx mx ex) / B2Q (S754_finite sy my ey)
                  == sgn (xorb sx sy) * z)%Q).
    { rewrite !B2Q_finite, sgn_xorb. unfold z.
      assert (Hmy : (0 < inject_Z (Z.pos my))%Q)
        by (change 0%Q with (inject_Z 0); rewrite <- Zlt_Qlt; lia).
      pose proof (pow2_pos ey).
      destruct sx, sy; cbn [sgn]; field; repeat split; lra. }
    rewrite Hz in Hmag |- *.
    assert (Hnum : (inject_Z (Z.pos mx * 2 ^ s) * pow2 e' * pow2 ey
                    == inject_Z (Z.pos mx) * pow2 ex)%Q).
    { rewrite scale_exponent by (unfold s; lia). rewrite <- Qmult_assoc, <- pow2_add.
      replace (e' + s + ey) with ex by (unfold s; lia). reflexivity. }
    apply round_aux_value; try assumption.
    + unfold z. apply Qle_shift_div_l; [exact Hden|]. rewrite <- Hnum.
      assert (E : (inject_Z q * pow2 e' * (inject_Z (Z.pos my) * pow2 ey)
                   == inject_Z (q * Z.pos my) * pow2 e' * pow2 ey)%Q)
        by (rewrite inject_Z_mult; ring).
      rewrite E.
      repeat (apply Qmult_le_compat_r; [|apply Qlt_le_weak, pow2_pos]).
      rewrite <- Zle_Qle. lia.
    + unfold z. apply Qlt_shift_div_r; [exact Hden|]. rewrite <- Hnum.
      assert (E : (inject_Z (q + 1) * pow2 e' * (inject_Z (Z.pos my) * pow2 ey)
                   == inject_Z ((q + 1) * Z.pos my) * pow2 e' * pow2 ey)%Q)
        by (rewrite inject_Z_mult; ring).
      rewrite E.
      repeat (apply Qmult_lt_compat_r; [apply pow2_pos|]).
      rewrite <- Zlt_Qlt. lia.
    + destruct (xorb sx sy); cbn [sgn] in Hmag; lra.
Qed.

Lemma SFopp_spec x : good x -> good (SFopp x) /\ (B2Q (SFopp x) == - B2Q x)%Q.
Proof.
  intros [Hv Hf]. destruct x as [s|s| |s m e]; try discriminate.
  - split; [by split | reflexivity].
  - split; [by split|]. cbn [SFopp]. rewrite !B2Q_finite, sgn_negb. ring.
Qed.

Lemma SFabs_spec x : good x -> good (SFabs x) /\ (B2Q (SFabs x) == Qabs (B2Q x))%Q.
Proof.
  intros [Hv Hf]. destruct x as [s|s| |s m e]; try discriminate.
  - split; [by split | reflexivity].
  - split; [by split|]. cbn [SFabs]. rewrite !B2Q_finite.
    assert (H0 : (0 <= inject_Z (Z.pos m) * pow2 e)%Q).
    { apply Qmult_le_0_compat; [|apply Qlt_le_weak, pow2_pos].
      change 0%Q with (inject_Z 0). rewrite <- Zle_Qle. lia. }
    destruct s; cbn [sgn].
    + rewrite Qabs_neg by lra. ring.
    + rewrite Qabs_pos by lra. ring.
Qed.

End Operations.

Section Comparisons.
Import Value.
Local Open Scope Z_scope.

Lemma magnitude_pos m e : (0 < inject_Z (Z.pos m) * pow2 e)%Q.
Proof.
  apply Qmult_lt_0_compat; [|apply pow2_pos].
  change 0%Q with (inject_Z 0). rewrite <- Zlt_Qlt. lia.
Qed.

(** Of two bounded mantissas, the one with the smaller exponent denotes
    the smaller number. *)
Lemma magnitude_lt m1 e1 m2 e2 :
  bounded prec emax m1 e1 = true -> bounded prec emax m2 e2 = true ->
  e1 < e2 ->
  (inject_Z (Z.pos m1) * pow2 e1 < inject_Z (Z.pos m2) * pow2 e2)%Q.
Proof.
  intros H1 H2 He.
  destruct (bounded_canonical _ _ H1) as [Hc1 _].
  destruct (bounded_canonical _ _ H2) as [Hc2 _].
  destruct (Zdigits2_bounds (Z.pos m1)) as (Hd1 & _ & Hhi1); [lia|].
  destruct (Zdigits2_bounds (Z.pos m2)) as (Hd2 & Hlo2 & _); [lia|].
  rewrite fexp_spec in Hc1, Hc2.
  assert (Hd2' : Zdigits2 (Z.pos m2) = 53) by lia.
  assert (Hd1' : Zdigits2 (Z.pos m1) <= 53) by lia.
  rewrite Hd2' in Hlo2.
  assert (Hm1 : Z.pos m1 < 2 ^ 53).
  { eapply Z.lt_le_trans; [exact Hhi1|]. apply Z.pow_le_mono_r; lia. }
  apply Qlt_le_trans with (y := (pow2 53 * pow2 e1)%Q).
  { apply Qmult_lt_compat_r; [apply pow2_pos|].
    rewrite <- (pow2_Z 53) by lia. rewrite <- Zlt_Qlt. exact Hm1. }
  apply Qle_trans with (y := (pow2 52 * pow2 e2)%Q).
  { rewrite <- !pow2_add. apply pow2_le. lia. }
  apply Qmult_le_compat_r; [|apply Qlt_le_weak, pow2_pos].
  rewrite <- (pow2_Z 52) by lia. rewrite <- Zle_Qle. exact Hlo2.
Qed.

Lemma magnitude_compare m1 e1 m2 e2 :
  bounded prec emax m1 e1 = true -> bounded prec emax m2 e2 = true ->
  (inject_Z (Z.pos m1) * pow2 e1 ?= inject_Z (Z.pos m2) * pow2 e2)%Q
  = match e1 ?= e2 with
    | Lt => Lt
    | Gt => Gt
    | Eq => Pos.compare_cont Eq m1 m2
    end.
Proof.
  intros H1 H2. destruct (Z.compare_spec e1 e2) as [->|He|He].
  - change (Pos.compare_cont Eq m1 m2) with (m1 ?= m2)%positive.
    pose proof (pow2_pos e2) as Hp.
    destruct (Pos.compare_spec m1 m2) as [->|Hm|Hm].
    + apply (proj1 (Qeq_alt _ _)). reflexivity.
    + apply (proj1 (Qlt_alt _ _)). apply Qmult_lt_compat_r; [exact Hp|]. rewrite <- Zlt_Qlt. lia.
    + apply (proj1 (Qgt_alt _ _)). apply Qmult_lt_compat_r; [exact Hp|]. rewrite <- Zlt_Qlt. lia.
  - apply (proj1 (Qlt_alt _ _)). by apply magnitude_lt.
  - apply (proj1 (Qgt_alt _ _)). apply magnitude_lt; [assumption..|lia].
Qed.

(** On zeros and finite doubles the comparison of the code is the
    comparison of the numbers. *)
Lemma SFcompare_spec x y :
  good x -> good y -> SFcompare x y = Some (B2Q x ?= B2Q y)%Q.
Proof.
  intros [Hvx Hfx] [Hvy Hfy].
  destruct x as [sx|sx| |sx mx ex], y as [sy|sy| |sy my ey]; try discriminate.
  - reflexivity.
  - cbn [SFcompare]. f_equal. symmetry. change (B2Q (S754_zero sx)) with 0%Q.
    rewrite B2Q_finite. pose proof (magnitude_pos my ey).
    set (b := (inject_Z (Z.pos my) * pow2 ey)%Q) in *. clearbody b.
    destruct sy; cbn [sgn]; [apply (proj1 (Qgt_alt _ _)) | apply (proj1 (Qlt_alt _ _))]; lra.
  - cbn [SFcompare]. f_equal. symmetry. change (B2Q (S754_zero sy)) with 0%Q.
    rewrite B2Q_finite. pose proof (magnitude_pos mx ex).
    set (a := (inject_Z (Z.pos mx) * pow2 ex)%Q) in *. clearbody a.
    destruct sx; cbn [sgn]; [apply (proj1 (Qlt_alt _ _)) | apply (proj1 (Qgt_alt _ _))]; lra.
  - cbn [SFcompare valid_binary] in *. f_equal. symmetry.
    rewrite !B2Q_finite.
    pose proof (magnitude_pos mx ex). pose proof (magnitude_pos my ey).
    pose proof (magnitude_compare mx ex my ey Hvx Hvy) as Hc.
    set (a := (inject_Z (Z.pos mx) * pow2 ex)%Q) in *.
    set (b := (inject_Z (Z.pos my) * pow2 ey)%Q) in *.
    clearbody a b.
    assert (Hopp : ((- 1 * a ?= - 1 * b) = CompOpp (a ?= b))%Q).
    { destruct (Qcompare_spec a b) as [Heq|Hlt|Hgt]; cbn [CompOpp];
        [apply (proj1 (Qeq_alt _ _)) | apply (proj1 (Qgt_alt _ _)) | apply (proj1 (Qlt_alt _ _))]; lra. }
    assert (Hsame : ((1 * a ?= 1 * b) = (a ?= b))%Q).
    { destruct (Qcompare_spec a b) as [Heq|Hlt|Hgt];
        [apply (proj1 (Qeq_alt _ _)) | apply (proj1 (Qlt_alt _ _)) | apply (proj1 (Qgt_alt _ _))]; lra. }
    destruct sx, sy; cbn [sgn].
    + rewrite Hopp, Hc. by destruct (ex ?= ey).
    + apply (proj1 (Qlt_alt _ _)). lra.
    + apply (proj1 (Qgt_alt _ _)). lra.
    + rewrite Hsame, Hc. by destruct (ex ?= ey).
Qed.

Lemma SFltb_spec x y :
  good x -> good y -> (SFltb x y = true <-> (B2Q x < B2Q y)%Q).
Proof.
  intros Hx Hy. unfold SFltb. rewrite (SFcompare_spec x y Hx Hy), Qlt_alt.
  destruct (B2Q x ?= B2Q y)%Q; split; congruence.
Qed.

Lemma SFltb_false x y :
  good x -> good y -> (SFltb x y = false <-> (B2Q y <= B2Q x)%Q).
Proof.
  intros Hx Hy. rewrite <- not_true_iff_false, (SFltb_spec x y Hx Hy). split.
  - apply Qnot_lt_le.
  - intros H1 H2. exact (Qlt_not_le _ _ H2 H1).
Qed.

Lemma SFleb_spec x y :
  good x -> good y -> (SFleb x y = true <-> (B2Q x <= B2Q y)%Q).
Proof.
  intros Hx Hy. unfold SFleb. rewrite (SFcompare_spec x y Hx Hy), Qle_alt.
  destruct (B2Q x ?= B2Q y)%Q; split; congruence.
Qed.

End Comparisons.


Section Approximations.
Import Value.
Local Open Scope Q_scope.

Lemma pow2_4 : pow2 4 == 16.
Proof. reflexivity. Qed.

Lemma pow2_eps : pow2 (fexp prec emax 4 + 1) == eps.
Proof. reflexivity. Qed.

Lemma approx_exact x : good x -> approx x (B2Q x) 0.
Proof. intros Hx. split; [exact Hx | lra]. Qed.

(** The error of a product of two approximations. *)
Lemma product_error (x qx dx bx y qy dy by_ : Q) :
  - dx <= x - qx <= dx -> - dy <= y - qy <= dy ->
  - bx <= qx <= bx -> - by_ <= qy <= by_ ->
  - (dx * (by_ + dy) + bx * dy) <= x * y - qx * qy <= dx * (by_ + dy) + bx * dy.
Proof.
  intros Hx Hy Hbx Hby.
  assert (Hsplit : x * y - qx * qy == (x - qx) * y + qx * (y - qy)) by ring.
  assert (Hy' : - (by_ + dy) <= y <= by_ + dy) by lra.
  assert (H0x : 0 <= dx) by lra. assert (H0y : 0 <= dy) by lra.
  assert (H0b : 0 <= bx) by lra. assert (H0c : 0 <= by_ + dy) by lra.
  set (u := x - qx) in *. set (v := y - qy) in *. clearbody u v.
  assert (H1 : - (dx * (by_ + dy)) <= u * y <= dx * (by_ + dy)) by (split; nra).
  assert (H2 : - (bx * dy) <= qx * v <= bx * dy) by (split; nra).
  lra.
Qed.

Lemma product_magnitude (x y a b : Q) :
  - a <= x <= a -> - b <= y <= b -> - (a * b) <= x * y <= a * b.
Proof. intros Hx Hy. split; nra. Qed.

Lemma approx_mul x y qx qy dx dy bx by_ d :
  approx x qx dx -> approx y qy dy ->
  - bx <= qx <= bx -> - by_ <= qy <= by_ ->
  (bx + dx) * (by_ + dy) < 16 ->
  dx * (by_ + dy) + bx * dy + eps <= d ->
  approx (SFmul prec emax x y) (qx * qy) d.
Proof.
  intros [Hgx Hex] [Hgy Hey] Hbx Hby Hmag Hd.
  pose proof (product_error _ _ _ _ _ _ _ _ Hex Hey Hbx Hby) as Herr.
  assert (Hm : - ((bx + dx) * (by_ + dy)) <= B2Q x * B2Q y <= (bx + dx) * (by_ + dy)).
  { apply product_magnitude; lra. }
  destruct (SFmul_spec x y 4 Hgx Hgy ltac:(lia)) as [Hg He].
  { rewrite pow2_4. lra. }
  rewrite pow2_eps in He. split; [exact Hg | lra].
Qed.

Lemma approx_add x y qx qy dx dy b d :
  approx x qx dx -> approx y qy dy ->
  - b <= qx + qy <= b -> b + dx + dy < 16 ->
  dx + dy + eps <= d ->
  approx (SFadd prec emax x y) (qx + qy) d.
Proof.
  intros [Hgx Hex] [Hgy Hey] Hb Hmag Hd.
  destruct (SFadd_spec x y 4 Hgx Hgy ltac:(lia)) as [Hg He].
  { rewrite pow2_4. lra. }
  rewrite pow2_eps in He. split; [exact Hg | lra].
Qed.

Lemma approx_sub x y qx qy dx dy b d :
  approx x qx dx -> approx y qy dy ->
  - b <= qx - qy <= b -> b + dx + dy < 16 ->
  dx + dy + eps <= d ->
  approx (SFsub prec emax x y) (qx - qy) d.
Proof.
  intros [Hgx Hex] [Hgy Hey] Hb Hmag Hd.
  destruct (SFsub_spec x y 4 Hgx Hgy ltac:(lia)) as [Hg He].
  { rewrite pow2_4. lra. }
  rewrite pow2_eps in He. split; [exact Hg | lra].
Qed.

Lemma lit_values :
  (good (lit 0 : b64) /\ B2Q (lit 0 : b64) == 0)
  /\ (good (lit 1 : b64) /\ B2Q (lit 1 : b64) == 1)
  /\ (good (lit 2 : b64) /\ B2Q (lit 2 : b64) == 2)
  /\ (good (lit 3 : b64) /\ B2Q (lit 3 : b64) == 3).
Proof. repeat split; vm_compute; reflexivity. Qed.

End Approximations.

Section Exactness.
Import Value.
Local Open Scope Z_scope.

Lemma shr_1_even m :
  0 <= m ->
  shr_1 (Build_shr_record (m * 2) false false) = Build_shr_record m false false.
Proof.
  intros Hm. destruct m as [|p|p]; [reflexivity | | lia].
  replace (Z.pos p * 2) with (Z.pos p~0) by lia. reflexivity.
Qed.

Lemma shr_iter_exact (j : nat) : forall m,
  0 <= m ->
  Nat.iter j shr_1 (Build_shr_record (m * 2 ^ Z.of_nat j) false false)
  = Build_shr_record m false false.
Proof.
  induction j as [|j IH]; intros m Hm.
  - cbn [Nat.iter nat_rect]. f_equal. change (2 ^ Z.of_nat 0) with 1. lia.
  - rewrite Nat.iter_succ_r, Nat2Z.inj_succ, Z.pow_succ_r by lia.
    replace (m * (2 * 2 ^ Z.of_nat j)) with (m * 2 ^ Z.of_nat j * 2) by lia.
    rewrite shr_1_even by (apply Z.mul_nonneg_nonneg; [lia | apply Z.pow_nonneg; lia]).
    by apply IH.
Qed.

(** Shifting out [n] zero bits loses nothing. *)
Lemma shr_exact m e n :
  0 <= m -> 0 <= n ->
  shr (shr_record_of_loc (m * 2 ^ n) loc_Exact) e n
  = (Build_shr_record m false false, e + n).
Proof.
  intros Hm Hn. destruct n as [|p|p]; [| |lia].
  - cbn [shr shr_record_of_loc]. rewrite Z.add_0_r. do 2 f_equal.
    change (2 ^ 0) with 1. lia.
  - cbn [shr shr_record_of_loc]. rewrite iter_pos_nat. f_equal.
    rewrite <- (positive_nat_Z p) at 1. by apply shr_iter_exact.
Qed.

(** The rounding of a mantissa whose low bits, down to the exponent the
    format asks for, are zero: nothing is lost. *)
Lemma round_aux_exact sx m e n :
  0 < m -> 0 <= n ->
  fexp prec emax (Zdigits2 m + e) = e -> e <= 971 ->
  binary_round_aux prec emax sx (m * 2 ^ n) (e - n) loc_Exact
  = S754_finite sx (Z.to_pos m) e.
Proof.
  intros Hm Hn Hcanon He. unfold binary_round_aux, shr_fexp.
  rewrite Zdigits2_mul_pow2 by lia.
  replace (Zdigits2 m + n + (e - n)) with (Zdigits2 m + e) by lia.
  rewrite Hcanon. replace (e - (e - n)) with n by lia.
  rewrite shr_exact by lia. cbn [shr_m loc_of_shr_record round_nearest_even].
  replace (e - n + n) with e by lia.
  rewrite Hcanon, Z.sub_diag. cbn [shr shr_record_of_loc shr_m].
  destruct m as [|p|p]; try lia. cbn [Z.to_pos].
  replace (e <=? emax - prec) with true; [reflexivity|].
  symmetry. apply Z.leb_le. unfold emax, prec. lia.
Qed.

(** Two mantissas that denote the same number reach the same power of
    two. *)
Lemma magnitude_unique a ea b eb :
  0 < a -> 0 < b ->
  (inject_Z a * pow2 ea == inject_Z b * pow2 eb)%Q ->
  Zdigits2 a + ea = Zdigits2 b + eb.
Proof.
  assert (Hhalf : forall a ea b eb, 0 < a -> 0 < b ->
            (inject_Z a * pow2 ea == inject_Z b * pow2 eb)%Q ->
            Zdigits2 a + ea <= Zdigits2 b + eb).
  { clear. intros a ea b eb Ha Hb Heq.
    destruct (Zdigits2_bounds a Ha) as (Hda & Hlo & _).
    destruct (Zdigits2_bounds b Hb) as (Hdb & _ & Hhi).
    destruct (Z.le_gt_cases (Zdigits2 a + ea) (Zdigits2 b + eb)) as [|Hgt];
      [assumption|exfalso].
    assert (H1 : (inject_Z b * pow2 eb < pow2 (Zdigits2 b + eb))%Q).
    { rewrite pow2_add. apply Qmult_lt_compat_r; [apply pow2_pos|].
      rewrite <- pow2_Z by lia. rewrite <- Zlt_Qlt. exact Hhi. }
    assert (H2 : (pow2 (Zdigits2 a - 1 + ea) <= inject_Z a * pow2 ea)%Q).
    { rewrite pow2_add. apply Qmult_le_compat_r; [|apply Qlt_le_weak, pow2_pos].
      rewrite <- pow2_Z by lia. rewrite <- Zle_Qle. exact Hlo. }
    assert (H3 : (pow2 (Zdigits2 b + eb) <= pow2 (Zdigits2 a - 1 + ea))%Q)
      by (apply pow2_le; lia).
    rewrite Heq in H2. lra. }
  intros Ha Hb Heq. apply Z.le_antisymm; [by apply Hhalf|].
  apply Hhalf; [assumption..|]. by symmetry.
Qed.

(** The same number at a smaller exponent has the longer mantissa. *)
Lemma scaled_mantissa a ea b eb :
  ea <= eb ->
  (inject_Z a * pow2 ea == inject_Z b * pow2 eb)%Q ->
  a = b * 2 ^ (eb - ea).
Proof.
  intros He Heq.
  pose proof (scale_exponent b ea (eb - ea) ltac:(lia)) as Hs.
  replace (ea + (eb - ea)) with eb in Hs by lia.
  rewrite <- Hs in Heq.
  pose proof (pow2_pos ea) as Hp.
  apply Qmult_inj_r in Heq; [|lra].
  by apply inject_Z_injective.
Qed.

Lemma representable_opp q : representable q -> representable (- q).
Proof.
  intros (k & j & Hk & Hj & Hq). exists (- k), j.
  split; [lia|]. split; [exact Hj|]. rewrite inject_Z_opp, Hq. ring.
Qed.

Lemma representable_sgn s q : representable q -> representable (sgn s * q).
Proof.
  intros H. destruct s; cbn [sgn].
  - apply representable_opp in H. destruct H as (k & j & Hk & Hj & Hq).
    exists k, j. split; [exact Hk|]. split; [exact Hj|]. rewrite <- Hq. ring.
  - destruct H as (k & j & Hk & Hj & Hq).
    exists k, j. split; [exact Hk|]. split; [exact Hj|]. rewrite <- Hq. ring.
Qed.

Lemma representable_eq q q' : (q == q')%Q -> representable q -> representable q'.
Proof.
  intros Heq (k & j & Hk & Hj & Hq). exists k, j.
  split; [exact Hk|]. split; [exact Hj|]. by rewrite <- Heq.
Qed.

(** A representable number, written with a mantissa at an exponent not
    above the one the format asks for: the low bits of the mantissa are
    zero. *)
Lemma representable_aligned M E :
  0 < M -> E <= fexp prec emax (Zdigits2 M + E) ->
  representable (inject_Z M * pow2 E) ->
  exists m, 0 < m
    /\ M = m * 2 ^ (fexp prec emax (Zdigits2 M + E) - E)
    /\ fexp prec emax (Zdigits2 M + E) <= 971.
Proof.
  intros HM Halign (k & j & Hk & Hj & Hq).
  set (e1 := fexp prec emax (Zdigits2 M + E)) in *.
  assert (Hv : (0 < inject_Z M * pow2 E)%Q).
  { apply Qmult_lt_0_compat; [|apply pow2_pos].
    change 0%Q with (inject_Z 0). rewrite <- Zlt_Qlt. exact HM. }
  assert (Hk0 : 0 < k).
  { destruct (Z.lt_trichotomy k 0) as [Hneg|[->|Hpos]]; [exfalso|exfalso|exact Hpos].
    - assert (inject_Z k < 0)%Q
        by (change 0%Q with (inject_Z 0); rewrite <- Zlt_Qlt; exact Hneg).
      pose proof (pow2_pos j). rewrite Hq in Hv. nra.
    - rewrite Hq in Hv. change (inject_Z 0) with 0%Q in Hv. lra. }
  pose proof (magnitude_unique M E k j HM Hk0 Hq) as Hmag.
  assert (Hdk : Zdigits2 k <= 53) by (apply Zdigits2_le; lia).
  assert (He1 : e1 = Z.max (Zdigits2 M + E - 53) (-1074)) by apply fexp_spec.
  assert (Hje : e1 <= j) by lia.
  exists (k * 2 ^ (j - e1)).
  assert (Hp : 0 < 2 ^ (j - e1)) by (apply Z.pow_pos_nonneg; lia).
  split; [nia|]. split; [|lia].
  apply scaled_mantissa; [exact Halign|].
  rewrite Hq, scale_exponent by lia.
  replace (e1 + (j - e1)) with j by lia. reflexivity.
Qed.

(** Rounding a representable number returns it. *)
Lemma round_exact sx mx ex :
  0 < mx -> ex <= fexp prec emax (Zdigits2 mx + ex) ->
  representable (inject_Z mx * pow2 ex) ->
  good (binary_round_aux prec emax sx mx ex loc_Exact)
  /\ (B2Q (binary_round_aux prec emax sx mx ex loc_Exact)
      == sgn sx * (inject_Z mx * pow2 ex))%Q.
Proof.
  intros Hmx Halign Hrep.
  destruct (representable_aligned mx ex Hmx Halign Hrep) as (m & Hm & Heq & He1).
  set (e1 := fexp prec emax (Zdigits2 mx + ex)) in *.
  set (n := e1 - ex) in *. assert (Hn : 0 <= n) by (unfold n; lia).
  assert (Hcanon : fexp prec emax (Zdigits2 m + e1) = e1).
  { unfold e1 at 2. f_equal. rewrite Heq, Zdigits2_mul_pow2 by lia. unfold n. lia. }
  replace ex with (e1 - n) by (unfold n; lia). rewrite Heq.
  rewrite round_aux_exact by assumption.
  split.
  - split; [|reflexivity]. cbn [valid_binary]. unfold bounded, canonical_mantissa.
    apply andb_true_intro. split.
    + apply Z.eqb_eq.
      change (Z.pos (digits2_pos (Z.to_pos m))) with (Zdigits2 (Z.pos (Z.to_pos m))).
      rewrite Z2Pos.id by exact Hm. exact Hcanon.
    + apply Z.leb_le. unfold emax, prec. lia.
  - rewrite B2Q_finite, Z2Pos.id by exact Hm.
    rewrite scale_exponent by exact Hn.
    replace (e1 - n + n) with e1 by lia. reflexivity.
Qed.

(** The product of two doubles is exact when it is representable. *)
Lemma SFmul_exact x y :
  good x -> good y -> representable (B2Q x * B2Q y) ->
  good (SFmul prec emax x y)
  /\ (B2Q (SFmul prec emax x y) == B2Q x * B2Q y)%Q.
Proof.
  intros [Hvx Hfx] [Hvy Hfy] Hrep.
  destruct x as [sx|sx| |sx mx ex], y as [sy|sy| |sy my ey]; try discriminate.
  1-3: split; [by split|]; cbn [SFmul B2Q]; ring.
  cbn [valid_binary] in Hvx, Hvy.
  destruct (bounded_canonical _ _ Hvx) as [Hcx _].
  destruct (bounded_canonical _ _ Hvy) as [Hcy _].
  set (z := (inject_Z (Z.pos (mx * my)) * pow2 (ex + ey))%Q).
  assert (Hz : (B2Q (S754_finite sx mx ex) * B2Q (S754_finite sy my ey)
                == sgn (xorb sx sy) * z)%Q).
  { rewrite !B2Q_finite, sgn_xorb. unfold z.
    rewrite Pos2Z.inj_mul, inject_Z_mult, pow2_add. ring. }
  rewrite Hz. cbn [SFmul]. apply round_exact; [lia | |].
  - destruct (Zdigits2_bounds (Z.pos mx)) as (Hdx & Hlx & _); [lia|].
    destruct (Zdigits2_bounds (Z.pos my)) as (Hdy & Hly & _); [lia|].
    assert (Hd : Zdigits2 (Z.pos mx) - 1 + (Zdigits2 (Z.pos my) - 1)
                 < Zdigits2 (Z.pos (mx * my))).
    { apply Zdigits2_gt; [|lia]. rewrite Z.pow_add_r, Pos2Z.inj_mul by lia.
      apply Z.mul_le_mono_nonneg; try lia; apply Z.pow_nonneg; lia. }
    rewrite fexp_spec in *. lia.
  - apply (representable_eq _ _ Hz) in Hrep.
    apply (representable_sgn (xorb sx sy)) in Hrep.
    eapply representable_eq; [|exact Hrep].
    unfold z. destruct (xorb sx sy); cbn [sgn]; ring.
Qed.

Lemma binary_round_exact sx mx ex :
  representable (inject_Z (Z.pos mx) * pow2 ex) ->
  good (binary_round prec emax sx mx ex)
  /\ (B2Q (binary_round prec emax sx mx ex)
      == sgn sx * (inject_Z (Z.pos mx) * pow2 ex))%Q.
Proof.
  intros Hrep. unfold binary_round.
  set (e1 := fexp prec emax (Z.pos (digits2_pos mx) + ex)).
  destruct (shl_align_spec mx ex e1) as [He Hm].
  destruct (shl_align mx ex e1) as [mz ez]. cbn [fst snd] in He, Hm. subst ez.
  assert (Hsame : (inject_Z (Z.pos mz) * pow2 (Z.min ex e1)
                   == inject_Z (Z.pos mx) * pow2 ex)%Q).
  { rewrite Hm, scale_exponent by lia.
    replace (Z.min ex e1 + (ex - Z.min ex e1)) with ex by lia. reflexivity. }
  rewrite <- Hsame.
  apply round_exact; [lia | |].
  - rewrite Hm, Zdigits2_mul_pow2 by lia.
    replace (Zdigits2 (Z.pos mx) + (ex - Z.min ex e1) + Z.min ex e1)
      with (Z.pos (digits2_pos mx) + ex) by (cbn [Zdigits2]; lia).
    fold e1. lia.
  - eapply representable_eq; [|exact Hrep]. by symmetry.
Qed.

Lemma binary_normalize_exact m e :
  representable (inject_Z m * pow2 e) ->
  good (binary_normalize prec emax m e false)
  /\ (B2Q (binary_normalize prec emax m e false) == inject_Z m * pow2 e)%Q.
Proof.
  intros Hrep. destruct m as [|p|p]; cbn [binary_normalize].
  - split; [by split|]. cbn [B2Q]. change (inject_Z 0) with 0%Q. ring.
  - destruct (binary_round_exact false p e Hrep) as [Hgood Hval].
    split; [exact Hgood|]. rewrite Hval. cbn [sgn]. ring.
  - change (Z.neg p) with (- Z.pos p) in *. rewrite inject_Z_opp in *.
    destruct (binary_round_exact true p e) as [Hgood Hval].
    { apply representable_opp in Hrep. eapply representable_eq; [|exact Hrep]. ring. }
    split; [exact Hgood|]. rewrite Hval. cbn [sgn]. ring.
Qed.

(** The sum of two doubles is exact when it is representable. *)
Lemma SFadd_exact x y :
  good x -> good y -> representable (B2Q x + B2Q y) ->
  good (SFadd prec emax x y)
  /\ (B2Q (SFadd prec emax x y) == B2Q x + B2Q y)%Q.
Proof.
  intros [Hvx Hfx] [Hvy Hfy] Hrep.
  destruct x as [sx|sx| |sx mx ex], y as [sy|sy| |sy my ey]; try discriminate.
  - split; [by destruct sx, sy|]. destruct sx, sy; cbn [SFadd B2Q]; ring.
  - split; [by split|]. cbn [SFadd]. change (B2Q (S754_zero sx)) with 0%Q. ring.
  - split; [by split|]. cbn [SFadd]. change (B2Q (S754_zero sy)) with 0%Q. ring.
  - cbn [SFadd]. cbv zeta.
    set (ez := Z.min ex ey).
    pose proof (aligned_value sx mx ex ez ltac:(lia)) as Hx.
    pose proof (aligned_value sy my ey ez ltac:(lia)) as Hy.
    set (S := cond_Zopp sx _ + cond_Zopp sy _).
    assert (HS : (inject_Z S * pow2 ez
                  == B2Q (S754_finite sx mx ex) + B2Q (S754_finite sy my ey))%Q).
    { unfold S. rewrite inject_Z_plus, <- Hx, <- Hy. ring. }
    rewrite <- HS. apply binary_normalize_exact.
    eapply representable_eq; [|exact Hrep]. by symmetry.
Qed.

(** The difference of two doubles is exact when it is representable. *)
Lemma SFsub_exact x y :
  good x -> good y -> representable (B2Q x - B2Q y) ->
  good (SFsub prec emax x y)
  /\ (B2Q (SFsub prec emax x y) == B2Q x - B2Q y)%Q.
Proof.
  intros [Hvx Hfx] [Hvy Hfy] Hrep.
  destruct x as [sx|sx| |sx mx ex], y as [sy|sy| |sy my ey]; try discriminate.
  - split; [by destruct sx, sy|]. destruct sx, sy; cbn [SFsub B2Q]; ring.
  - split; [by split|]. cbn [SFsub]. rewrite !B2Q_finite, sgn_negb.
    change (B2Q (S754_zero sx)) with 0%Q. ring.
  - split; [by split|]. cbn [SFsub]. change (B2Q (S754_zero sy)) with 0%Q. ring.
  - cbn [SFsub]. cbv zeta.
    set (ez := Z.min ex ey).
    pose proof (aligned_value sx mx ex ez ltac:(lia)) as Hx.
    pose proof (aligned_value sy my ey ez ltac:(lia)) as Hy.
    set (S := cond_Zopp sx _ - cond_Zopp sy _).
    assert (HS : (inject_Z S * pow2 ez
                  == B2Q (S754_finite sx mx ex) - B2Q (S754_finite sy my ey))%Q).
    { unfold S. unfold Z.sub. rewrite inject_Z_plus, inject_Z_opp, <- Hx, <- Hy. ring. }
    rewrite <- HS. apply binary_normalize_exact.
    eapply representable_eq; [|exact Hrep]. by symmetry.
Qed.

(** A representable number from [q * 2^e'] on, where [e'] is not above
    the exponent the format asks for, is a multiple of [2^e']. *)
Lemma representable_multiple z q e' :
  representable z -> 0 <= q ->
  (inject_Z q * pow2 e' <= z)%Q -> (0 < z)%Q ->
  e' <= fexp prec emax (Zdigits2 q + e') ->
  exists K, (z == inject_Z K * pow2 e')%Q.
Proof.
  intros (k & j & Hk & Hj & Hz) Hq Hlo Hpos Halign.
  assert (Hk0 : 0 < k).
  { destruct (Z.lt_trichotomy k 0) as [Hneg|[->|Hp]]; [exfalso|exfalso|exact Hp].
    - assert (inject_Z k < 0)%Q
        by (change 0%Q with (inject_Z 0); rewrite <- Zlt_Qlt; exact Hneg).
      pose proof (pow2_pos j). rewrite Hz in Hpos. nra.
    - rewrite Hz in Hpos. change (inject_Z 0) with 0%Q in Hpos. lra. }
  assert (Hje : e' <= j).
  { destruct (Z.eq_dec q 0) as [->|Hq0].
    - cbn [Zdigits2] in Halign. rewrite fexp_spec in Halign. lia.
    - destruct (Zdigits2_bounds q ltac:(lia)) as (Hdq & Hqlo & _).
      destruct (Zdigits2_bounds k Hk0) as (Hdk & _ & Hkhi).
      assert (Hdk' : Zdigits2 k <= 53) by (apply Zdigits2_le; lia).
      assert (Hmag : Zdigits2 q + e' <= Zdigits2 k + j).
      { destruct (Z.le_gt_cases (Zdigits2 q + e') (Zdigits2 k + j)) as [|Hgt];
          [assumption|exfalso].
        assert (H1 : (z < pow2 (Zdigits2 k + j))%Q).
        { rewrite Hz, pow2_add. apply Qmult_lt_compat_r; [apply pow2_pos|].
          rewrite <- pow2_Z by lia. rewrite <- Zlt_Qlt. exact Hkhi. }
        assert (H2 : (pow2 (Zdigits2 q - 1 + e') <= inject_Z q * pow2 e')%Q).
        { rewrite pow2_add. apply Qmult_le_compat_r; [|apply Qlt_le_weak, pow2_pos].
          rewrite <- pow2_Z by lia. rewrite <- Zle_Qle. exact Hqlo. }
        assert (H3 : (pow2 (Zdigits2 k + j) <= pow2 (Zdigits2 q - 1 + e'))%Q)
          by (apply pow2_le; lia).
        lra. }
      rewrite fexp_spec in Halign. lia. }
  exists (k * 2 ^ (j - e')). rewrite Hz, scale_exponent by lia.
  replace (e' + (j - e')) with j by lia. reflexivity.
Qed.

Lemma new_location_zero n : new_location n 0 = loc_Exact.
Proof. unfold new_location. by destruct (Z.even n). Qed.

(** The quotient of two doubles is exact when it is representable. *)
Lemma SFdiv_exact x y :
  good x -> good y -> ~ (B2Q y == 0)%Q ->
  representable (B2Q x / B2Q y) ->
  good (SFdiv prec emax x y)
  /\ (B2Q (SFdiv prec emax x y) == B2Q x / B2Q y)%Q.
Proof.
  intros [Hvx Hfx] [Hvy Hfy] Hy0 Hrep.
  destruct x as [sx|sx| |sx mx ex], y as [sy|sy| |sy my ey]; try discriminate.
  1,3: exfalso; apply Hy0; reflexivity.
  - split; [by split|]. cbn [SFdiv]. change (B2Q (S754_zero sx)) with 0%Q.
    change (B2Q (S754_zero (xorb sx sy))) with 0%Q.
    unfold Qdiv. by rewrite Qmult_0_l.
  - cbn [SFdiv].
    destruct (div_core_spec mx ex my ey)
      as (q & e' & l & -> & Hq & He' & Halign & Hdiv & Hl).
    set (s := ex - ey - e') in *.
    set (z := (inject_Z (Z.pos mx) * pow2 ex / (inject_Z (Z.pos my) * pow2 ey))%Q).
    assert (Hmy : (0 < inject_Z (Z.pos my))%Q)
      by (change 0%Q with (inject_Z 0); rewrite <- Zlt_Qlt; lia).
    assert (Hmx : (0 < inject_Z (Z.pos mx))%Q)
      by (change 0%Q with (inject_Z 0); rewrite <- Zlt_Qlt; lia).
    assert (Hden : (0 < inject_Z (Z.pos my) * pow2 ey)%Q)
      by (apply Qmult_lt_0_compat; [exact Hmy | apply pow2_pos]).
    assert (Hz : (B2Q (S754_finite sx mx ex) / B2Q (S754_finite sy my ey)
                  == sgn (xorb sx sy) * z)%Q).
    { rewrite !B2Q_finite, sgn_xorb. unfold z. pose proof (pow2_pos ey).
      destruct sx, sy; cbn [sgn]; field; repeat split; lra. }
    assert (Hrepz : representable z).
    { apply (representable_eq _ _ Hz) in Hrep.
      apply (representable_sgn (xorb sx sy)) in Hrep.
      eapply representable_eq; [|exact Hrep].
      destruct (xorb sx sy); cbn [sgn]; ring. }
    assert (Hzpos : (0 < z)%Q).
    { unfold z. apply Qlt_shift_div_l; [exact Hden|]. rewrite Qmult_0_l.
      apply Qmult_lt_0_compat; [exact Hmx | apply pow2_pos]. }
    assert (Hnum : (inject_Z (Z.pos mx * 2 ^ s) * pow2 e' * pow2 ey
                    == inject_Z (Z.pos mx) * pow2 ex)%Q).
    { rewrite scale_exponent by (unfold s; lia). rewrite <- Qmult_assoc, <- pow2_add.
      replace (e' + s + ey) with ex by (unfold s; lia). reflexivity. }
    assert (Hzlo : (inject_Z q * pow2 e' <= z)%Q).
    { unfold z. apply Qle_shift_div_l; [exact Hden|]. rewrite <- Hnum.
      assert (E : (inject_Z q * pow2 e' * (inject_Z (Z.pos my) * pow2 ey)
                   == inject_Z (q * Z.pos my) * pow2 e' * pow2 ey)%Q)
        by (rewrite inject_Z_mult; ring).
      rewrite E.
      repeat (apply Qmult_le_compat_r; [|apply Qlt_le_weak, pow2_pos]).
      rewrite <- Zle_Qle. lia. }
    destruct (representable_multiple z q e' Hrepz Hq Hzlo Hzpos Halign) as [K HK].
    (* the division of the mantissas leaves no remainder *)
    assert (HKeq : Z.pos mx * 2 ^ s = K * Z.pos my).
    { apply inject_Z_injective.
      pose proof (pow2_pos e') as Hpe. pose proof (pow2_pos ey) as Hpy.
      apply (Qmult_inj_r _ _ (pow2 e' * pow2 ey)); [nra|].
      rewrite Qmult_assoc, Hnum, inject_Z_mult.
      assert (Hzden : (z * (inject_Z (Z.pos my) * pow2 ey)
                       == inject_Z (Z.pos mx) * pow2 ex)%Q).
      { unfold z. field. split; lra. }
      rewrite <- Hzden, HK. ring. }
    assert (HqK : q = K) by nia.
    subst K. rewrite HKeq, Z.sub_diag, new_location_zero in Hl. subst l.
    assert (Hq0 : 0 < q).
    { destruct (Z.eq_dec q 0) as [->|]; [|lia].
      rewrite HK in Hzpos. change (inject_Z 0) with 0%Q in Hzpos. lra. }
    rewrite Hz, HK. apply round_exact; [exact Hq0 | exact Halign |].
    eapply representable_eq; [exact HK | exact Hrepz].
Qed.

(** A zero or a finite double denotes a representable number. *)
Lemma good_representable x : good x -> representable (B2Q x).
Proof.
  intros [Hv Hf]. destruct x as [s|s| |s m e]; try discriminate.
  - exists 0, 0. split; [reflexivity|]. split; [lia|]. reflexivity.
  - cbn [valid_binary] in Hv. destruct (bounded_canonical _ _ Hv) as [Hc He].
    destruct (Zdigits2_bounds (Z.pos m)) as (Hd & _ & Hhi); [lia|].
    rewrite fexp_spec in Hc.
    exists (Platform.signed s m), e. split; [|split; [lia | reflexivity]].
    assert (Z.pos m < 2 ^ 53).
    { eapply Z.lt_le_trans; [exact Hhi|]. apply Z.pow_le_mono_r; lia. }
    destruct s; cbn [Platform.signed]; lia.
Qed.

(** Two doubles that denote the same number, not zero, are the same. *)
Lemma good_unique x y :
  good x -> good y -> (B2Q x == B2Q y)%Q -> ~ (B2Q x == 0)%Q -> x = y.
Proof.
  intros [Hvx Hfx] [Hvy Hfy] Heq Hne.
  destruct x as [sx|sx| |sx mx ex], y as [sy|sy| |sy my ey]; try discriminate.
  1,2: exfalso; apply Hne; reflexivity.
  - exfalso. apply Hne. rewrite Heq. reflexivity.
  - cbn [valid_binary] in Hvx, Hvy. rewrite !B2Q_finite in Heq.
    pose proof (magnitude_pos mx ex) as Hpx. pose proof (magnitude_pos my ey) as Hpy.
    pose proof (magnitude_compare mx ex my ey Hvx Hvy) as Hc.
    set (a := (inject_Z (Z.pos mx) * pow2 ex)%Q) in *.
    set (b := (inject_Z (Z.pos my) * pow2 ey)%Q) in *.
    assert (Hs : sx = sy).
    { clearbody a b. destruct sx, sy; cbn [sgn] in Heq; try reflexivity; lra. }
    subst sy.
    assert (Hab : (a == b)%Q).
    { clearbody a b. destruct sx; cbn [sgn] in Heq; lra. }
    apply (proj1 (Qeq_alt _ _)) in Hab. rewrite Hab in Hc.
    destruct (Z.compare_spec ex ey) as [->|?|?]; try discriminate.
    symmetry in Hc. apply Pos.compare_eq in Hc. by subst.
Qed.

(** [Math.floor] on a zero or a finite double: the floor of the number
    it denotes. *)
Lemma b64_floor_spec x :
  good x ->
  good (b64_floor x) /\ (B2Q (b64_floor x) == inject_Z (Qfloor (B2Q x)))%Q.
Proof.
  intros [Hv Hf]. destruct x as [s|s| |s m e]; try discriminate.
  - split; [by split | reflexivity].
  - cbn [b64_floor valid_binary] in *.
    destruct (bounded_canonical _ _ Hv) as [Hc He].
    destruct (Zdigits2_bounds (Z.pos m)) as (Hd & _ & Hhi); [lia|].
    assert (Hm53 : Z.pos m < 2 ^ 53).
    { rewrite fexp_spec in Hc.
      eapply Z.lt_le_trans; [exact Hhi|]. apply Z.pow_le_mono_r; lia. }
    change (if s then Z.neg m else Z.pos m) with (Platform.signed s m).
    set (v := Platform.signed s m).
    assert (Hv53 : Z.abs v < 2 ^ 53) by (unfold v; destruct s; cbn; lia).
    destruct (Z.leb_spec 0 e) as [He0|He0].
    + split; [by split|]. cbn [B2Q]. fold v.
      rewrite <- pow2_Z by exact He0. rewrite <- inject_Z_mult.
      by rewrite Qfloor_Z.
    + rewrite Z.shiftr_div_pow2 by lia.
      set (n := - e). assert (Hn : 0 < n) by (unfold n; lia).
      assert (Hp : 0 < 2 ^ n) by (apply Z.pow_pos_nonneg; lia).
      assert (Hfloor : Qfloor (B2Q (S754_finite s m e)) = v / 2 ^ n).
      { pose proof (Z.mul_div_le v (2 ^ n) Hp) as H1.
        pose proof (Z.mul_succ_div_gt v (2 ^ n) Hp) as H2.
        assert (Hval : (B2Q (S754_finite s m e) * pow2 n == inject_Z v)%Q).
        { cbn [B2Q]. fold v. rewrite <- Qmult_assoc, <- pow2_add.
          replace (e + n) with 0 by (unfold n; lia). change (pow2 0) with 1%Q. ring. }
        pose proof (pow2_pos n) as Hpn.
        apply Qfloor_unique.
        - apply (Qmult_le_r _ _ (pow2 n)); [exact Hpn|]. rewrite Hval.
          rewrite <- pow2_Z by lia. rewrite <- inject_Z_mult, <- Zle_Qle. lia.
        - apply (Qmult_lt_r _ _ (pow2 n)); [exact Hpn|]. rewrite Hval.
          rewrite <- pow2_Z by lia. rewrite <- inject_Z_mult, <- Zlt_Qlt. lia. }
      rewrite Hfloor.
      assert (Hq53 : Z.abs (v / 2 ^ n) < 2 ^ 53).
      { assert (- 2 ^ 53 < v / 2 ^ n).
        { apply Z.lt_le_trans with (m := (- 2 ^ 53 + 1)); [lia|].
          apply Z.div_le_lower_bound; [exact Hp|]. nia. }
        assert (v / 2 ^ n < 2 ^ 53).
        { apply Z.div_lt_upper_bound; [exact Hp|]. nia. }
        lia. }
      assert (Hrep : representable (inject_Z (v / 2 ^ n) * pow2 0)).
      { exists (v / 2 ^ n), 0. split; [exact Hq53|]. split; [lia | reflexivity]. }
      destruct (v / 2 ^ n) as [|p|p] eqn:Hquo; cbn [binary_normalize].
      * split; [by split | reflexivity].
      * destruct (binary_round_exact false p 0 Hrep) as [Hg Hval].
        split; [exact Hg|]. rewrite Hval. cbn [sgn]. change (pow2 0) with 1%Q. ring.
      * change (Z.neg p) with (- Z.pos p) in *. rewrite inject_Z_opp in *.
        destruct (binary_round_exact true p 0) as [Hg Hval].
        { apply representable_opp in Hrep. eapply representable_eq; [|exact Hrep]. ring. }
        split; [exact Hg|]. rewrite Hval. cbn [sgn]. change (pow2 0) with 1%Q. ring.
Qed.
End Exactness.

(* ===================================================================== *)
(** * The hexadecimal encoder: floatToHex                                 *)
(* ===================================================================== *)

Section HexEncoderFuel.
Context {F : Type} `{JsNumber F}.
Import Utils.
Local Open Scope js_scope.

(** More fuel does not change a result. *)
Lemma int_loop_more n k : forall s r,
  int_loop n s = Some r -> int_loop (n + k) s = Some r.
Proof.
  induction n as [|n IH]; intros s r; cbn; [discriminate|].
  destruct (lit 0 <? quotient s); [apply IH | done].
Qed.

Lemma frac_loop_more n k : forall s r,
  frac_loop n s = Some r -> frac_loop (n + k) s = Some r.
Proof.
  induction n as [|n IH]; intros s r; cbn; [discriminate|].
  destruct (lit 0 <? fst s); [apply IH | done].
Qed.

Lemma floatToHex_more n k x0 r :
  floatToHex n x0 = Some r -> floatToHex (n + k) x0 = Some r.
Proof.
  unfold floatToHex.
  destruct (int_loop n _) as [s|] eqn:Hint; [|discriminate].
  rewrite (int_loop_more n k _ _ Hint). cbn.
  destruct (_ === _); [done|].
  destruct (frac_loop n _) as [t|] eqn:Hfrac; [|discriminate].
  by rewrite (frac_loop_more n k _ _ Hfrac).
Qed.

(** The first loop stops, after [j] passes, at the first state whose
    [quotient] is not above zero. *)
Lemma int_loop_passes j : forall s,
  (forall i, (i < j)%nat ->
     (lit 0 <? quotient (Nat.iter i int_body s)) = true) ->
  (lit 0 <? quotient (Nat.iter j int_body s)) = false ->
  forall fuel, (j < fuel)%nat -> int_loop fuel s = Some (Nat.iter j int_body s).
Proof.
  induction j as [|j IH]; intros s Hpos Hstop [|fuel] Hfuel; try lia;
    cbn [int_loop].
  - cbn in Hstop. by rewrite Hstop.
  - pose proof (Hpos 0%nat ltac:(lia)) as H0. cbn in H0. rewrite H0.
    rewrite Nat.iter_succ_r in Hstop |- *.
    apply IH; [|done|lia].
    intros i Hi. rewrite <- Nat.iter_succ_r. apply Hpos. lia.
Qed.

End HexEncoderFuel.

Section HexEncoder.
Import Utils Spec Trace.

(** C5.  The three test vectors, in binary64 and in exact arithmetic,
    for every fuel from 3 on: 255.0 gives "FF", 0.5 gives ".8", and 0.0
    gives the empty string. *)
Theorem floatToHex_vectors (k : nat) :
  (floatToHex (3 + k) (lit 255 : b64) = Some "FF"
   /\ floatToHex (3 + k) (lit 1 / lit 2 : b64)%js = Some ".8"
   /\ floatToHex (3 + k) (lit 0 : b64) = Some "")
  /\ (floatToHex (3 + k) (lit 255 : Q) = Some "FF"
      /\ floatToHex (3 + k) (lit 1 / lit 2 : Q)%js = Some ".8"
      /\ floatToHex (3 + k) (lit 0 : Q) = Some "").
Proof.
  repeat split; apply floatToHex_more; vm_compute; reflexivity.
Qed.

(** C6, as stated, fails: on the input 255 the loop makes a second pass
    (the quotient tested after the first pass is 15), and the quotient
    tested after that second pass is 0, while [floor(255/16)] computed
    from the original input is 15.  In binary64 and in exact arithmetic. *)
Lemma floatToHex_quotient_not_from_input :
  (num_ltb (lit 0) (quotient (int_states (lit 255 : b64) 1)) = true
   /\ quotient (int_states (lit 255 : b64) 2) = lit 0
   /\ num_floor (lit 255 / lit 16 : b64)%js = lit 15
   /\ (lit 0 : b64) <> lit 15)
  /\ (num_ltb (lit 0) (quotient (int_states (lit 255 : Q) 1)) = true
      /\ quotient (int_states (lit 255 : Q) 2) = lit 0
      /\ num_floor (lit 255 / lit 16 : Q)%js = lit 15
      /\ ~ ((lit 0 : Q) == lit 15)%Q).
Proof.
  repeat split; try (vm_compute; reflexivity); vm_compute; discriminate.
Qed.

End HexEncoder.

Section HexEncoderDoubles.
Import Value Utils Trace.
Local Open Scope Q_scope.

Lemma lit_16 : good (lit 16 : b64) /\ B2Q (lit 16 : b64) == 16.
Proof. split; [split|]; vm_compute; reflexivity. Qed.

(** A sixteenth of a double from 1 on is a double. *)
Lemma sixteenth_representable (t : b64) :
  good t -> 1 <= B2Q t -> representable (B2Q t / 16).
Proof.
  intros [Hv Hf] Hlo. destruct t as [s|s| |s m e]; try discriminate.
  { change (B2Q (S754_zero s)) with 0 in Hlo. lra. }
  cbn [valid_binary] in Hv. destruct (bounded_canonical _ _ Hv) as [Hc He].
  destruct (Zdigits2_bounds (Z.pos m)) as (Hd & Hdlo & Hdhi); [lia|].
  assert (Hm53 : (Z.pos m < 2 ^ 53)%Z).
  { rewrite fexp_spec in Hc.
    eapply Z.lt_le_trans; [exact Hdhi|]. apply Z.pow_le_mono_r; lia. }
  assert (He52 : (- 52 <= e)%Z).
  { destruct (Z.le_gt_cases (- 52) e) as [|Hsmall]; [assumption|exfalso].
    rewrite B2Q_finite in Hlo. pose proof (magnitude_pos m e) as Hpos.
    assert (Hmq : inject_Z (Z.pos m) < pow2 53).
    { rewrite <- pow2_Z by lia. rewrite <- Zlt_Qlt. exact Hm53. }
    assert (H1 : pow2 53 * pow2 e <= 1).
    { rewrite <- pow2_add. change 1 with (pow2 0). apply pow2_le. lia. }
    pose proof (pow2_pos e). destruct s; cbn [sgn] in Hlo; nra. }
  exists (Platform.signed s m), (e - 4)%Z.
  split; [destruct s; cbn [Platform.signed]; lia|]. split; [lia|].
  cbn [B2Q]. replace e with (e - 4 + 4)%Z at 1 by lia.
  rewrite pow2_add. change (pow2 4) with 16. field.
Qed.

(** A pass from tidy variables with a quotient above zero: tidy
    variables again, with the floor of a sixteenth. *)
Lemma int_body_tidy (s : int_state) :
  tidy s -> SFltb (lit 0 : b64) (quotient s) = true ->
  tidy (int_body s)
  /\ Qfloor (B2Q (x (int_body s))) = Qfloor (inject_Z (Qfloor (B2Q (x s))) / inject_Z 16)
  /\ (1 <= Qfloor (B2Q (x s)))%Z.
Proof.
  intros (Hgx & Hgq & Hq) Hpos.
  destruct lit_values as ([Hg0 Hv0] & _).
  destruct lit_16 as [Hg16 Hv16].
  apply (SFltb_spec _ _ Hg0 Hgq) in Hpos. rewrite Hv0, Hq in Hpos.
  assert (Hfl : (1 <= Qfloor (B2Q (x s)))%Z).
  { change 0 with (inject_Z 0) in Hpos. rewrite <- Zlt_Qlt in Hpos. lia. }
  assert (Hx1 : 1 <= B2Q (x s)).
  { eapply Qle_trans; [|apply Qfloor_le]. change 1 with (inject_Z 1).
    rewrite <- Zle_Qle. exact Hfl. }
  destruct (SFdiv_exact (x s) (lit 16 : b64) Hgx Hg16) as [Hgd Hvd].
  { rewrite Hv16. discriminate. }
  { eapply representable_eq; [|exact (sixteenth_representable _ Hgx Hx1)].
    rewrite Hv16. reflexivity. }
  rewrite Hv16 in Hvd.
  destruct (b64_floor_spec _ Hgd) as [Hgf Hvf].
  assert (Hfloor : Qfloor (B2Q (x (int_body s)))
                   = Qfloor (inject_Z (Qfloor (B2Q (x s))) / inject_Z 16)).
  { cbn [int_body x]. change (num_floor (num_div (x s) (lit 16)))
      with (b64_floor (SFdiv prec emax (x s) (lit 16 : b64))).
    rewrite (Qfloor_comp _ _ Hvf), Qfloor_Z, (Qfloor_comp _ _ Hvd).
    symmetry. apply Qfloor_div16. }
  split; [|split; [exact Hfloor | exact Hfl]].
  unfold tidy. cbn [int_body x quotient].
  change (num_floor (num_div (x s) (lit 16)))
    with (b64_floor (SFdiv prec emax (x s) (lit 16 : b64))).
  split; [exact Hgf|]. split; [exact Hgf|].
  rewrite (Qfloor_comp _ _ Hvf), Qfloor_Z. exact Hvf.
Qed.

Lemma int_states_start (x0 : b64) : good x0 -> tidy (int_states x0 0).
Proof.
  intros Hg. destruct (b64_floor_spec x0 Hg) as [Hgf Hvf].
  unfold tidy, int_states. cbn [Nat.iter nat_rect x quotient]. auto.
Qed.

(** While the loop goes on, its variables are tidy and [x] has the
    floor the input has after as many divisions by 16. *)
Lemma int_states_doubles (x0 : b64) (k : nat) :
  good x0 ->
  (forall i, (i < k)%nat -> SFltb (lit 0 : b64) (quotient (int_states x0 i)) = true) ->
  tidy (int_states x0 k)
  /\ Qfloor (B2Q (x (int_states x0 k))) = Qfloor (B2Q x0 / inject_Z (16 ^ Z.of_nat k)).
Proof.
  intros Hg. induction k as [|k IH]; intros Hactive.
  - split; [by apply int_states_start|].
    unfold int_states. cbn [Nat.iter nat_rect x]. apply Qfloor_comp.
    change (inject_Z (16 ^ Z.of_nat 0)) with 1. field.
  - destruct IH as [Htidy Hfloor]; [intros i Hi; apply Hactive; lia|].
    unfold int_states in *. rewrite Nat.iter_succ.
    set (s := Nat.iter k int_body _) in *.
    destruct (int_body_tidy s Htidy (Hactive k ltac:(lia))) as (Htidy' & Hfloor' & _).
    split; [exact Htidy'|].
    rewrite Hfloor', Hfloor, Qfloor_div16. apply Qfloor_comp.
    rewrite Nat2Z.inj_succ, Z.pow_succ_r by lia.
    rewrite inject_Z_mult. field.
    change 0 with (inject_Z 0). rewrite inject_Z_injective.
    apply Z.pow_nonzero; lia.
Qed.

(** From tidy variables the loop reaches a quotient that is not above
    zero. *)
Lemma int_loop_reaches_zero_doubles (m : nat) : forall s : int_state,
  tidy s -> (Z.to_nat (Qfloor (B2Q (x s))) <= m)%nat ->
  exists j,
    (forall i, (i < j)%nat ->
       SFltb (lit 0 : b64) (quotient (Nat.iter i int_body s)) = true)
    /\ SFltb (lit 0 : b64) (quotient (Nat.iter j int_body s)) = false.
Proof.
  induction m as [|m IH]; intros s Htidy Hm.
  - exists 0%nat. split; [intros i Hi; lia|]. cbn [Nat.iter nat_rect].
    destruct (SFltb (lit 0 : b64) (quotient s)) eqn:Hpos; [|reflexivity].
    destruct (int_body_tidy s Htidy Hpos) as (_ & _ & Hfl). lia.
  - destruct (SFltb (lit 0 : b64) (quotient s)) eqn:Hpos.
    2:{ exists 0%nat. split; [intros i Hi; lia | exact Hpos]. }
    destruct (int_body_tidy s Htidy Hpos) as (Htidy' & Hfloor' & Hfl).
    assert (Hdec : (Qfloor (B2Q (x (int_body s))) < Qfloor (B2Q (x s)))%Z).
    { rewrite Hfloor'. set (n := Qfloor (B2Q (x s))) in *.
      assert (Hle : inject_Z (Qfloor (inject_Z n / inject_Z 16))
                    <= inject_Z n / inject_Z 16) by apply Qfloor_le.
      rewrite Zlt_Qlt. eapply Qle_lt_trans; [exact Hle|].
      assert (0 < inject_Z n) by (change 0 with (inject_Z 0); rewrite <- Zlt_Qlt; lia).
      change (inject_Z 16) with (16 # 1). unfold Qdiv.
      change (/ (16 # 1)) with (1 # 16). lra. }
    destruct (IH (int_body s) Htidy' ltac:(lia)) as (j & Hbefore & Hstop).
    exists (S j). split.
    + intros [|i] Hi; [exact Hpos|].
      rewrite Nat.iter_succ_r. apply Hbefore. lia.
    + by rewrite Nat.iter_succ_r.
Qed.

(** On [+Infinity] the first loop never ends. *)
Lemma int_loop_infinity fuel : forall result,
  Utils.int_loop fuel
    {| Utils.x := S754_infinity false; Utils.quotient := S754_infinity false;
       Utils.result := result |} = None.
Proof.
  induction fuel as [|fuel IH]; intros result; [reflexivity|].
  cbn [Utils.int_loop Utils.quotient].
  replace (num_ltb (lit 0) (S754_infinity false)) with true by reflexivity.
  unfold Utils.int_body. cbn [Utils.x Utils.result].
  replace (num_floor (num_div (S754_infinity false) (lit 16)))
    with (S754_infinity false) by (vm_compute; reflexivity).
  apply IH.
Qed.

(** C6, amended.  The quotient of each pass is [floor(x/16)] computed
    from the current [x], which every pass overwrites with that
    quotient.  On every finite double [x0] nothing is rounded: the
    quotient tested after [k] passes is [floor(x0 / 16^k)], the quotient
    of ordinary repeated division, and the loop ends after the first
    number [j] of passes at which this quotient is [<= 0].  On NaN the
    loop ends at once with the quotient NaN, which is neither [> 0] nor
    [<= 0]; on [-Infinity] at once; on [+Infinity] it never ends. *)
Theorem floatToHex_quotient_recurrence (x0 : b64) :
  valid_binary prec emax x0 = true ->
  (forall k,
     quotient (int_states x0 (S k)) = num_floor (x (int_states x0 k) / lit 16)%js
     /\ x (int_states x0 (S k)) = quotient (int_states x0 (S k)))
  /\ (is_finite x0 = true ->
      exists j,
        (forall i, (i < j)%nat -> (lit 0 <? quotient (int_states x0 i))%js = true)
        /\ (quotient (int_states x0 j) <=? lit 0)%js = true
        /\ (forall fuel, (j < fuel)%nat ->
              int_loop fuel (int_states x0 0) = Some (int_states x0 j))
        /\ forall k, (k <= j)%nat ->
             is_finite (quotient (int_states x0 k)) = true
             /\ B2Q (quotient (int_states x0 k))
                == inject_Z (Qfloor (B2Q x0 / inject_Z (16 ^ Z.of_nat k))))
  /\ (x0 = S754_nan ->
      (lit 0 <? quotient (int_states x0 0))%js = false
      /\ (quotient (int_states x0 0) <=? lit 0)%js = false
      /\ forall fuel, int_loop (S fuel) (int_states x0 0) = Some (int_states x0 0))
  /\ (x0 = S754_infinity true ->
      (quotient (int_states x0 0) <=? lit 0)%js = true
      /\ forall fuel, int_loop (S fuel) (int_states x0 0) = Some (int_states x0 0))
  /\ (x0 = S754_infinity false ->
      forall fuel, int_loop fuel (int_states x0 0) = None).
Proof.
  intros Hv. split; [intros k; split; reflexivity|]. split; [|split; [|split]].
  - intros Hf. assert (Hg : good x0) by (by split).
    destruct lit_values as ([Hg0 Hv0] & _).
    destruct (int_loop_reaches_zero_doubles
                (Z.to_nat (Qfloor (B2Q (x (int_states x0 0))))) (int_states x0 0))
      as (j & Hbefore & Hstop); [by apply int_states_start | lia |].
    assert (Hbefore' : forall i, (i < j)%nat ->
              SFltb (lit 0 : b64) (quotient (int_states x0 i)) = true).
    { intros i Hi. exact (Hbefore i Hi). }
    assert (Hall : forall k, (k <= j)%nat ->
              tidy (int_states x0 k)
              /\ Qfloor (B2Q (x (int_states x0 k)))
                 = Qfloor (B2Q x0 / inject_Z (16 ^ Z.of_nat k))).
    { intros k Hk. apply int_states_doubles; [exact Hg|].
      intros i Hi. apply Hbefore'. lia. }
    exists j. split; [exact Hbefore'|]. split; [|split].
    + destruct (Hall j ltac:(lia)) as [(_ & Hgq & _) _].
      apply (SFleb_spec _ _ Hgq Hg0).
      apply (SFltb_false _ _ Hg0 Hgq). exact Hstop.
    + intros fuel Hfuel. apply int_loop_passes; assumption.
    + intros k Hk. destruct (Hall k Hk) as [(_ & Hgq & Hq) Hfloor].
      split; [exact (proj2 Hgq)|]. by rewrite Hq, Hfloor.
  - intros ->. split; [reflexivity|]. split; [reflexivity|]. intros fuel. reflexivity.
  - intros ->. split; [reflexivity|]. intros fuel. reflexivity.
  - intros -> fuel. apply int_loop_infinity.
Qed.

(** The theorem at the input 255. *)
Lemma floatToHex_quotient_recurrence_witness :
  (forall k,
     quotient (int_states (lit 255 : b64) (S k))
     = num_floor (x (int_states (lit 255 : b64) k) / lit 16)%js
     /\ x (int_states (lit 255 : b64) (S k)) = quotient (int_states (lit 255 : b64) (S k)))
  /\ (is_finite (lit 255 : b64) = true ->
      exists j,
        (forall i, (i < j)%nat ->
           (lit 0 <? quotient (int_states (lit 255 : b64) i))%js = true)
        /\ (quotient (int_states (lit 255 : b64) j) <=? lit 0)%js = true
        /\ (forall fuel, (j < fuel)%nat ->
              int_loop fuel (int_states (lit 255 : b64) 0)
              = Some (int_states (lit 255 : b64) j))
        /\ forall k, (k <= j)%nat ->
             is_finite (quotient (int_states (lit 255 : b64) k)) = true
             /\ B2Q (quotient (int_states (lit 255 : b64) k))
                == inject_Z (Qfloor (B2Q (lit 255 : b64) / inject_Z (16 ^ Z.of_nat k))))
  /\ ((lit 255 : b64) = S754_nan ->
      (lit 0 <? quotient (int_states (lit 255 : b64) 0))%js = false
      /\ (quotient (int_states (lit 255 : b64) 0) <=? lit 0)%js = false
      /\ forall fuel,
           int_loop (S fuel) (int_states (lit 255 : b64) 0)
           = Some (int_states (lit 255 : b64) 0))
  /\ ((lit 255 : b64) = S754_infinity true ->
      (quotient (int_states (lit 255 : b64) 0) <=? lit 0)%js = true
      /\ forall fuel,
           int_loop (S fuel) (int_states (lit 255 : b64) 0)
           = Some (int_states (lit 255 : b64) 0))
  /\ ((lit 255 : b64) = S754_infinity false ->
      forall fuel, int_loop fuel (int_states (lit 255 : b64) 0) = None).
Proof. apply (floatToHex_quotient_recurrence (lit 255)). reflexivity. Defined.

End HexEncoderDoubles.

(* ===================================================================== *)
(** * The cubic-bezier solver: Cubic.getValue                             *)
(* ===================================================================== *)

Section BisectionFuel.
Context {F : Type} `{JsNumber F}.
Import Cubic Spec Trace.
Local Open Scope js_scope.

(** More fuel does not change a result. *)
Lemma loop_more n k this time : forall start mid end_ v,
  loop n this time start mid end_ = Some v ->
  loop (n + k) this time start mid end_ = Some v.
Proof.
  induction n as [|n IH]; intros start mid end_ v; cbn; [discriminate|].
  destruct (start <? end_); [|done].
  destruct (loop_body this time start end_); [done | apply IH].
Qed.

Lemma getValue_more n k this time v :
  getValue n this time = Some v -> getValue (n + k) this time = Some v.
Proof.
  unfold getValue. destruct (time <=? lit 0); [done|].
  destruct (lit 1 <=? time); [done | apply loop_more].
Qed.




End BisectionFuel.

Section BisectionBinary64.
Import Cubic Spec Trace Samples.
Local Open Scope js_scope.


End BisectionBinary64.

Section Curve.
Import Cubic Spec Trace.
Local Open Scope Q_scope.

(** Between two points of [0,1] the curve rises by at most
    [3|a| + 3|b| + 3] times their distance. *)
Lemma bezier_lipschitz a b u v :
  0 <= v -> v <= u -> u <= 1 ->
  bezier a b u - bezier a b v <= (3 * Qabs a + 3 * Qabs b + 3) * (u - v).
Proof.
  intros Hv Hvu Hu.
  pose proof (Qle_Qabs a) as Ha1. pose proof (Qle_Qabs (- a)) as Ha2.
  pose proof (Qle_Qabs b) as Hb1. pose proof (Qle_Qabs (- b)) as Hb2.
  rewrite Qabs_opp in Ha2, Hb2.
  set (La := Qabs a) in *. set (Lb := Qabs b) in *. clearbody La Lb.
  set (A := 1 - 2 * (u + v) + (u * u + u * v + v * v)).
  set (B := (u + v) - (u * u + u * v + v * v)).
  set (C := u * u + u * v + v * v).
  assert (Hfactor : bezier a b u - bezier a b v
                    == (u - v) * (3 * (a * A) + 3 * (b * B) + C))
    by (unfold bezier, A, B, C; ring).
  assert (HA : -1 <= A /\ A <= 1) by (unfold A; split; nra).
  assert (HB : -1 <= B /\ B <= 1) by (unfold B; split; nra).
  assert (HC : C <= 3) by (unfold C; nra).
  clearbody A B C.
  assert (HaA : a * A <= La) by nra.
  assert (HbB : b * B <= Lb) by nra.
  rewrite Hfactor, (Qmult_comm (u - v)).
  apply Qmult_le_compat_r; lra.
Qed.

(** C4, as stated, fails.  For the time 0.25 the bisection stops at the
    parameter [mid = 0.32635498046875], where the x-estimate
    0.2500041658... is within 1e-5 of 0.25, and that value, not 0.25, is
    returned, in binary64 and in exact arithmetic.  And for the double
    [2^53 + 2] the end branch computes [1 + (t - 1)], where both the
    difference and the sum round to [2^53]. *)
Lemma getValue_identity_not_exact :
  (getValue 14 (identity_controls : Cubic.t b64) (lit 1 / lit 4)%js
     = Some (S754_finite false 4503674672422912 (-54))
   /\ num_eqb (S754_finite false 4503674672422912 (-54))
              (lit 1 / lit 4 : b64)%js = false)
  /\ (getValue 14 (identity_controls : Cubic.t Q) (1 # 4)
        = Some (549764974661 # 2199023255552)
      /\ ~ (549764974661 # 2199023255552 == 1 # 4))
  /\ (getValue 0 (identity_controls : Cubic.t b64) (lit 9007199254740994)
        = Some (lit 9007199254740992)
      /\ num_eqb (lit 9007199254740992 : b64) (lit 9007199254740994) = false).
Proof.
  repeat split; try (vm_compute; reflexivity). vm_compute. discriminate.
Qed.

End Curve.

Section CurveError.
Import Value Cubic Spec.
Local Open Scope Q_scope.

Lemma unit_double_spec c :
  unit_double c = true -> good c /\ - 1 <= B2Q c <= 1.
Proof.
  unfold unit_double. intros H. apply andb_prop in H as [Hv Hle].
  assert (Hg : good c).
  { split; [exact Hv|]. destruct c as [s|s| |s m e]; try reflexivity; discriminate. }
  split; [exact Hg|].
  destruct (SFabs_spec c Hg) as [Hga Hva].
  destruct lit_values as (_ & [Hg1 Hv1] & _).
  apply (SFleb_spec _ _ Hga Hg1) in Hle. rewrite Hva, Hv1 in Hle.
  apply Qabs_Qle_condition in Hle. exact Hle.
Qed.

(** [calculate] on doubles: within [24 * 2^-48] of the curve. *)
Lemma calculate_approx (a b m : b64) :
  good a -> good b -> good m ->
  - 1 <= B2Q a <= 1 -> - 1 <= B2Q b <= 1 -> 0 <= B2Q m <= 1 ->
  approx (calculate a b m) (bezier (B2Q a) (B2Q b) (B2Q m)) (24 * eps).
Proof.
  intros Ha Hb Hm Hva Hvb Hvm.
  destruct lit_values as (_ & [Hg1 Hv1] & _ & [Hg3 Hv3]).
  assert (A3 : approx (lit 3 : b64) 3 0) by (split; [exact Hg3 | lra]).
  assert (A1 : approx (lit 1 : b64) 1 0) by (split; [exact Hg1 | lra]).
  pose proof (approx_exact a Ha) as Aa. pose proof (approx_exact b Hb) as Ab.
  pose proof (approx_exact m Hm) as Am.
  set (va := B2Q a) in *. set (vb := B2Q b) in *. set (vm := B2Q m) in *.
  clearbody va vb vm. clear Hv1 Hv3.
  unfold calculate, bezier. cbn [num_add num_mul num_sub binary64].
  assert (Om : approx (SFsub prec emax (lit 1) m) (1 - vm) eps).
  { apply (approx_sub _ _ _ _ 0 0 1); [exact A1 | exact Am | lra | lra |].
    unfold eps. lra. }
  assert (P1 : approx (SFmul prec emax (lit 3) a) (3 * va) eps).
  { apply (approx_mul _ _ _ _ 0 0 3 1); [exact A3 | exact Aa | lra | lra | lra |].
    unfold eps. lra. }
  assert (B1 : - 3 <= 3 * va * (1 - vm) <= 3) by (split; nra).
  assert (P2 : approx (SFmul prec emax (SFmul prec emax (lit 3) a)
                         (SFsub prec emax (lit 1) m))
                 (3 * va * (1 - vm)) (6 * eps)).
  { apply (approx_mul _ _ _ _ eps eps 3 1); [exact P1 | exact Om | lra | lra | |];
      unfold eps; lra. }
  assert (B2 : - 3 <= 3 * va * (1 - vm) * (1 - vm) <= 3) by (split; nra).
  assert (P3 : approx (SFmul prec emax
                         (SFmul prec emax (SFmul prec emax (lit 3) a)
                            (SFsub prec emax (lit 1) m))
                         (SFsub prec emax (lit 1) m))
                 (3 * va * (1 - vm) * (1 - vm)) (11 * eps)).
  { apply (approx_mul _ _ _ _ (6 * eps) eps 3 1); [exact P2 | exact Om | lra | lra | |];
      unfold eps; lra. }
  assert (B3 : - 3 <= 3 * va * (1 - vm) * (1 - vm) * vm <= 3) by (split; nra).
  assert (P4 : approx (SFmul prec emax
                         (SFmul prec emax
                            (SFmul prec emax (SFmul prec emax (lit 3) a)
                               (SFsub prec emax (lit 1) m))
                            (SFsub prec emax (lit 1) m)) m)
                 (3 * va * (1 - vm) * (1 - vm) * vm) (12 * eps)).
  { apply (approx_mul _ _ _ _ (11 * eps) 0 3 1); [exact P3 | exact Am | lra | lra | |];
      unfold eps; lra. }
  assert (Q1 : approx (SFmul prec emax (lit 3) b) (3 * vb) eps).
  { apply (approx_mul _ _ _ _ 0 0 3 1); [exact A3 | exact Ab | lra | lra | lra |].
    unfold eps. lra. }
  assert (C1 : - 3 <= 3 * vb * (1 - vm) <= 3) by (split; nra).
  assert (Q2 : approx (SFmul prec emax (SFmul prec emax (lit 3) b)
                         (SFsub prec emax (lit 1) m))
                 (3 * vb * (1 - vm)) (6 * eps)).
  { apply (approx_mul _ _ _ _ eps eps 3 1); [exact Q1 | exact Om | lra | lra | |];
      unfold eps; lra. }
  assert (C2 : - 3 <= 3 * vb * (1 - vm) * vm <= 3) by (split; nra).
  assert (Q3 : approx (SFmul prec emax
                         (SFmul prec emax (SFmul prec emax (lit 3) b)
                            (SFsub prec emax (lit 1) m)) m)
                 (3 * vb * (1 - vm) * vm) (7 * eps)).
  { apply (approx_mul _ _ _ _ (6 * eps) 0 3 1); [exact Q2 | exact Am | lra | lra | |];
      unfold eps; lra. }
  assert (C3 : - 3 <= 3 * vb * (1 - vm) * vm * vm <= 3) by (split; nra).
  assert (Q4 : approx (SFmul prec emax
                         (SFmul prec emax
                            (SFmul prec emax (SFmul prec emax (lit 3) b)
                               (SFsub prec emax (lit 1) m)) m) m)
                 (3 * vb * (1 - vm) * vm * vm) (8 * eps)).
  { apply (approx_mul _ _ _ _ (7 * eps) 0 3 1); [exact Q3 | exact Am | lra | lra | |];
      unfold eps; lra. }
  assert (D1 : 0 <= vm * vm <= 1) by (split; nra).
  assert (R1 : approx (SFmul prec emax m m) (vm * vm) eps).
  { apply (approx_mul _ _ _ _ 0 0 1 1); [exact Am | exact Am | lra | lra | lra |].
    unfold eps. lra. }
  assert (D2 : 0 <= vm * vm * vm <= 1) by (split; nra).
  assert (R2 : approx (SFmul prec emax (SFmul prec emax m m) m) (vm * vm * vm) (2 * eps)).
  { apply (approx_mul _ _ _ _ eps 0 1 1); [exact R1 | exact Am | lra | lra | |];
      unfold eps; lra. }
  set (p4 := 3 * va * (1 - vm) * (1 - vm) * vm) in *.
  set (q4 := 3 * vb * (1 - vm) * vm * vm) in *.
  set (r2 := vm * vm * vm) in *. clearbody p4 q4 r2.
  assert (S1 : approx (SFadd prec emax
                         (SFmul prec emax
                            (SFmul prec emax
                               (SFmul prec emax (SFmul prec emax (lit 3) a)
                                  (SFsub prec emax (lit 1) m))
                               (SFsub prec emax (lit 1) m)) m)
                         (SFmul prec emax
                            (SFmul prec emax
                               (SFmul prec emax (SFmul prec emax (lit 3) b)
                                  (SFsub prec emax (lit 1) m)) m) m))
                 (p4 + q4) (21 * eps)).
  { apply (approx_add _ _ _ _ (12 * eps) (8 * eps) 6); [exact P4 | exact Q4 | lra | |];
      unfold eps; lra. }
  apply (approx_add _ _ _ _ (21 * eps) (2 * eps) 7); [exact S1 | exact R2 | lra | |];
    unfold eps; lra.
Qed.

End CurveError.

Section BisectionDoubles.
Import Value Cubic Spec Trace.
Local Open Scope Q_scope.

Lemma tolerance_value :
  good (tolerance : b64)
  /\ (99999 # 10000000000) <= B2Q (tolerance : b64)
  /\ B2Q (tolerance : b64) <= 100001 # 10000000000.
Proof.
  split; [split; reflexivity|]. split; vm_compute; discriminate.
Qed.

Lemma setting_spec this time :
  setting this time ->
  (good (c0 this) /\ - 1 <= B2Q (c0 this) <= 1)
  /\ (good (c2 this) /\ - 1 <= B2Q (c2 this) <= 1)
  /\ good time /\ 0 < B2Q time /\ B2Q time < 1.
Proof.
  intros (H0 & H2 & Hv & Hlo & Hhi).
  destruct lit_values as ([Hg0 Hv0] & [Hg1 Hv1] & _).
  assert (Hg : good time).
  { split; [exact Hv|]. destruct time as [s|s| |s m e]; try reflexivity.
    - by destruct s.
    - discriminate. }
  split; [by apply unit_double_spec|]. split; [by apply unit_double_spec|].
  split; [exact Hg|].
  apply (SFltb_spec _ _ Hg0 Hg) in Hlo. apply (SFltb_spec _ _ Hg Hg1) in Hhi.
  rewrite Hv0 in Hlo. rewrite Hv1 in Hhi. auto.
Qed.

Lemma dyadic_range n q : (0 <= n)%Z -> dyadic n q -> 0 <= q <= 1.
Proof.
  intros Hn (a & Ha & Hq). rewrite Hq.
  pose proof (pow2_pos (- n)) as Hp.
  assert (H1 : pow2 n * pow2 (- n) == 1).
  { rewrite <- pow2_add. replace (n + - n)%Z with 0%Z by lia. reflexivity. }
  assert (Ha0 : 0 <= inject_Z a) by (change 0 with (inject_Z 0); rewrite <- Zle_Qle; lia).
  assert (Ha1 : inject_Z a <= pow2 n) by (rewrite <- pow2_Z by lia; rewrite <- Zle_Qle; lia).
  split; nra.
Qed.

Lemma dyadic_succ n q : (0 <= n)%Z -> dyadic n q -> dyadic (n + 1) q.
Proof.
  intros Hn (a & Ha & Hq). exists (a * 2 ^ 1)%Z. split.
  - rewrite Z.pow_add_r by lia. lia.
  - rewrite Hq, scale_exponent by lia.
    replace (- (n + 1) + 1)%Z with (- n)%Z by lia. reflexivity.
Qed.

Lemma dyadic_representable n q :
  (0 <= n <= 51)%Z -> dyadic n q -> representable q.
Proof.
  intros Hn (a & Ha & Hq). exists a, (- n)%Z. split; [|split; [lia | exact Hq]].
  assert (2 ^ n <= 2 ^ 51)%Z by (apply Z.pow_le_mono_r; lia). lia.
Qed.

(** The midpoint of two multiples of [2^-n] is computed exactly. *)
Lemma mid_exact n (s e : b64) :
  (0 <= n <= 50)%Z -> good s -> good e ->
  dyadic n (B2Q s) -> dyadic n (B2Q e) ->
  good (SFdiv prec emax (SFadd prec emax s e) (lit 2 : b64))
  /\ B2Q (SFdiv prec emax (SFadd prec emax s e) (lit 2 : b64)) == (B2Q s + B2Q e) / 2
  /\ dyadic (n + 1) (B2Q (SFdiv prec emax (SFadd prec emax s e) (lit 2 : b64))).
Proof.
  intros Hn Hs He (a & Ha & Hqa) (b & Hb & Hqb).
  destruct lit_values as (_ & _ & [Hg2 Hv2] & _).
  assert (Hp : (2 ^ n <= 2 ^ 50)%Z) by (apply Z.pow_le_mono_r; lia).
  assert (Hsum : B2Q s + B2Q e == inject_Z (a + b) * pow2 (- n)).
  { rewrite Hqa, Hqb, inject_Z_plus. ring. }
  destruct (SFadd_exact s e Hs He) as [Hga Hva].
  { exists (a + b)%Z, (- n)%Z. split; [lia|]. split; [lia | exact Hsum]. }
  assert (Hhalf : B2Q (SFadd prec emax s e) / B2Q (lit 2 : b64)
                  == inject_Z (a + b) * pow2 (- (n + 1))).
  { rewrite Hva, Hv2, Hsum.
    replace (- n)%Z with (- (n + 1) + 1)%Z by lia. rewrite pow2_succ. field. }
  destruct (SFdiv_exact (SFadd prec emax s e) (lit 2) Hga Hg2) as [Hgm Hvm].
  { rewrite Hv2. discriminate. }
  { exists (a + b)%Z, (- (n + 1))%Z. split; [lia|]. split; [lia | exact Hhalf]. }
  split; [exact Hgm|]. split.
  - rewrite Hvm, Hva, Hv2. reflexivity.
  - exists (a + b)%Z. split.
    + rewrite Z.pow_add_r by lia. lia.
    + rewrite Hvm. exact Hhalf.
Qed.

Lemma bezier_ends a b : bezier a b 0 == 0 /\ bezier a b 1 == 1.
Proof. unfold bezier. split; ring. Qed.

(** With controls of magnitude at most 1 the curve rises by at most 9
    times the distance. *)
Lemma bezier_slope a b u v :
  - 1 <= a <= 1 -> - 1 <= b <= 1 ->
  0 <= v -> v <= u -> u <= 1 ->
  bezier a b u - bezier a b v <= 9 * (u - v).
Proof.
  intros Ha Hb Hv Hvu Hu.
  pose proof (bezier_lipschitz a b u v Hv Hvu Hu) as Hl.
  assert (Qabs a <= 1) by (apply Qabs_Qle_condition; lra).
  assert (Qabs b <= 1) by (apply Qabs_Qle_condition; lra).
  set (La := Qabs a) in *. set (Lb := Qabs b) in *. clearbody La Lb.
  assert (0 <= u - v) by lra. nra.
Qed.

Lemma pow2_half i : pow2 (- Z.of_nat (S i)) == pow2 (- Z.of_nat i) / 2.
Proof.
  replace (- Z.of_nat i)%Z with (- Z.of_nat (S i) + 1)%Z by lia.
  rewrite pow2_succ. field.
Qed.

(** One pass over an interval the earlier passes left. *)
Lemma pass_binary64 this time (i : nat) (s e : b64) :
  setting this time -> (i <= 50)%nat -> bracket this time i s e ->
  let mid : b64 := SFdiv prec emax (SFadd prec emax s e) (lit 2 : b64) in
  good mid /\ B2Q mid == (B2Q s + B2Q e) / 2
  /\ match loop_body this time s e with
     | Return v =>
         v = calculate (c1 this) (c3 this) mid
         /\ SFltb (SFabs (SFsub prec emax time (calculate (c0 this) (c2 this) mid)))
              (tolerance : b64) = true
     | Continue s' m' e' =>
         m' = mid /\ bracket this time (S i) s' e'
         /\ ((s' = mid /\ e' = e) \/ (s' = s /\ e' = mid))
         /\ 2 * tau <= 9 * pow2 (- Z.of_nat i)
     end.
Proof.
  intros Hset Hi (Hs & He & Hds & Hde & Hw & Hlo & Hhi). intros mid.
  destruct (setting_spec this time Hset) as ([Hg0 Hv0] & [Hg2 Hv2] & Hgt & Ht0 & Ht1).
  destruct (mid_exact (Z.of_nat i) s e ltac:(lia) Hs He Hds Hde) as (Hgm & Hvm & Hdm).
  fold mid in Hgm, Hvm, Hdm.
  split; [exact Hgm|]. split; [exact Hvm|].
  pose proof (dyadic_range (Z.of_nat i) _ ltac:(lia) Hds) as Hrs.
  pose proof (dyadic_range (Z.of_nat i) _ ltac:(lia) Hde) as Hre.
  pose proof (pow2_pos (- Z.of_nat i)) as Hpw.
  assert (Hrm : 0 <= B2Q mid <= 1).
  { rewrite Hvm. unfold Qdiv. change (/ 2) with (1 # 2). lra. }
  destruct (calculate_approx (c0 this) (c2 this) mid Hg0 Hg2 Hgm Hv0 Hv2 Hrm)
    as [Hgx Hex].
  destruct tolerance_value as (Hgtol & Htol & _).
  unfold loop_body. cbv zeta.
  change (num_div (num_add s e) (lit 2)) with mid.
  set (xEst := calculate (c0 this) (c2 this) mid) in *.
  change (num_ltb (num_abs (num_sub time xEst)) tolerance)
    with (SFltb (SFabs (SFsub prec emax time xEst)) (tolerance : b64)).
  change (num_ltb xEst time) with (SFltb xEst time).
  set (bm := bezier (B2Q (c0 this)) (B2Q (c2 this)) (B2Q mid)) in *.
  assert (Hbz : forall u v, 0 <= v -> v <= u -> u <= 1 ->
            bezier (B2Q (c0 this)) (B2Q (c2 this)) u
            - bezier (B2Q (c0 this)) (B2Q (c2 this)) v <= 9 * (u - v))
    by (intros u v; apply bezier_slope; assumption).
  destruct (SFltb (SFabs (SFsub prec emax time xEst)) (tolerance : b64)) eqn:Htest;
    cbv iota; [split; reflexivity|].
  (* the pass goes on: the x-estimate is off the time by the tolerance *)
  assert (Hbx : - 10 <= B2Q xEst <= 10).
  { assert (- 9 <= bm <= 9); [|unfold eps in *; lra].
    pose proof (Hbz (B2Q mid) 0 ltac:(lra) ltac:(lra) ltac:(lra)) as H1.
    pose proof (Hbz 1 (B2Q mid) ltac:(lra) ltac:(lra) ltac:(lra)) as H2.
    destruct (bezier_ends (B2Q (c0 this)) (B2Q (c2 this))) as [E0 E1].
    fold bm in H1, H2. rewrite E0 in H1. rewrite E1 in H2. lra. }
  destruct (SFsub_spec time xEst 4 Hgt Hgx ltac:(lia)) as [Hgd Hed].
  { rewrite pow2_4. unfold eps in *. lra. }
  rewrite pow2_eps in Hed.
  destruct (SFabs_spec _ Hgd) as [Hga Hva].
  apply (SFltb_false _ _ Hga Hgtol) in Htest. rewrite Hva in Htest.
  assert (Hfar : tau <= Qabs (B2Q time - bm)).
  { unfold tau. set (d := B2Q (SFsub prec emax time xEst)) in *. clearbody d.
    apply Qabs_case; intros Hsign; revert Htest; apply Qabs_case; intros Hd Htest;
      unfold eps in *; lra. }
  assert (Hhalf : B2Q e - B2Q mid == pow2 (- Z.of_nat (S i))
                  /\ B2Q mid - B2Q s == pow2 (- Z.of_nat (S i))).
  { rewrite pow2_half, Hvm. unfold Qdiv. change (/ 2) with (1 # 2). split; lra. }
  destruct Hhalf as [Hwe Hws].
  assert (Hdm' : dyadic (Z.of_nat (S i)) (B2Q mid)).
  { replace (Z.of_nat (S i)) with (Z.of_nat i + 1)%Z by lia. exact Hdm. }
  assert (Hds' : dyadic (Z.of_nat (S i)) (B2Q s)).
  { replace (Z.of_nat (S i)) with (Z.of_nat i + 1)%Z by lia. apply dyadic_succ; [lia | exact Hds]. }
  assert (Hde' : dyadic (Z.of_nat (S i)) (B2Q e)).
  { replace (Z.of_nat (S i)) with (Z.of_nat i + 1)%Z by lia. apply dyadic_succ; [lia | exact Hde]. }
  assert (Hmid_lo : B2Q s <= B2Q mid) by (rewrite Hvm; unfold Qdiv; change (/ 2) with (1 # 2); lra).
  assert (Hmid_hi : B2Q mid <= B2Q e) by (rewrite Hvm; unfold Qdiv; change (/ 2) with (1 # 2); lra).
  pose proof (Hbz (B2Q e) (B2Q mid) ltac:(lra) Hmid_hi ltac:(lra)) as Hright.
  pose proof (Hbz (B2Q mid) (B2Q s) ltac:(lra) Hmid_lo ltac:(lra)) as Hleft.
  fold bm in Hright, Hleft.
  assert (Htau : 24 * eps < tau) by (unfold tau, eps; lra).
  destruct (SFltb xEst time) eqn:Hcmp; cbv iota.
  - apply (SFltb_spec _ _ Hgx Hgt) in Hcmp.
    assert (Hbelow : bm <= B2Q time - tau).
    { revert Hfar. apply Qabs_case; intros Hsign Hfar; lra. }
    split; [reflexivity|]. split.
    + unfold bracket. fold bm. split_and!; try assumption. lra.
    + split; [left; split; reflexivity|].
      rewrite pow2_half in Hwe. unfold Qdiv in Hwe. change (/ 2) with (1 # 2) in Hwe. lra.
  - apply (SFltb_false _ _ Hgx Hgt) in Hcmp.
    assert (Habove : B2Q time + tau <= bm).
    { revert Hfar. apply Qabs_case; intros Hsign Hfar; lra. }
    split; [reflexivity|]. split.
    + unfold bracket. fold bm. split_and!; try assumption. lra.
    + split; [right; split; reflexivity|].
      rewrite pow2_half in Hws. unfold Qdiv in Hws. change (/ 2) with (1 # 2) in Hws. lra.
Qed.


Lemma bracket_lt this time i s e :
  bracket this time i s e -> SFltb s e = true.
Proof.
  intros (Hs & He & _ & _ & Hw & _). apply (SFltb_spec _ _ Hs He).
  pose proof (pow2_pos (- Z.of_nat i)). lra.
Qed.

Lemma bracket_ends this time (z o : b64) :
  setting this time -> good z -> good o -> B2Q z == 0 -> B2Q o == 1 ->
  bracket this time 0 z o.
Proof.
  intros Hset Hgz Hgo Hz Ho.
  destruct (setting_spec this time Hset) as (_ & _ & _ & Ht0 & Ht1).
  assert (B0 : bezier (B2Q (c0 this)) (B2Q (c2 this)) (B2Q z) == 0)
    by (unfold bezier; rewrite Hz; ring).
  assert (B1 : bezier (B2Q (c0 this)) (B2Q (c2 this)) (B2Q o) == 1)
    by (unfold bezier; rewrite Ho; ring).
  unfold bracket. split_and!; try assumption.
  - exists 0%Z. split; [cbn; lia | by rewrite Hz].
  - exists 1%Z. split; [cbn; lia | by rewrite Ho].
  - by rewrite Hz, Ho.
  - by rewrite B0.
  - by rewrite B1.
Qed.

Lemma bracket_start this time :
  setting this time -> bracket this time 0 (lit 0) (lit 1).
Proof.
  intros Hset. destruct lit_values as ([Hg0 Hv0] & [Hg1 Hv1] & _).
  by apply bracket_ends.
Qed.

Lemma pow2_19 : pow2 (- Z.of_nat 19) == 1 # 524288.
Proof. reflexivity. Qed.

(** The twentieth pass returns. *)
Lemma pass_last this time s e :
  setting this time -> bracket this time 19 s e ->
  exists v, loop_body this time s e = Return v.
Proof.
  intros Hset Hb.
  destruct (pass_binary64 this time 19 s e Hset ltac:(lia) Hb) as (_ & _ & Hpass).
  destruct (loop_body this time s e) as [v|s' m' e']; [by exists v|].
  destruct Hpass as (_ & _ & _ & Hw). exfalso.
  rewrite pow2_19 in Hw. unfold tau, eps in Hw. lra.
Qed.

(** From an interval the earlier passes left, the loop returns within
    the passes that remain up to the twentieth. *)
Lemma loop_returns_binary64 this time :
  setting this time ->
  forall (k i : nat) s m e,
    (i + k = 19)%nat -> bracket this time i s e ->
    exists n s' m' e' v,
      (n <= k)%nat
      /\ after_passes n this time (s, m, e) = Some (s', m', e')
      /\ bracket this time (i + n) s' e'
      /\ loop_body this time s' e' = Return v
      /\ forall fuel, loop (S n + fuel) this time s m e = Some v.
Proof.
  intros Hset. induction k as [|k IH]; intros i s m e Hik Hb.
  - assert (i = 19%nat) by lia. subst i.
    destruct (pass_last this time s e Hset Hb) as [v Hv].
    exists 0%nat, s, m, e, v. rewrite Nat.add_0_r.
    split; [lia|]. split; [reflexivity|]. split; [exact Hb|]. split; [exact Hv|].
    intros fuel. cbn [Nat.add loop].
    change (num_ltb s e) with (SFltb s e).
    by rewrite (bracket_lt _ _ _ _ _ Hb), Hv.
  - pose proof (bracket_lt _ _ _ _ _ Hb) as Hlt.
    destruct (pass_binary64 this time i s e Hset ltac:(lia) Hb) as (_ & _ & Hpass).
    destruct (loop_body this time s e) as [v|s1 m1 e1] eqn:Hbody.
    + exists 0%nat, s, m, e, v. rewrite Nat.add_0_r.
      split; [lia|]. split; [reflexivity|]. split; [exact Hb|]. split; [exact Hbody|].
      intros fuel. cbn [Nat.add loop].
      change (num_ltb s e) with (SFltb s e). by rewrite Hlt, Hbody.
    + destruct Hpass as (_ & Hb1 & _ & _).
      destruct (IH (S i) s1 m1 e1 ltac:(lia) Hb1) as (n & s' & m' & e' & v & Hn & Hrun & Hb' & Hret & Hloop).
      exists (S n), s', m', e', v.
      split; [lia|]. split.
      { cbn [after_passes]. change (num_ltb s e) with (SFltb s e).
        by rewrite Hlt, Hbody. }
      split; [by replace (i + S n)%nat with (S i + n)%nat by lia|].
      split; [exact Hret|].
      intros fuel. change (S (S n) + fuel)%nat with (S (S n + fuel)).
      cbn [loop]. change (num_ltb s e) with (SFltb s e). rewrite Hlt, Hbody.
      apply Hloop.
Qed.

End BisectionDoubles.

Section BisectionTrace.
Import Value Cubic Spec Trace.
Local Open Scope Q_scope.




(** Between 0 and 1 [getValue] returns within twenty passes. *)
Lemma getValue_returns_binary64 this time :
  setting this time ->
  exists (n : nat) s m e v,
    (n <= 19)%nat
    /\ after_passes n this time (lit 0, lit 0, lit 1) = Some (s, m, e)
    /\ bracket this time n s e
    /\ loop_body this time s e = Return v
    /\ forall fuel, getValue (S n + fuel) this time = Some v.
Proof.
  intros Hset.
  destruct (setting_spec this time Hset) as (_ & _ & Hgt & Ht0 & Ht1).
  destruct lit_values as ([Hg0 Hv0] & [Hg1 Hv1] & _).
  destruct (loop_returns_binary64 this time Hset 19 0 (lit 0) (lit 0) (lit 1)
              ltac:(lia) (bracket_start this time Hset))
    as (n & s & m & e & v & Hn & Hrun & Hb & Hret & Hloop).
  exists n, s, m, e, v. split_and!; try assumption.
  intros fuel. unfold getValue.
  change (num_leb time (lit 0)) with (SFleb time (lit 0 : b64)).
  change (num_leb (lit 1) time) with (SFleb (lit 1 : b64) time).
  replace (SFleb time (lit 0 : b64)) with false.
  2:{ symmetry. apply not_true_iff_false. rewrite (SFleb_spec _ _ Hgt Hg0), Hv0. lra. }
  replace (SFleb (lit 1 : b64) time) with false.
  2:{ symmetry. apply not_true_iff_false. rewrite (SFleb_spec _ _ Hg1 Hgt), Hv1. lra. }
  apply Hloop.
Qed.

End BisectionTrace.

Section BisectionTheorems.
Import Value Cubic Spec Trace Samples.
Local Open Scope Q_scope.




(** Multiplying by the double 1 changes nothing. *)
Lemma SFmul_one (t : b64) :
  valid_binary prec emax t = true -> t <> S754_nan ->
  SFmul prec emax (lit 1 : b64) t = t.
Proof.
  intros Hv Hn. destruct t as [s|s| |s m e]; [reflexivity | reflexivity | done |].
  destruct lit_values as (_ & [Hg1 Hv1] & _).
  assert (Hg : good (S754_finite s m e)) by (by split).
  destruct (SFmul_exact (lit 1) (S754_finite s m e) Hg1 Hg) as [Hgp Hvp].
  { eapply representable_eq; [|exact (good_representable _ Hg)]. rewrite Hv1. ring. }
  apply good_unique; [exact Hgp | exact Hg | rewrite Hvp, Hv1; ring |].
  rewrite Hvp, Hv1, B2Q_finite. pose proof (magnitude_pos m e).
  destruct s; cbn [sgn]; lra.
Qed.

Lemma pow2_53 : pow2 53 == 9007199254740992.
Proof. reflexivity. Qed.

(** From 1 to [2^53] the number before a double is a double. *)
Lemma sub_one_representable (t : b64) :
  good t -> 1 <= B2Q t <= 9007199254740992 -> representable (B2Q t - 1).
Proof.
  intros [Hv Hf] [Hlo Hhi]. destruct t as [s|s| |s m e]; try discriminate.
  { change (B2Q (S754_zero s)) with 0 in Hlo. lra. }
  cbn [valid_binary] in Hv. destruct (bounded_canonical _ _ Hv) as [Hc He].
  destruct (Zdigits2_bounds (Z.pos m)) as (Hd & Hdlo & Hdhi); [lia|].
  rewrite B2Q_finite in Hlo, Hhi. pose proof (magnitude_pos m e) as Hpos.
  destruct s; cbn [sgn] in Hlo, Hhi; [lra|].
  rewrite Qmult_1_l in Hlo, Hhi.
  apply (representable_eq (inject_Z (Z.pos m) * pow2 e - 1)).
  { rewrite B2Q_finite. cbn [sgn]. ring. }
  assert (Hm53 : (Z.pos m < 2 ^ 53)%Z).
  { rewrite fexp_spec in Hc.
    eapply Z.lt_le_trans; [exact Hdhi|]. apply Z.pow_le_mono_r; lia. }
  assert (Hmq : inject_Z (Z.pos m) < pow2 53).
  { rewrite <- pow2_Z by lia. rewrite <- Zlt_Qlt. exact Hm53. }
  assert (He52 : (- 52 <= e)%Z).
  { destruct (Z.le_gt_cases (- 52) e) as [|Hsmall]; [assumption|exfalso].
    assert (H1 : pow2 53 * pow2 e <= 1).
    { rewrite <- pow2_add. change 1 with (pow2 0). apply pow2_le. lia. }
    pose proof (pow2_pos e). nra. }
  assert (Hd53 : Zdigits2 (Z.pos m) = 53%Z) by (rewrite fexp_spec in Hc; lia).
  rewrite Hd53 in Hdlo. change (2 ^ (53 - 1))%Z with (2 ^ 52)%Z in Hdlo.
  assert (Hmq' : pow2 52 <= inject_Z (Z.pos m)).
  { rewrite <- pow2_Z by lia. rewrite <- Zle_Qle. exact Hdlo. }
  assert (He1 : (e <= 1)%Z).
  { destruct (Z.le_gt_cases e 1) as [|Hbig]; [assumption|exfalso].
    assert (H1 : pow2 54 <= pow2 52 * pow2 e).
    { rewrite <- pow2_add. apply pow2_le. lia. }
    assert (H2 : pow2 53 < pow2 54) by (apply pow2_lt; lia).
    rewrite <- pow2_53 in Hhi. pose proof (pow2_pos e). nra. }
  destruct (Z.eq_dec e 1%Z) as [->|Hne].
  - change (pow2 1) with 2 in *.
    assert (Hm : Z.pos m = (2 ^ 52)%Z).
    { assert (inject_Z (Z.pos m) <= inject_Z (2 ^ 52)).
      { change (inject_Z (2 ^ 52)) with 4503599627370496. lra. }
      rewrite <- Zle_Qle in H. lia. }
    rewrite Hm. exists (2 ^ 53 - 1)%Z, 0%Z.
    split; [lia|]. split; [lia|]. reflexivity.
  - exists (Z.pos m - 2 ^ (- e))%Z, e.
    assert (Hp : (0 < 2 ^ (- e) <= 2 ^ 52)%Z).
    { split; [apply Z.pow_pos_nonneg; lia | apply Z.pow_le_mono_r; lia]. }
    split; [lia|]. split; [lia|].
    unfold Z.sub. rewrite inject_Z_plus, inject_Z_opp, pow2_Z by lia.
    assert (H1 : pow2 (- e) * pow2 e == 1).
    { rewrite <- pow2_add. replace (- e + e)%Z with 0%Z by lia. reflexivity. }
    set (a := inject_Z (Z.pos m)). set (b := pow2 (- e)) in *. set (c := pow2 e) in *.
    clearbody a b c. rewrite <- H1. ring.
Qed.

(** C4, amended.  In binary64, on the linear identity controls
    [0, 0, 1, 1] and a time that is not NaN: [getValue] returns exactly
    the time when it is at most 0, and when it is from 1 to [2^53] or
    [+Infinity]; for a time strictly between 0 and 1 it returns, within
    20 passes, a value [v] that passes the test [|t - v| < 0.00001] of
    the loop, and is within 1.00002e-5 of the time. *)
Theorem getValue_identity (time : b64) :
  valid_binary prec emax time = true ->
  ((time <=? lit 0)%js = true ->
     forall fuel, getValue fuel identity_controls time = Some time)
  /\ ((lit 1 <=? time)%js = true ->
      (time <=? lit 9007199254740992)%js = true \/ time = S754_infinity false ->
      forall fuel, getValue fuel identity_controls time = Some time)
  /\ ((lit 0 <? time)%js = true -> (time <? lit 1)%js = true ->
        exists v,
          (forall k, getValue (20 + k) identity_controls time = Some v)
          /\ (num_abs (time - v) <? tolerance)%js = true
          /\ Qabs (B2Q v - B2Q time) < 100002 # 10000000000).
Proof.
  intros Hv.
  destruct lit_values as ([Hg0 Hv0] & [Hg1 Hv1] & _).
  split; [|split].
  - intros Hle fuel. unfold getValue. rewrite Hle.
    cbn [identity_controls c0 c1 c2 c3].
    set (g := if num_ltb _ _ then _ else _).
    assert (Hg : g = (lit 1 : b64)) by (vm_compute; reflexivity).
    rewrite Hg. f_equal. apply SFmul_one; [exact Hv|].
    intros ->. discriminate.
  - intros Hge [Hle| ->] fuel; [|reflexivity]. unfold getValue.
    assert (Hgt : good time).
    { split; [exact Hv|]. destruct time as [s|s| |s m e]; try reflexivity.
      - by destruct s.
      - discriminate. }
    assert (Hg53 : good (lit 9007199254740992 : b64)
                   /\ B2Q (lit 9007199254740992 : b64) == 9007199254740992)
      by (split; [split|]; vm_compute; reflexivity).
    destruct Hg53 as [Hg53 Hv53].
    apply (SFleb_spec _ _ Hg1 Hgt) in Hge as Hge'. rewrite Hv1 in Hge'.
    apply (SFleb_spec _ _ Hgt Hg53) in Hle. rewrite Hv53 in Hle.
    replace (num_leb time (lit 0)) with false.
    2:{ symmetry. apply not_true_iff_false.
        change (num_leb time (lit 0)) with (SFleb time (lit 0 : b64)).
        rewrite (SFleb_spec _ _ Hgt Hg0), Hv0. lra. }
    rewrite Hge. cbn [identity_controls c0 c1 c2 c3].
    set (g := if num_ltb _ _ then _ else _).
    assert (Hg : g = (lit 1 : b64)) by (vm_compute; reflexivity).
    rewrite Hg. f_equal.
    change (num_add (lit 1) (num_mul (lit 1) (num_sub time (lit 1))))
      with (SFadd prec emax (lit 1 : b64)
              (SFmul prec emax (lit 1 : b64) (SFsub prec emax time (lit 1 : b64)))).
    destruct (SFsub_exact time (lit 1 : b64) Hgt Hg1) as [Hgu Hvu].
    { eapply representable_eq;
        [|exact (sub_one_representable time Hgt (conj Hge' Hle))].
      rewrite Hv1. reflexivity. }
    rewrite Hv1 in Hvu.
    rewrite SFmul_one; [|apply Hgu|].
    2:{ intros Hnan. destruct Hgu as [_ Hfin]. rewrite Hnan in Hfin. discriminate. }
    destruct (SFadd_exact (lit 1 : b64) (SFsub prec emax time (lit 1 : b64)) Hg1 Hgu)
      as [Hgr Hvr].
    { eapply representable_eq; [|exact (good_representable _ Hgt)].
      rewrite Hv1, Hvu. ring. }
    apply good_unique; [exact Hgr | exact Hgt | rewrite Hvr, Hv1, Hvu; ring |].
    rewrite Hvr, Hv1, Hvu. lra.
  - intros Hlo Hhi.
    assert (Hset : setting identity_controls time).
    { unfold setting. split_and!; try assumption; reflexivity. }
    destruct (setting_spec _ _ Hset) as ([Hgc0 Hvc0] & [Hgc2 Hvc2] & Hgt & Ht0 & Ht1).
    destruct (getValue_returns_binary64 identity_controls time Hset)
      as (n & s & m & e & v & Hn & Hrun & Hb & Hret & Hget).
    destruct (pass_binary64 identity_controls time n s e Hset ltac:(lia) Hb)
      as (Hgm & Hvm & Hpass).
    rewrite Hret in Hpass. destruct Hpass as [Hval Htest].
    cbn [identity_controls c0 c1 c2 c3] in Hval, Htest, Hgc0, Hvc0, Hgc2, Hvc2.
    rewrite <- Hval in Htest.
    exists v. split; [|split].
    + intros k. replace (20 + k)%nat with (S n + (19 - n + k))%nat by lia. apply Hget.
    + exact Htest.
    + destruct Hb as (Hs & He & Hds & Hde & _).
      apply (dyadic_range (Z.of_nat n)) in Hds; [|lia].
      apply (dyadic_range (Z.of_nat n)) in Hde; [|lia].
      assert (Hrm : 0 <= B2Q (SFdiv prec emax (SFadd prec emax s e) (lit 2 : b64)) <= 1).
      { rewrite Hvm. unfold Qdiv. change (/ 2) with (1 # 2). lra. }
      destruct (calculate_approx _ _ _ Hgc0 Hgc2 Hgm Hvc0 Hvc2 Hrm) as [Hgx Hex].
      rewrite <- Hval in Hgx, Hex.
      set (bm := bezier _ _ _) in Hex.
      assert (Hbm : - 9 <= bm <= 9).
      { pose proof (bezier_slope _ _ _ 0 Hvc0 Hvc2 ltac:(lra) (proj1 Hrm) (proj2 Hrm)) as H1.
        pose proof (bezier_slope _ _ 1 _ Hvc0 Hvc2 (proj1 Hrm) (proj2 Hrm) ltac:(lra)) as H2.
        destruct (bezier_ends (B2Q (lit 0 : b64)) (B2Q (lit 1 : b64))) as [E0 E1].
        fold bm in H1, H2. rewrite E0 in H1. rewrite E1 in H2. lra. }
      destruct (SFsub_spec time v 4 Hgt Hgx ltac:(lia)) as [Hgd Hed].
      { rewrite pow2_4. unfold eps in *. lra. }
      rewrite pow2_eps in Hed.
      destruct (SFabs_spec _ Hgd) as [Hga Hva].
      destruct tolerance_value as (Hgtol & _ & Htol).
      apply (SFltb_spec _ _ Hga Hgtol) in Htest. rewrite Hva in Htest.
      set (d := B2Q (SFsub prec emax time v)) in *. clearbody d.
      apply Qabs_case; intros Hsign; revert Htest; apply Qabs_case; intros Hd Htest;
        unfold eps in *; lra.
Qed.

(** The theorem at the time 0.25. *)
Lemma getValue_identity_witness :
  ((quarter <=? lit 0)%js = true ->
     forall fuel, getValue fuel identity_controls quarter = Some quarter)
  /\ ((lit 1 <=? quarter)%js = true ->
      (quarter <=? lit 9007199254740992)%js = true \/ quarter = S754_infinity false ->
      forall fuel, getValue fuel identity_controls quarter = Some quarter)
  /\ ((lit 0 <? quarter)%js = true -> (quarter <? lit 1)%js = true ->
        exists v,
          (forall k, getValue (20 + k) identity_controls quarter = Some v)
          /\ (num_abs (quarter - v) <? tolerance)%js = true
          /\ Qabs (B2Q v - B2Q quarter) < 100002 # 10000000000).
Proof.
  apply (getValue_identity quarter). vm_compute. reflexivity.
Defined.

End BisectionTheorems.

(* ===================================================================== *)
(** * The animation key                                                   *)
(* ===================================================================== *)

Section KeyText.
Import Utils.

Lemma list_ascii_of_string_app (s1 s2 : string) :
  list_ascii_of_string (s1 +:+ s2)
  = list_ascii_of_string s1 ++ list_ascii_of_string s2.
Proof.
  induction s1 as [|c s1 IH]; [reflexivity|].
  change (c :: list_ascii_of_string (s1 +:+ s2)
          = c :: (list_ascii_of_string s1 ++ list_ascii_of_string s2)).
  by rewrite IH.
Qed.

Lemma append_empty_r (s : string) : s +:+ "" = s.
Proof.
  induction s as [|c s IH]; [reflexivity|].
  change (String c (s +:+ "") = String c s). by rewrite IH.
Qed.

Lemma append_assoc (s1 s2 s3 : string) : (s1 +:+ s2) +:+ s3 = s1 +:+ s2 +:+ s3.
Proof.
  induction s1 as [|c s1 IH]; [reflexivity|].
  change (String c ((s1 +:+ s2) +:+ s3) = String c (s1 +:+ s2 +:+ s3)).
  by rewrite IH.
Qed.

Lemma join_cons (s : string) (l : list string) : join (s :: l) = s +:+ join l.
Proof.
  unfold join. destruct l as [|s' l].
  - change (s = s +:+ ""). by rewrite append_empty_r.
  - reflexivity.
Qed.

Lemma join_app (l1 l2 : list string) : join (l1 ++ l2) = join l1 +:+ join l2.
Proof.
  induction l1 as [|s l1 IH]; [reflexivity|].
  cbn [app]. by rewrite !join_cons, IH, append_assoc.
Qed.

(** A text that ends with the two pushed zeros keeps them when dots and
    dashes are removed. *)
Lemma key_text_nonempty (strArr : list string) :
  Str.remove_dots_dashes (join (strArr ++ ["0"; "0"])) <> "".
Proof.
  unfold Str.remove_dots_dashes.
  rewrite join_app, list_ascii_of_string_app, filter_app.
  change (list_ascii_of_string (join ["0"; "0"])) with ["0"%char; "0"%char].
  cbn [filter list_filter]. 
  destruct (filter _ (list_ascii_of_string (join strArr))); discriminate.
Qed.

End KeyText.

Section AnimationKey.
Import Platform Dom ClientTransaction Spec Samples.
Variables Math_cos Math_sin : b64 -> b64.

Lemma bind_Normal {A B} (m : completion A) (f : A -> completion B) (b : B) :
  m ≫= f = Normal b -> exists a, m = Normal a /\ f a = Normal b.
Proof. destruct m as [a| |]; cbn; [by eauto | discriminate..]. Qed.

Lemma animate_try_nonempty fuel frames targetTime key :
  animate_try Math_cos Math_sin fuel frames targetTime = Normal key -> key <> "".
Proof.
  unfold animate_try.
  destruct (length frames <? 7)%nat; [discriminate|].
  destruct (imap _ (drop 7 frames)) as [|a [|b [|c [|d rest]]]]; try discriminate.
  intros Hkey.
  apply bind_Normal in Hkey as (val & _ & Hkey).
  apply bind_Normal in Hkey as (color & _ & Hkey).
  apply bind_Normal in Hkey as (rotation & _ & Hkey).
  apply bind_Normal in Hkey as (texts & _ & Hkey).
  injection Hkey as <-. rewrite app_assoc. apply key_text_nonempty.
Qed.





End AnimationKey.

Section AnimationKeyExamples.
Import Platform Dom ClientTransaction Samples.

(** Constructions evaluated with the reference trigonometry: a homepage
    without any markup, one whose key holds three bytes, and one with a
    full key and no animation frames, whose key is derived from the
    default row. *)
Example create_examples :
  let animation_key doc :=
    match create cos_reference sin_reference 100 doc NoCustomFetch with
    | Normal instance => animationKey instance
    | _ => None
    end in
  animation_key no_markup = Some "1e00f00"
  /\ animation_key {| site_verification := [Some "AQID"]; loading_x_anim := [] |}
     = Some "1e00f00"
  /\ animation_key {| site_verification := [Some fallbackKey]; loading_x_anim := [] |}
     = Some "0001007ae147ae147ae007ae147ae147ae100".
Proof. repeat split; vm_compute; reflexivity. Qed.


End AnimationKeyExamples.

(* ===================================================================== *)
(** * Base64                                                             *)
(* ===================================================================== *)

Section Base64.
Import Platform Reading Checks Spec.
Local Open Scope Z_scope.

(** A property checked on every number below a bound holds below it. *)
Lemma forallb_seqZ (f : Z -> bool) n :
  forallb f (seqZ 0 n) = true -> forall i, 0 <= i < n -> f i = true.
Proof.
  intros Hall i Hi. rewrite forallb_forall in Hall. apply Hall.
  apply list_elem_of_In, elem_of_seqZ. lia.
Qed.

Lemma forallb_seqZ2 (f : Z -> Z -> bool) n m :
  forallb (fun a => forallb (f a) (seqZ 0 m)) (seqZ 0 n) = true ->
  forall a b, 0 <= a < n -> 0 <= b < m -> f a b = true.
Proof.
  intros Hall a b Ha Hb.
  apply (forallb_seqZ (f a) m); [|exact Hb].
  apply (forallb_seqZ (fun a => forallb (f a) (seqZ 0 m)) n Hall a Ha).
Qed.

(** Lists three elements at a time. *)
Lemma list_ind3 {A} (P : list A -> Prop) :
  P [] -> (forall a, P [a]) -> (forall a b, P [a; b]) ->
  (forall a b c l, P l -> P (a :: b :: c :: l)) ->
  forall l, P l.
Proof.
  intros H0 H1 H2 H3 l.
  assert (Hn : forall n l, (length l <= n)%nat -> P l).
  { clear l. induction n as [|n IH]; intros [|a [|b [|c l]]] Hl; cbn in Hl; auto; try lia.
    apply H3, IH. lia. }
  by apply (Hn (length l)).
Qed.

(** The alphabet: reading a character of the alphabet gives its index
    back; such a character is neither [=] nor white space. *)
Lemma base64_char_spec i :
  0 <= i < 64 ->
  base64_value (base64_char i) = Some i
  /\ Ascii.eqb (base64_char i) "=" = false
  /\ is_ascii_whitespace (base64_char i) = false.
Proof.
  intros Hi.
  pose (f := fun i =>
    match base64_value (base64_char i) with Some j => j =? i | None => false end
    && negb (Ascii.eqb (base64_char i) "=")
    && negb (is_ascii_whitespace (base64_char i))).
  assert (Hf : f i = true).
  { apply (forallb_seqZ f 64); [vm_compute; reflexivity | exact Hi]. }
  unfold f in Hf. apply andb_prop in Hf as [Hf H3]. apply andb_prop in Hf as [H1 H2].
  destruct (base64_value (base64_char i)) as [j|]; [|discriminate].
  apply Z.eqb_eq in H1. subst j.
  repeat split; [by apply negb_true_iff in H2 | by apply negb_true_iff in H3].
Qed.

Lemma base64_value_range c i : base64_value c = Some i -> 0 <= i < 64.
Proof.
  unfold base64_value. intros Hc.
  repeat match type of Hc with
         | (if ?b then _ else _) = _ => destruct b eqn:?
         end; inversion Hc; subst; lia.
Qed.

Lemma sextet_check_true a b : is_byte a -> is_byte b -> sextet_check a b = true.
Proof.
  intros Ha Hb. apply (forallb_seqZ2 sextet_check 256 256); [|exact Ha|exact Hb].
  vm_compute. reflexivity.
Qed.

Ltac sextet_facts a b H :=
  let Ha := fresh in let Hb := fresh in
  assert (Ha : is_byte a) by assumption;
  assert (Hb : is_byte b) by assumption;
  pose proof (sextet_check_true a b Ha Hb) as H;
  unfold sextet_check in H; cbn [forallb] in H;
  repeat match type of H with
         | _ && _ = true => let H' := fresh in apply andb_prop in H as [H H']
         end;
  repeat match goal with
         | H' : (_ =? _) = true |- _ => apply Z.eqb_eq in H'
         | H' : (_ <=? _) = true |- _ => apply Z.leb_le in H'
         | H' : (_ <? _) = true |- _ => apply Z.ltb_lt in H'
         | H' : _ && _ = true |- _ =>
             let H'' := fresh in apply andb_prop in H' as [H' H'']
         end;
  clear Ha Hb.

Lemma padding_step a b c (l : list Z) : padding (a :: b :: c :: l) = padding l.
Proof.
  unfold padding. change (length (a :: b :: c :: l)) with (3 + length l)%nat.
  replace (3 + length l)%nat with (length l + 1 * 3)%nat by lia.
  by rewrite Nat.Div0.mod_add.
Qed.

(** The text of [btoa]: the characters of the six-bit groups, then the
    padding. *)
Lemma btoa_chars l :
  list_ascii_of_string (btoa l) = map base64_char (sextets l) ++ padding l.
Proof.
  induction l as [|a|a b|a b c l IH] using list_ind3; try reflexivity.
  rewrite padding_step. cbn [btoa sextets map list_ascii_of_string app].
  by rewrite IH.
Qed.

Lemma sextets_range l :
  Forall is_byte l -> Forall (fun s => 0 <= s < 64) (sextets l).
Proof.
  induction l as [|a|a b|a b c l IH] using list_ind3; intros Hl; cbn [sextets].
  - constructor.
  - apply Forall_cons_1 in Hl as [Ha _].
    sextet_facts a a Faa. repeat constructor; lia.
  - apply Forall_cons_1 in Hl as [Ha Hl]. apply Forall_cons_1 in Hl as [Hb _].
    sextet_facts a b Fab. sextet_facts b b Fbb. repeat constructor; lia.
  - apply Forall_cons_1 in Hl as [Ha Hl]. apply Forall_cons_1 in Hl as [Hb Hl].
    apply Forall_cons_1 in Hl as [Hc Hl].
    sextet_facts a b Fab. sextet_facts b c Fbc. sextet_facts c c Fcc.
    repeat (constructor; [lia|]). by apply IH.
Qed.

(** Reassembling the six-bit groups gives the bytes back. *)
Lemma sextets_to_bytes_sextets l :
  Forall is_byte l -> sextets_to_bytes (sextets l) = l.
Proof.
  induction l as [|a|a b|a b c l IH] using list_ind3; intros Hl.
  - reflexivity.
  - apply Forall_cons_1 in Hl as [Ha _].
    sextet_facts a a Faa. cbn [sextets sextets_to_bytes]. congruence.
  - apply Forall_cons_1 in Hl as [Ha Hl]. apply Forall_cons_1 in Hl as [Hb _].
    sextet_facts a b Fab. sextet_facts b b Fbb.
    cbn [sextets sextets_to_bytes]. congruence.
  - apply Forall_cons_1 in Hl as [Ha Hl]. apply Forall_cons_1 in Hl as [Hb Hl].
    apply Forall_cons_1 in Hl as [Hc Hl].
    sextet_facts a b Fab. sextet_facts b c Fbc. sextet_facts c c Fcc.
    cbn [sextets sextets_to_bytes]. rewrite IH by assumption. congruence.
Qed.

Lemma alphabet_kept (P : ascii -> Prop) `{forall c, Decision (P c)} sx :
  (forall i, 0 <= i < 64 -> P (base64_char i)) ->
  Forall (fun s => 0 <= s < 64) sx ->
  filter P (map base64_char sx) = map base64_char sx.
Proof.
  intros HP. induction 1 as [|i sx Hi _ IH]; [reflexivity|].
  cbn [map]. rewrite filter_cons_True by auto. by rewrite IH.
Qed.

Lemma alphabet_read sx :
  Forall (fun s => 0 <= s < 64) sx ->
  mapM base64_value (map base64_char sx) = Some sx.
Proof.
  induction 1 as [|i sx Hi _ IH]; [reflexivity|].
  cbn [map mapM]. destruct (base64_char_spec i Hi) as (-> & _).
  cbn. rewrite IH. reflexivity.
Qed.

(** The number of six-bit groups and the padding, by the length of the
    input modulo three. *)
Lemma sextets_shape l :
  exists k,
    (length (sextets l) = 4 * k /\ padding l = [])%nat
    \/ (length (sextets l) = 4 * k + 2 /\ padding l = ["="; "="]%char)%nat
    \/ (length (sextets l) = 4 * k + 3 /\ padding l = ["="]%char)%nat.
Proof.
  induction l as [|a|a b|a b c l IH] using list_ind3.
  - exists 0%nat. left. split; reflexivity.
  - exists 0%nat. right. left. split; reflexivity.
  - exists 0%nat. right. right. split; reflexivity.
  - rewrite padding_step. cbn [sextets length].
    destruct IH as (k & [[-> ->]|[[-> ->]|[-> ->]]]); exists (S k);
      [left | right; left | right; right]; split; try reflexivity; lia.
Qed.

Lemma sextets_length l : length (sextets l) = ((4 * length l + 2) / 3)%nat.
Proof.
  induction l as [|a|a b|a b c l IH] using list_ind3; try reflexivity.
  cbn [sextets length]. rewrite IH.
  replace (4 * S (S (S (length l))) + 2)%nat with ((4 * length l + 2) + 4 * 3)%nat by lia.
  rewrite Nat.div_add by lia. lia.
Qed.

(** [strip_padding] leaves a text that does not end in [=]. *)
Lemma strip_padding_none l :
  (forall c r, reverse l = c :: r -> Ascii.eqb c "=" = false) ->
  strip_padding l = l.
Proof.
  intros Hlast. unfold strip_padding.
  destruct (length l mod 4 =? 0)%nat; [|reflexivity].
  destruct (reverse l) as [|c r] eqn:Hr; [reflexivity|].
  specialize (Hlast c r eq_refl).
  destruct c as [[] [] [] [] [] [] [] []]; try reflexivity; discriminate.
Qed.

Lemma strip_padding_one l :
  (length (l ++ ["="%char]) mod 4 = 0)%nat ->
  (forall c r, reverse l = c :: r -> Ascii.eqb c "=" = false) ->
  strip_padding (l ++ ["="%char]) = l.
Proof.
  intros Hlen Hlast. unfold strip_padding. rewrite Hlen. cbn [Nat.eqb].
  rewrite reverse_snoc.
  destruct (reverse l) as [|c r] eqn:Hr.
  - rewrite <- Hr. apply reverse_involutive.
  - specialize (Hlast c r eq_refl).
    assert (Hl : reverse (c :: r) = l) by (rewrite <- Hr; apply reverse_involutive).
    destruct c as [[] [] [] [] [] [] [] []]; try exact Hl; discriminate.
Qed.

Lemma strip_padding_two l :
  (length (l ++ ["="; "="]%char) mod 4 = 0)%nat ->
  strip_padding (l ++ ["="; "="]%char) = l.
Proof.
  intros Hlen. unfold strip_padding. rewrite Hlen. cbn [Nat.eqb].
  rewrite reverse_app. cbn. apply reverse_involutive.
Qed.

Lemma alphabet_last sx :
  Forall (fun s => 0 <= s < 64) sx ->
  forall c r, reverse (map base64_char sx) = c :: r -> Ascii.eqb c "=" = false.
Proof.
  intros Hsx c r Hr.
  assert (Hc : c ∈ map base64_char sx).
  { apply elem_of_reverse. rewrite Hr. left. }
  apply list_elem_of_fmap in Hc as (i & -> & Hi).
  rewrite Forall_forall in Hsx. by destruct (base64_char_spec i (Hsx i Hi)) as (_ & -> & _).
Qed.

(** Decoding what [btoa] wrote gives the bytes back. *)
Lemma atob_btoa l : Forall is_byte l -> atob (btoa l) = Normal l.
Proof.
  intros Hl. unfold atob. rewrite btoa_chars.
  pose proof (sextets_range l Hl) as Hsx.
  rewrite filter_app, alphabet_kept; [|intros i Hi; apply (base64_char_spec i Hi)|exact Hsx].
  assert (Hstrip :
    strip_padding (map base64_char (sextets l)
                   ++ filter (fun c => is_ascii_whitespace c = false) (padding l))
    = map base64_char (sextets l)).
  { destruct (sextets_shape l) as (k & [[Hk ->]|[[Hk ->]|[Hk ->]]]).
    - cbn [filter list_filter]. rewrite app_nil_r.
      apply strip_padding_none, alphabet_last, Hsx.
    - apply strip_padding_two.
      rewrite length_app, length_map, Hk. cbn [length].
      replace (4 * k + 2 + 2)%nat with (0 + (S k) * 4)%nat by lia.
      by rewrite Nat.Div0.mod_add.
    - apply strip_padding_one; [|apply alphabet_last, Hsx].
      rewrite length_app, length_map, Hk. cbn [length].
      replace (4 * k + 3 + 1)%nat with (0 + (S k) * 4)%nat by lia.
      by rewrite Nat.Div0.mod_add. }
  rewrite Hstrip, length_map.
  assert (Hmod : (length (sextets l) mod 4 =? 1)%nat = false).
  { apply Nat.eqb_neq.
    destruct (sextets_shape l) as (k & [[-> _]|[[-> _]|[-> _]]]);
      rewrite 1?(Nat.mul_comm 4 k), 1?Nat.add_comm, ?Nat.Div0.mod_add, ?Nat.Div0.mod_mul;
      cbn; lia. }
  rewrite Hmod, alphabet_read by exact Hsx.
  by rewrite sextets_to_bytes_sextets.
Qed.

Lemma encode_chars l :
  Forall is_byte l ->
  list_ascii_of_string (encode l) = map base64_char (sextets l).
Proof.
  intros Hl. unfold encode, Str.remove_equals.
  rewrite list_ascii_of_string_of_list_ascii, btoa_chars, filter_app.
  rewrite alphabet_kept;
    [|intros i Hi; apply (base64_char_spec i Hi)|by apply sextets_range].
  destruct (sextets_shape l) as (k & [[_ ->]|[[_ ->]|[_ ->]]]);
    cbn; by rewrite app_nil_r.
Qed.

(** Decoding the text without its padding gives the bytes back as
    well. *)
Lemma atob_encode l : Forall is_byte l -> atob (encode l) = Normal l.
Proof.
  intros Hl. unfold atob. rewrite encode_chars by exact Hl.
  pose proof (sextets_range l Hl) as Hsx.
  rewrite alphabet_kept; [|intros i Hi; apply (base64_char_spec i Hi)|exact Hsx].
  rewrite strip_padding_none by (apply alphabet_last, Hsx).
  rewrite length_map.
  assert (Hmod : (length (sextets l) mod 4 =? 1)%nat = false).
  { apply Nat.eqb_neq.
    destruct (sextets_shape l) as (k & [[-> _]|[[-> _]|[-> _]]]);
      rewrite 1?(Nat.mul_comm 4 k), 1?Nat.add_comm, ?Nat.Div0.mod_add, ?Nat.Div0.mod_mul;
      cbn; lia. }
  rewrite Hmod, alphabet_read by exact Hsx.
  by rewrite sextets_to_bytes_sextets.
Qed.

Lemma group_check_true a b :
  0 <= a < 64 -> 0 <= b < 64 ->
  is_byte (Z.lor (Z.shiftl a 2) (Z.shiftr b 4))
  /\ is_byte (Z.lor (Z.land (Z.shiftl a 4) 255) (Z.shiftr b 2))
  /\ is_byte (Z.lor (Z.land (Z.shiftl a 6) 255) b).
Proof.
  intros Ha Hb.
  assert (Hc : group_check a b = true).
  { apply (forallb_seqZ2 group_check 64 64); [vm_compute; reflexivity|exact Ha|exact Hb]. }
  unfold group_check in Hc. cbn [forallb] in Hc. unfold is_byte.
  repeat match goal with
         | H : _ && _ = true |- _ =>
             let H' := fresh in apply andb_prop in H as [H H']
         | H : (_ <=? _) = true |- _ => apply Z.leb_le in H
         | H : (_ <? _) = true |- _ => apply Z.ltb_lt in H
         end.
  lia.
Qed.

Lemma sextets_to_bytes_byte sx :
  Forall (fun s => 0 <= s < 64) sx -> Forall is_byte (sextets_to_bytes sx).
Proof.
  assert (Hn : forall n sx, (length sx <= n)%nat ->
            Forall (fun s => 0 <= s < 64) sx -> Forall is_byte (sextets_to_bytes sx)).
  { clear sx. induction n as [|n IH]; intros [|a [|b [|c [|d sx]]]] Hlen Hsx;
      cbn [sextets_to_bytes]; try constructor; cbn [length] in Hlen; try lia;
      repeat match goal with
             | H : Forall _ (_ :: _) |- _ => apply Forall_cons_1 in H as [? H]
             end.
    - apply (group_check_true a b); assumption.
    - constructor.
    - apply (group_check_true a b); assumption.
    - constructor; [apply (group_check_true b c); assumption | constructor].
    - apply (group_check_true a b); assumption.
    - constructor; [apply (group_check_true b c); assumption|].
      constructor; [apply (group_check_true c d); assumption|].
      apply IH; [lia | assumption]. }
  apply (Hn (length sx)). lia.
Qed.

(** Whatever text [atob] accepts, what it returns are bytes. *)
Lemma atob_bytes data l : atob data = Normal l -> Forall is_byte l.
Proof.
  unfold atob.
  set (cs := strip_padding _).
  destruct (length cs mod 4 =? 1)%nat; [discriminate|].
  destruct (mapM base64_value cs) as [sx|] eqn:Hsx; [|discriminate].
  intros [= <-]. apply sextets_to_bytes_byte.
  apply mapM_Some in Hsx.
  apply Forall_forall. intros s Hs.
  apply list_elem_of_lookup in Hs as [i Hi].
  destruct (Forall2_lookup_r _ _ _ _ _ Hsx Hi) as (c & _ & Hc).
  by apply (base64_value_range c).
Qed.

End Base64.

(* ===================================================================== *)
(** * Reading a token back                                               *)
(* ===================================================================== *)

Section TokenReading.
Import Platform ClientTransaction Spec Reading Samples.
Local Open Scope Z_scope.

Lemma u8_is_byte z : is_byte (u8 z).
Proof. unfold is_byte, u8. apply Z.mod_pos_bound. lia. Qed.

(** A loop of stores keeps the length of the array and stores bytes. *)
Lemma store_each_keeps f source : forall st,
  Forall is_byte (fst st) ->
  Forall is_byte (fst (store_each f source st))
  /\ length (fst (store_each f source st)) = length (fst st).
Proof.
  unfold store_each.
  induction source as [|b source IH]; intros [bytesArr pos] Hst; cbn [fold_left].
  - auto.
  - destruct (IH (<[pos:=u8 (f b)]> bytesArr, S pos)) as [IH1 IH2].
    { cbn [fst]. apply Forall_insert; [exact Hst | apply u8_is_byte]. }
    split; [exact IH1|]. rewrite IH2. cbn [fst]. apply length_insert.
Qed.

(** The array handed to [base64Encode] has [keyBytes.length + 21] elements,
    all of them bytes, whatever the key bytes and the random number are. *)
Lemma token_bytes_keeps kb ak method path t r :
  Forall is_byte (token_bytes kb ak method path t r)
  /\ length (token_bytes kb ak method path t r) = (length kb + 21)%nat.
Proof.
  unfold token_bytes.
  set (a0 := <[0%nat:=u8 r]> (replicate _ 0)).
  assert (H0 : Forall is_byte a0 /\ length a0 = (length kb + 21)%nat).
  { subst a0. split.
    - apply Forall_insert; [|apply u8_is_byte].
      apply Forall_replicate. unfold is_byte. lia.
    - rewrite length_insert, length_replicate.
      change (length (timeNowBytes t)) with 4%nat. lia. }
  destruct H0 as [Hb0 Hl0].
  pose proof (store_each_keeps (fun b => Z.lxor b r) kb (a0, 1%nat) Hb0) as [Hb1 Hl1].
  destruct (store_each _ kb (a0, 1%nat)) as [a1 p1]. cbn [fst] in *.
  pose proof (store_each_keeps (fun b => Z.lxor b r) (timeNowBytes t) (a1, p1) Hb1)
    as [Hb2 Hl2].
  destruct (store_each _ (timeNowBytes t) (a1, p1)) as [a2 p2]. cbn [fst] in *.
  match goal with
  | |- context [store_each ?f ?src (a2, p2)] =>
      pose proof (store_each_keeps f src (a2, p2) Hb2) as [Hb3 Hl3];
      destruct (store_each f src (a2, p2)) as [a3 p3]
  end.
  cbn [fst] in *. split.
  - apply Forall_insert; [exact Hb3 | apply u8_is_byte].
  - rewrite length_insert. congruence.
Qed.

Lemma string_length_chars (s : string) :
  String.length s = length (list_ascii_of_string s).
Proof. induction s as [|c s IH]; cbn; congruence. Qed.

Lemma xor_with_twice r l : xor_with r (xor_with r l) = l.
Proof.
  unfold xor_with. rewrite map_map. rewrite <- (map_id l) at 2.
  apply map_ext. intros b. by rewrite Z.lxor_assoc, Z.lxor_nilpotent, Z.lxor_0_r.
Qed.

(** On a key that is there, [generateTransactionId] has two outcomes:
    the [RangeError] of the spread, when the array of [keyBytes.length
    + 21] bytes is more than the engine accepts as arguments, and the
    token. *)
Lemma generateTransactionId_outcome max_arguments
    (this : ClientTransaction.t) kb method path timeNow now r :
  keyBytes this = Some kb -> kb <> [] ->
  Engine.generateTransactionId max_arguments this method path timeNow now r
  = if (max_arguments <? length kb + 21)%nat then Throw RangeError
    else Normal (encode (token_bytes kb (animationKey this) method path
                           (effective_time timeNow now) r)).
Proof.
  intros Hkb Hne. unfold Engine.generateTransactionId. rewrite Hkb.
  destruct kb as [|b kb']; [congruence|].
  unfold Engine.base64Encode, Engine.fromCharCode_spread.
  rewrite (proj2 (token_bytes_keeps (b :: kb') (animationKey this) method path
                    (effective_time timeNow now) r)).
  by destruct (max_arguments <? _)%nat.
Qed.

(** Within the bound, the engine returns what the function returns
    without one. *)
Lemma generateTransactionId_within max_arguments
    (this : ClientTransaction.t) kb method path timeNow now r :
  keyBytes this = Some kb -> (length kb + 21 <= max_arguments)%nat ->
  Engine.generateTransactionId max_arguments this method path timeNow now r
  = generateTransactionId this method path timeNow now r.
Proof.
  intros Hkb Hmax. destruct kb as [|b kb'].
  - unfold Engine.generateTransactionId, generateTransactionId. by rewrite Hkb.
  - rewrite (generateTransactionId_outcome _ _ (b :: kb')) by done.
    rewrite (proj2 (Nat.ltb_ge _ _) Hmax).
    unfold generateTransactionId. by rewrite Hkb.
Qed.

(** C2.  [generateTransactionId] as an engine runs it.  It throws the
    error of the missing key exactly when the key bytes are undefined or
    empty.  On a key that is there it returns a token exactly when the
    array of [keyBytes.length + 21] bytes is within the engine's bound on
    the arguments of a call; past the bound it throws the [RangeError]
    of the spread in [base64Encode], so that the claimed token for every
    non-empty key is not what the code returns.  These are the only
    outcomes, whatever the method, path, timestamp, clock and random
    byte. *)
Theorem generateTransactionId_raises_iff max_arguments
    (this : ClientTransaction.t) method path timeNow now r :
  (Engine.generateTransactionId max_arguments this method path timeNow now r
     = Throw KeyBytesUndefinedOrEmpty
   <-> keyBytes this = None \/ keyBytes this = Some [])
  /\ (Engine.generateTransactionId max_arguments this method path timeNow now r
        = Throw RangeError
      <-> exists kb, keyBytes this = Some kb /\ kb <> []
                     /\ (max_arguments < length kb + 21)%nat)
  /\ ((exists token,
         Engine.generateTransactionId max_arguments this method path timeNow now r
         = Normal token)
      <-> exists kb, keyBytes this = Some kb /\ kb <> []
                     /\ (length kb + 21 <= max_arguments)%nat)
  /\ (forall e,
        Engine.generateTransactionId max_arguments this method path timeNow now r
        = Throw e -> e = KeyBytesUndefinedOrEmpty \/ e = RangeError)
  /\ Engine.generateTransactionId max_arguments this method path timeNow now r
     <> OutOfFuel.
Proof.
  destruct (keyBytes this) as [[|b kb]|] eqn:Hkb.
  1,3: unfold Engine.generateTransactionId; rewrite Hkb; split_and!;
       try (split; [auto | done]); try discriminate;
       try (split; [intros [token Ht]; discriminate
                   | intros (kb' & Hkb' & Hne & _); congruence]);
       try (split; [discriminate | intros (kb' & Hkb' & Hne & _); congruence]);
       intros e [= <-]; by left.
  rewrite (generateTransactionId_outcome max_arguments this (b :: kb)) by done.
  destruct (Nat.ltb_spec max_arguments (length (b :: kb) + 21)) as [Hlt|Hge];
    split_and!; try discriminate.
  - split; [discriminate | intros [H|H]; discriminate].
  - split; [intros _; exists (b :: kb); done | done].
  - split; [intros [token Ht]; discriminate|].
    intros (kb' & [= <-] & _ & Hle). lia.
  - intros e [= <-]. by right.
  - split; [discriminate | intros [H|H]; discriminate].
  - split; [discriminate|]. intros (kb' & [= <-] & _ & Hlt). lia.
  - split; [intros _; exists (b :: kb); done | intros _; by eexists].
Qed.

(** The key of 150000 bytes on an engine that accepts 65536 arguments. *)
Lemma generateTransactionId_raises_iff_witness :
  Engine.generateTransactionId (Z.to_nat 65536) long_key_instance
    "GET" "/1.1/x.json" (Some 1700000000) 0 7 = Throw RangeError.
Proof.
  apply (proj2 (proj1 (proj2 (generateTransactionId_raises_iff (Z.to_nat 65536)
           long_key_instance "GET" "/1.1/x.json" (Some 1700000000) 0 7)))).
  exists (replicate (Z.to_nat 150000) 0). split; [reflexivity|]. split.
  - intros H. apply (f_equal length) in H. rewrite length_replicate in H.
    cbn [length] in H. lia.
  - rewrite length_replicate. lia.
Defined.

(** The same key on every engine whose bound is at most 150020
    arguments, for every request. *)
Example generateTransactionId_long_key :
  keyBytes long_key_instance = Some (replicate (Z.to_nat 150000) 0)
  /\ length (replicate (Z.to_nat 150000) 0) = Z.to_nat 150000
  /\ forall max_arguments method path timeNow now r,
       (max_arguments <= Z.to_nat 150020)%nat ->
       Engine.generateTransactionId max_arguments long_key_instance
         method path timeNow now r = Throw RangeError.
Proof.
  split; [reflexivity|]. split; [apply length_replicate|].
  intros max_arguments method path timeNow now r Hmax.
  rewrite (generateTransactionId_outcome _ _ (replicate (Z.to_nat 150000) 0));
    [|reflexivity|].
  - rewrite length_replicate.
    by rewrite (proj2 (Nat.ltb_lt _ _)) by lia.
  - intros H. apply (f_equal length) in H. rewrite length_replicate in H.
    cbn [length] in H. lia.
Qed.

(** What the token text holds: decoded, it is [r] followed by a rest
    which, XORed with [r] again, is the key, the four little-endian bytes
    of the time and the first sixteen bytes of the digest. *)
Lemma token_decodes kb ak method path t r :
  Forall is_byte kb -> is_byte r ->
  exists rest,
    atob (encode (token_bytes kb (Some ak) method path t r)) = Normal (r :: rest)
    /\ xor_with r rest
       = kb ++ le_bytes4 t ++ take 16 (digest method path t ak).
Proof.
  intros Hbytes Hr.
  exists (xor_with r (kb ++ le_bytes4 t ++ take 16 (digest method path t ak))).
  split; [|apply xor_with_twice].
  rewrite atob_encode by apply token_bytes_keeps.
  rewrite token_bytes_layout by assumption.
  unfold xor_with. by rewrite !map_app.
Qed.

Lemma effective_time_default now :
  effective_time (Some 0) now = (now - 1682924400000) / 1000
  /\ effective_time None now = (now - 1682924400000) / 1000
  /\ effective_time (Some ((now - 1682924400000) / 1000)) now
     = (now - 1682924400000) / 1000.
Proof.
  unfold effective_time. split_and!; try reflexivity.
  by destruct ((now - 1682924400000) / 1000).
Qed.

(** C10.  An explicit timestamp 0 is treated as no timestamp.  The token
    returned for 0 is the token returned without a timestamp, and the
    token of the explicit default [floor((now - 1682924400000) / 1000)];
    decoded, it holds after the key the four little-endian bytes of that
    default time, and then the first sixteen bytes of the digest of the
    text in which that default time, not 0, is printed.  For a key
    within the engine's bound and a clock reading in the range of
    [Date.now()]. *)
Theorem generateTransactionId_zero_timestamp max_arguments
    (this : ClientTransaction.t) kb ak method path now r :
  keyBytes this = Some kb -> animationKey this = Some ak -> kb <> [] ->
  Forall is_byte kb -> is_byte r ->
  (length kb + 21 <= max_arguments)%nat ->
  Z.abs now <= 8640000000000000 ->
  Engine.generateTransactionId max_arguments this method path (Some 0) now r
  = Engine.generateTransactionId max_arguments this method path None now r
  /\ Engine.generateTransactionId max_arguments this method path (Some 0) now r
     = Engine.generateTransactionId max_arguments this method path
         (Some ((now - 1682924400000) / 1000)) now r
  /\ exists token rest,
       Engine.generateTransactionId max_arguments this method path (Some 0) now r
       = Normal token
       /\ atob token = Normal (r :: rest)
       /\ xor_with r rest
          = kb ++ le_bytes4 ((now - 1682924400000) / 1000)
            ++ take 16 (digest method path ((now - 1682924400000) / 1000) ak).
Proof.
  intros Hkb Hak Hne Hbytes Hr Hmax _.
  destruct (effective_time_default now) as (H0 & Hnone & Hdefault).
  rewrite !(generateTransactionId_outcome max_arguments this kb) by assumption.
  rewrite (proj2 (Nat.ltb_ge _ _) Hmax), H0, Hnone, Hdefault, Hak.
  split; [reflexivity|]. split; [reflexivity|].
  destruct (token_decodes kb ak method path ((now - 1682924400000) / 1000) r
              Hbytes Hr) as (rest & Hdecode & Hrest).
  by exists (encode (token_bytes kb (Some ak) method path
                       ((now - 1682924400000) / 1000) r)), rest.
Qed.

(** The theorem at the sample instance, the clock at 1700000000000 ms:
    the default time is 17075600. *)
Lemma generateTransactionId_zero_timestamp_witness :
  Engine.generateTransactionId (Z.to_nat 65536) sample_instance "GET" "/1.1/x.json"
    (Some 0) 1700000000000 7
  = Engine.generateTransactionId (Z.to_nat 65536) sample_instance "GET" "/1.1/x.json"
      None 1700000000000 7
  /\ Engine.generateTransactionId (Z.to_nat 65536) sample_instance "GET" "/1.1/x.json"
       (Some 0) 1700000000000 7
     = Engine.generateTransactionId (Z.to_nat 65536) sample_instance "GET" "/1.1/x.json"
         (Some ((1700000000000 - 1682924400000) / 1000)) 1700000000000 7
  /\ exists token rest,
       Engine.generateTransactionId (Z.to_nat 65536) sample_instance "GET" "/1.1/x.json"
         (Some 0) 1700000000000 7 = Normal token
       /\ atob token = Normal (7 :: rest)
       /\ xor_with 7 rest
          = [1; 2; 3] ++ le_bytes4 ((1700000000000 - 1682924400000) / 1000)
            ++ take 16 (digest "GET" "/1.1/x.json"
                          ((1700000000000 - 1682924400000) / 1000) "1e00f00").
Proof.
  apply (generateTransactionId_zero_timestamp (Z.to_nat 65536) sample_instance).
  - reflexivity.
  - reflexivity.
  - discriminate.
  - repeat constructor; unfold is_byte; lia.
  - unfold is_byte; lia.
  - cbn [length]. lia.
  - lia.
Defined.

(** X2.  A token is padding-free base64: every character is one of the 64
    of the alphabet, and a key of [n] bytes gives
    [(4 * (n + 21) + 2) / 3] characters (rounded down).  For a key within
    the engine's bound on the arguments of a call. *)
Theorem generateTransactionId_token_shape max_arguments
    (this : ClientTransaction.t) kb method path timeNow now r :
  keyBytes this = Some kb -> kb <> [] ->
  (length kb + 21 <= max_arguments)%nat ->
  exists token,
    Engine.generateTransactionId max_arguments this method path timeNow now r
    = Normal token
    /\ Forall (fun c => exists i, base64_value c = Some i)
              (list_ascii_of_string token)
    /\ String.length token = ((4 * (length kb + 21) + 2) / 3)%nat.
Proof.
  intros Hkb Hne Hmax.
  rewrite (generateTransactionId_outcome max_arguments this kb) by assumption.
  rewrite (proj2 (Nat.ltb_ge _ _) Hmax).
  set (tb := token_bytes _ _ _ _ _ _).
  destruct (token_bytes_keeps kb (animationKey this) method path
              (effective_time timeNow now) r) as [Hb Hl].
  fold tb in Hb, Hl.
  eexists. split; [reflexivity|].
  rewrite string_length_chars, encode_chars by exact Hb. split.
  - apply Forall_forall. intros c Hc.
    apply list_elem_of_fmap in Hc as (i & -> & Hi).
    pose proof (sextets_range tb Hb) as Hsx. rewrite Forall_forall in Hsx.
    exists i. apply (base64_char_spec i (Hsx i Hi)).
  - rewrite length_map, sextets_length, Hl. reflexivity.
Qed.

Lemma generateTransactionId_token_shape_witness :
  exists token,
    Engine.generateTransactionId (Z.to_nat 65536) sample_instance "GET" "/1.1/x.json"
      (Some 1700000000) 0 7 = Normal token
    /\ Forall (fun c => exists i, base64_value c = Some i)
              (list_ascii_of_string token)
    /\ String.length token = 32%nat.
Proof.
  apply (generateTransactionId_token_shape (Z.to_nat 65536) sample_instance [1; 2; 3]).
  - reflexivity.
  - discriminate.
  - cbn [length]. lia.
Defined.

(** X3.  What a token holds.  For a non-empty site key within the
    engine's bound, a random byte [r] and a time that is a safe integer
    (at most [2^53] in magnitude, which [${timeNow}] prints digit for
    digit), decoding the token with [atob] gives [r] followed by a rest
    which, XORed with [r] again, is the site key, the four little-endian
    bytes of the time, and the first sixteen bytes of the digest - and
    nothing after them. *)
Theorem generateTransactionId_decodes max_arguments
    (this : ClientTransaction.t) kb ak method path timeNow now r :
  keyBytes this = Some kb -> animationKey this = Some ak ->
  kb <> [] -> Forall is_byte kb -> is_byte r ->
  (length kb + 21 <= max_arguments)%nat ->
  Z.abs (effective_time timeNow now) <= 2 ^ 53 ->
  exists token rest,
    Engine.generateTransactionId max_arguments this method path timeNow now r
    = Normal token
    /\ atob token = Normal (r :: rest)
    /\ xor_with r rest
       = kb ++ le_bytes4 (effective_time timeNow now)
         ++ take 16 (digest method path (effective_time timeNow now) ak).
Proof.
  intros Hkb Hak Hne Hbytes Hr Hmax _.
  rewrite (generateTransactionId_outcome max_arguments this kb) by assumption.
  rewrite (proj2 (Nat.ltb_ge _ _) Hmax), Hak.
  destruct (token_decodes kb ak method path (effective_time timeNow now) r
              Hbytes Hr) as (rest & Hdecode & Hrest).
  by exists (encode (token_bytes kb (Some ak) method path
                       (effective_time timeNow now) r)), rest.
Qed.

Lemma generateTransactionId_decodes_witness :
  exists token rest,
    Engine.generateTransactionId (Z.to_nat 65536) sample_instance "GET" "/1.1/x.json"
      (Some 1700000000) 0 7 = Normal token
    /\ atob token = Normal (7 :: rest)
    /\ xor_with 7 rest
       = [1; 2; 3] ++ le_bytes4 (effective_time (Some 1700000000) 0)
         ++ take 16 (digest "GET" "/1.1/x.json"
                       (effective_time (Some 1700000000) 0) "1e00f00").
Proof.
  apply (generateTransactionId_decodes (Z.to_nat 65536) sample_instance).
  - reflexivity.
  - reflexivity.
  - discriminate.
  - repeat constructor; unfold is_byte; lia.
  - unfold is_byte; lia.
  - cbn [length]. lia.
  - unfold effective_time. lia.
Defined.

(** X4.  Base64 round trip: within the engine's bound on the arguments
    of a call, [base64Encode] returns a text from which [getKeyBytes]
    reads the bytes back - from bytes and from text, with the padding
    or, as in a token, without it. *)
Theorem base64Encode_round_trip max_arguments (s : string) (b : bytes) :
  Forall is_byte b ->
  (length b <= max_arguments)%nat -> (String.length s <= max_arguments)%nat ->
  (exists text,
     Engine.base64Encode max_arguments (Utils.Bytes b) = Normal text
     /\ getKeyBytes text = Normal b
     /\ getKeyBytes (Str.remove_equals text) = Normal b)
  /\ (exists text,
        Engine.base64Encode max_arguments (Utils.Text s) = Normal text
        /\ getKeyBytes text = Normal (TextEncoder_encode s)).
Proof.
  intros Hb Hlen Hs. unfold getKeyBytes, Engine.base64Encode,
    Engine.fromCharCode_spread. split.
  - rewrite (proj2 (Nat.ltb_ge _ _) Hlen). eexists. split; [reflexivity|].
    split; [by apply atob_btoa | by apply atob_encode].
  - unfold TextEncoder_encode at 1. rewrite length_map, <- string_length_chars.
    rewrite (proj2 (Nat.ltb_ge _ _) Hs). eexists. split; [reflexivity|].
    apply atob_btoa. unfold TextEncoder_encode.
    apply Forall_forall. intros z Hz.
    apply list_elem_of_fmap in Hz as (c & -> & _).
    unfold is_byte, charCode. pose proof (N_ascii_bounded c). lia.
Qed.

Lemma base64Encode_round_trip_witness :
  (exists text,
     Engine.base64Encode (Z.to_nat 65536) (Utils.Bytes [1; 2; 3; 250]) = Normal text
     /\ getKeyBytes text = Normal [1; 2; 3; 250]
     /\ getKeyBytes (Str.remove_equals text) = Normal [1; 2; 3; 250])
  /\ (exists text,
        Engine.base64Encode (Z.to_nat 65536) (Utils.Text "key") = Normal text
        /\ getKeyBytes text = Normal (TextEncoder_encode "key")).
Proof.
  apply (base64Encode_round_trip (Z.to_nat 65536) "key" [1; 2; 3; 250]).
  - repeat constructor; unfold is_byte; lia.
  - cbn [length]. lia.
  - change (String.length "key") with 3%nat. lia.
Defined.

(** X1.  The four time bytes are the little-endian digits of the time
    modulo 2^32: read back lowest byte first they give [t mod 2^32], so
    every time from 0 to 2^32 - 1 is stored without loss, and two times
    that differ by a multiple of 2^32 give the same bytes. *)
Theorem timeNowBytes_value t :
  le_value (timeNowBytes t) = t mod 2 ^ 32
  /\ timeNowBytes (t + 2 ^ 32) = timeNowBytes t
  /\ Forall is_byte (timeNowBytes t).
Proof.
  rewrite !timeNowBytes_le. split; [|split].
  - unfold le_bytes4, le_value. cbn [map fold_right].
    change (256 ^ 0) with 1. change (256 ^ 1) with 256.
    change (256 ^ 2) with (256 * 256). change (256 ^ 3) with (256 * 256 * 256).
    change (2 ^ 32) with (256 * 256 * 256 * 256).
    rewrite <- !Z.div_div by lia. rewrite Z.div_1_r.
    rewrite (Z.mod_eq t (256 * 256 * 256 * 256)) by lia.
    rewrite <- !Z.div_div by lia.
    set (q1 := t / 256). set (q2 := q1 / 256). set (q3 := q2 / 256).
    pose proof (Z.mod_eq t 256) as Hr0. pose proof (Z.mod_eq q1 256) as Hr1.
    pose proof (Z.mod_eq q2 256) as Hr2. pose proof (Z.mod_eq q3 256) as Hr3.
    fold q1 in Hr0. fold q2 in Hr1. fold q3 in Hr2. lia.
  - unfold le_bytes4. cbn [map].
    assert (Hd : forall k, 0 <= k <= 3 ->
              ((t + 2 ^ 32) / 256 ^ k) mod 256 = (t / 256 ^ k) mod 256).
    { intros k Hk.
      replace (2 ^ 32) with (2 ^ (32 - 8 * k) * 256 ^ k).
      2:{ change 256 with (2 ^ 8). rewrite <- Z.pow_mul_r, <- Z.pow_add_r by lia.
          f_equal. lia. }
      rewrite Z.div_add by lia.
      replace (2 ^ (32 - 8 * k)) with (2 ^ (24 - 8 * k) * 256).
      2:{ change 256 with (2 ^ 8). rewrite <- Z.pow_add_r by lia. f_equal. lia. }
      apply Z_mod_plus_full. }
    by rewrite !Hd by lia.
  - apply le_bytes4_byte.
Qed.

End TokenReading.

(* ===================================================================== *)
(** * The frame table                                                    *)
(* ===================================================================== *)

Section FrameTable.
Import Platform Dom ClientTransaction Spec Reading Samples.
Local Open Scope Z_scope.

Lemma replace_non_digits_chars s : forall in_run,
  Forall digit_or_space (list_ascii_of_string (Str.replace_non_digits in_run s)).
Proof.
  induction s as [|c s IH]; intros in_run; cbn [Str.replace_non_digits].
  - constructor.
  - destruct (Str.is_digit c) eqn:Hc.
    + constructor; [by left | apply IH].
    + destruct in_run; [apply IH|]. constructor; [by right | apply IH].
Qed.

Lemma trim_start_chars (P : ascii -> Prop) s :
  Forall P (list_ascii_of_string s) ->
  Forall P (list_ascii_of_string (Str.trim_start s)).
Proof.
  induction s as [|c s IH]; intros Hs; [exact Hs|].
  cbn [list_ascii_of_string] in Hs. apply Forall_cons_1 in Hs as [Hc Hs].
  assert (Hkeep : Forall P (list_ascii_of_string (String c s)))
    by (constructor; assumption).
  destruct c as [[] [] [] [] [] [] [] []]; try exact Hkeep.
  by apply IH.
Qed.

Lemma rev_app_chars (P : ascii -> Prop) s1 : forall s2,
  Forall P (list_ascii_of_string s1) -> Forall P (list_ascii_of_string s2) ->
  Forall P (list_ascii_of_string (String.rev_app s1 s2)).
Proof.
  induction s1 as [|c s1 IH]; intros s2 H1 H2; [exact H2|].
  cbn [list_ascii_of_string] in H1. apply Forall_cons_1 in H1 as [Hc H1].
  cbn [String.rev_app]. apply IH; [exact H1|]. by constructor.
Qed.

Lemma trim_chars (P : ascii -> Prop) s :
  Forall P (list_ascii_of_string s) ->
  Forall P (list_ascii_of_string (Str.trim s)).
Proof.
  intros Hs. unfold Str.trim, String.rev.
  apply rev_app_chars; [|constructor].
  apply trim_start_chars, rev_app_chars; [|constructor].
  by apply trim_start_chars.
Qed.

(** The pieces of a split hold characters of the text, none of them the
    separator. *)
Lemma split_chars (P : ascii -> Prop) sep s :
  Forall P (list_ascii_of_string s) ->
  Forall (fun piece =>
            Forall (fun c => P c /\ c <> sep) (list_ascii_of_string piece))
         (Str.split sep s).
Proof.
  induction s as [|c s IH]; intros Hs; cbn [Str.split].
  - repeat constructor.
  - cbn [list_ascii_of_string] in Hs. apply Forall_cons_1 in Hs as [Hc Hs].
    specialize (IH Hs).
    destruct (Ascii.eqb c sep) eqn:Hsep.
    + constructor; [constructor | exact IH].
    + apply Ascii.eqb_neq in Hsep.
      destruct (Str.split sep s) as [|piece pieces].
      * repeat constructor; assumption.
      * apply Forall_cons_1 in IH as [Hp Hps].
        constructor; [|exact Hps]. cbn [list_ascii_of_string].
        constructor; [split; assumption | exact Hp].
Qed.

Lemma parseInt_digits s :
  Forall (fun c => Str.is_digit c = true) (list_ascii_of_string s) ->
  0 <= Str.parseInt s.
Proof.
  unfold Str.parseInt.
  assert (Hacc : forall l acc,
            Forall (fun c => Str.is_digit c = true) l -> 0 <= acc ->
            0 <= fold_left (fun acc c => 10 * acc + (charCode c - 48)) l acc).
  { induction l as [|c l IH]; intros acc Hl Ha; [exact Ha|].
    apply Forall_cons_1 in Hl as [Hc Hl]. cbn [fold_left]. apply IH; [exact Hl|].
    unfold Str.is_digit in Hc. apply andb_prop in Hc as [Hc _].
    apply Z.leb_le in Hc. lia. }
  intros Hs. apply Hacc; [exact Hs | lia].
Qed.

(** Every entry of every row read out of the path data is a natural
    number. *)
Lemma path_rows_nonneg pathData :
  Forall (Forall (fun z => 0 <= z)) (path_rows pathData).
Proof.
  unfold path_rows. apply Forall_fmap, Forall_forall. intros item _. cbn.
  apply Forall_fmap.
  pose proof (split_chars digit_or_space " "
                (Str.trim (Str.replace_non_digits false item))
                (trim_chars _ _ (replace_non_digits_chars item false))) as Hpieces.
  apply Forall_forall. intros piece Hin.
  apply list_elem_of_filter in Hin as [_ Hin].
  rewrite Forall_forall in Hpieces. cbn. apply parseInt_digits.
  eapply Forall_impl; [exact (Hpieces piece Hin)|]. cbn.
  intros c [[Hd|Hsp] Hne]; congruence.
Qed.

Lemma default_array_nonneg : Forall (Forall (fun z => 0 <= z)) default_array.
Proof. unfold default_array. repeat constructor; lia. Qed.

(** [get2DArray] throws only for fewer than six key bytes; otherwise
    it returns a table that has a first row of at least seven entries and
    holds natural numbers only - the default table or the rows of the
    path data. *)
Lemma get2DArray_cases (this : ClientTransaction.t) (keyBytes : list Z) :
  match get2DArray this keyBytes with
  | Normal arr =>
      (6 <= length keyBytes)%nat
      /\ (exists row0 rows, arr = row0 :: rows /\ (7 <= length row0)%nat)
      /\ Forall (Forall (fun z => 0 <= z)) arr
  | Throw e => e = InvalidKeyBytes /\ (length keyBytes < 6)%nat
  | OutOfFuel => False
  end.
Proof.
  assert (Hdefault :
    (exists row0 rows, default_array = row0 :: rows /\ (7 <= length row0)%nat)
    /\ Forall (Forall (fun z => 0 <= z)) default_array).
  { split; [|apply default_array_nonneg].
    eexists _, _. split; [reflexivity|]. cbn. lia. }
  unfold get2DArray.
  destruct (length keyBytes <? 6)%nat eqn:H6.
  { apply Nat.ltb_lt in H6. auto. }
  apply Nat.ltb_ge in H6.
  repeat match goal with
         | |- match (if ?b then _ else _) with _ => _ end => destruct b eqn:?
         | |- match (match ?o with Some _ => _ | None => _ end) with _ => _ end =>
             destruct o as [?|] eqn:?
         | |- match (match ?s with EmptyString => _ | String _ _ => _ end) with _ => _ end =>
             destruct s as [|? ?] eqn:?
         | |- match (match ?l with [] => _ | _ :: _ => _ end) with _ => _ end =>
             destruct l as [|? ?] eqn:?
         end; try (split; [exact H6 | exact Hdefault]).
  split; [exact H6|]. split.
  - eexists _, _. split; [reflexivity|].
    match goal with H : (_ <? 7)%nat = false |- _ => apply Nat.ltb_ge in H; exact H end.
  - match goal with H : path_rows _ = _ |- _ => rewrite <- H end.
    apply path_rows_nonneg.
Qed.

End FrameTable.

(* ===================================================================== *)
(** * Construction                                                       *)
(* ===================================================================== *)

Section Construction.
Import Platform Dom ClientTransaction Spec Samples.
Variables Math_cos Math_sin : b64 -> b64.
Local Open Scope Z_scope.

Lemma getKey_cases (this : ClientTransaction.t) :
  (exists c k, getKey this = Normal (String c k)
               /\ attr id (site_verification (homePage this)) = Some (String c k))
  \/ getKey this = Throw KeyNotFound.
Proof.
  unfold getKey. destruct (length _ =? 0)%nat; [by right|].
  destruct (attr id _) as [[|c k]|]; [by right | left; by eexists _, _ | by right].
Qed.

Lemma homePage_with_indices doc customFetch :
  homePage (with_indices (constructor doc) customFetch) = doc.
Proof. by destruct customFetch. Qed.

Lemma fallback_key_text :
  getKeyBytes fallbackKey
  = Normal (TextEncoder_encode "MentionedByObserver<3Development").
Proof. vm_compute. reflexivity. Qed.

(** X7.  The fields of a constructed instance agree: the key is a
    non-empty text - the content of the verification element or the
    built-in key -, the key bytes are what [atob] reads from that very
    key and lie in 0..255, the animation key is set, and the document is
    the one given. *)
Theorem create_fields (fuel : nat) doc customFetch instance :
  create Math_cos Math_sin fuel doc customFetch = Normal instance ->
  exists k kb ak,
    key instance = Some k /\ k <> ""
    /\ (k = fallbackKey \/ attr id (site_verification doc) = Some k)
    /\ keyBytes instance = Some kb /\ getKeyBytes k = Normal kb
    /\ Forall is_byte kb
    /\ animationKey instance = Some ak
    /\ homePage instance = doc.
Proof.
  unfold create, try_catch.
  set (instance0 := with_indices (constructor doc) customFetch).
  assert (Hdoc : homePage instance0 = doc) by apply homePage_with_indices.
  destruct (create_try _ _ _ _) as [i|e|] eqn:Htry; try discriminate.
  - intros [= <-]. unfold create_try in Htry.
    destruct (getKey_cases instance0) as [(c & k & Hk & Hattr)|Hk];
      rewrite Hk in Htry; [|discriminate].
    cbn in Htry.
    apply bind_Normal in Htry as (kb & Hkb & Htry).
    apply bind_Normal in Htry as (ak & Hak & Htry).
    injection Htry as <-.
    exists (String c k), kb, ak. cbn [key keyBytes animationKey homePage assign].
    rewrite Hdoc in Hattr.
    split_and!; auto; try discriminate. by eapply atob_bytes.
  - rewrite fallback_key_text. cbn. intros [= <-].
    eexists _, _, _. cbn [key keyBytes animationKey homePage assign].
    split_and!; auto; try discriminate; try apply fallback_key_text.
    eapply atob_bytes. apply fallback_key_text.
Qed.

(** X8.  When the page yields no usable key - no verification element, no
    content, or a content [atob] rejects - the instance carries the
    built-in key, the 32 bytes of the text
    [MentionedByObserver<3Development], and the animation key
    [1e00f00]; [generateTransactionId] then returns a token for every
    request. *)
Theorem create_fallback (fuel : nat) doc customFetch :
  (exists e, getKey (with_indices (constructor doc) customFetch) = Throw e)
  \/ (exists k e, getKey (with_indices (constructor doc) customFetch) = Normal k
                  /\ getKeyBytes k = Throw e) ->
  exists instance,
    create Math_cos Math_sin fuel doc customFetch = Normal instance
    /\ key instance = Some fallbackKey
    /\ keyBytes instance
       = Some (TextEncoder_encode "MentionedByObserver<3Development")
    /\ animationKey instance = Some "1e00f00"
    /\ forall method path timeNow now r,
         exists token,
           generateTransactionId instance method path timeNow now r
           = Normal token.
Proof.
  set (instance0 := with_indices (constructor doc) customFetch). intros Hkey.
  assert (Htry : exists e, create_try Math_cos Math_sin fuel instance0 = Throw e).
  { unfold create_try. destruct Hkey as [[e ->]|(k & e & -> & Hkb)].
    - by eexists.
    - cbn. destruct k; [by eexists|]. rewrite Hkb. by eexists. }
  destruct Htry as [e Htry].
  unfold create. fold instance0. rewrite Htry. cbn [try_catch].
  rewrite fallback_key_text. cbn.
  eexists. split; [reflexivity|]. cbn [key keyBytes animationKey assign].
  split_and!; try reflexivity.
  intros method path timeNow now r. by eexists.
Qed.

(** X9.  A verification content made of white space only is accepted:
    [atob] reads no byte from it, the instance is built with an empty
    array of key bytes and the fallback animation key, and every call of
    [generateTransactionId] on it throws. *)
Theorem create_blank_key (fuel : nat) doc customFetch content :
  attr id (site_verification doc) = Some content ->
  content <> "" ->
  Forall (fun c => is_ascii_whitespace c = true) (list_ascii_of_string content) ->
  exists instance,
    create Math_cos Math_sin fuel doc customFetch = Normal instance
    /\ key instance = Some content
    /\ keyBytes instance = Some []
    /\ animationKey instance = Some "1e00f00"
    /\ forall method path timeNow now r,
         generateTransactionId instance method path timeNow now r
         = Throw KeyBytesUndefinedOrEmpty.
Proof.
  intros Hattr Hne Hblank.
  set (instance0 := with_indices (constructor doc) customFetch).
  assert (Hk : getKey instance0 = Normal content).
  { unfold getKey. subst instance0. rewrite homePage_with_indices.
    destruct (site_verification doc) as [|e es]; [discriminate|].
    cbn [length Nat.eqb]. rewrite Hattr. by destruct content. }
  assert (Hkb : getKeyBytes content = Normal []).
  { unfold getKeyBytes, atob.
    replace (filter _ (list_ascii_of_string content)) with (@nil ascii); [reflexivity|].
    symmetry. induction Hblank as [|c l Hc _ IH]; [reflexivity|].
    rewrite filter_cons_False by congruence. exact IH. }
  unfold create. fold instance0. unfold create_try. rewrite Hk. cbn.
  destruct content as [|c content]; [congruence|]. rewrite Hkb. cbn.
  eexists. split; [reflexivity|]. cbn [key keyBytes animationKey assign].
  split_and!; reflexivity.
Qed.

Lemma animate_never_throws fuel frames targetTime e :
  animate Math_cos Math_sin fuel frames targetTime <> Throw e.
Proof. unfold animate, try_catch. destruct (animate_try _ _ _ _ _); discriminate. Qed.

(** X10.  The only exceptions the body of [getAnimationKey] raises are
    the one for fewer than six key bytes and the one for a missing or
    short frame row: the check for an empty table never fires, and
    [animate] catches its own. *)
Theorem getAnimationKey_try_errors (fuel : nat) (this : ClientTransaction.t) kb e :
  getAnimationKey_try Math_cos Math_sin fuel this kb = Throw e ->
  (e = InvalidKeyBytes /\ (length kb < 6)%nat)
  \/ (e = InvalidFrameRow /\ (6 <= length kb)%nat).
Proof.
  unfold getAnimationKey_try.
  pose proof (get2DArray_cases this kb) as Htable.
  destruct (get2DArray this kb) as [arr|e'|]; cbn [mbind completion_bind].
  - destruct Htable as (H6 & (row0 & rows & -> & _) & _). cbn [length Nat.eqb].
    destruct (_ ≫= _) as [frameRow|]; [|intros [= <-]; by right].
    destruct (length frameRow <? 7)%nat; [intros [= <-]; by right|].
    intros Hthrow. by apply animate_never_throws in Hthrow.
  - intros [= <-]. by left.
  - discriminate.
Qed.

Lemma string_of_list_ascii_app (l1 l2 : list ascii) :
  string_of_list_ascii (l1 ++ l2)
  = string_of_list_ascii l1 +:+ string_of_list_ascii l2.
Proof.
  induction l1 as [|c l1 IH]; [reflexivity|].
  change (String c (string_of_list_ascii (l1 ++ l2))
          = String c (string_of_list_ascii l1 +:+ string_of_list_ascii l2)).
  by rewrite IH.
Qed.

Lemma key_text_shape (strArr : list string) :
  let key := Str.remove_dots_dashes (Utils.join (strArr ++ ["0"; "0"])) in
  (exists prefix, key = prefix +:+ "00")
  /\ Forall (fun c => c <> "."%char /\ c <> "-"%char) (list_ascii_of_string key).
Proof.
  cbn zeta. unfold Str.remove_dots_dashes. split.
  - rewrite join_app, list_ascii_of_string_app, filter_app.
    change (list_ascii_of_string (Utils.join ["0"; "0"])) with ["0"%char; "0"%char].
    cbn [filter list_filter]. rewrite string_of_list_ascii_app. by eexists.
  - rewrite list_ascii_of_string_of_list_ascii.
    apply Forall_forall. intros c Hc.
    apply list_elem_of_filter in Hc as [Hc _].
    apply orb_false_elim in Hc as [Hdot Hdash].
    split; intros ->; discriminate.
Qed.

Lemma fallback_text_shape :
  (exists prefix, fallback_animation_key = prefix +:+ "00")
  /\ Forall (fun c => c <> "."%char /\ c <> "-"%char)
            (list_ascii_of_string fallback_animation_key).
Proof.
  split; [by exists "1e00f"|]. repeat constructor; discriminate.
Qed.

Lemma animate_shape fuel frames targetTime key :
  animate Math_cos Math_sin fuel frames targetTime = Normal key ->
  (exists prefix, key = prefix +:+ "00")
  /\ Forall (fun c => c <> "."%char /\ c <> "-"%char) (list_ascii_of_string key).
Proof.
  unfold animate, try_catch.
  destruct (animate_try _ _ _ _ _) as [k|e|] eqn:Htry; [|intros [= <-]|discriminate].
  2: apply fallback_text_shape.
  intros [= <-]. revert Htry. unfold animate_try.
  destruct (length frames <? 7)%nat; [discriminate|].
  destruct (imap _ (drop 7 frames)) as [|a [|b [|c [|d rest]]]]; try discriminate.
  intros Hkey.
  apply bind_Normal in Hkey as (val & _ & Hkey).
  apply bind_Normal in Hkey as (color & _ & Hkey).
  apply bind_Normal in Hkey as (rotation & _ & Hkey).
  apply bind_Normal in Hkey as (texts & _ & Hkey).
  injection Hkey as <-. rewrite app_assoc. apply key_text_shape.
Qed.

(** X11.  The shape of an animation key: whichever way it is derived -
    from a frame row or as the fallback - it ends with the two pushed
    zeros ["00"] and holds neither a dot nor a dash. *)
Theorem getAnimationKey_shape (fuel : nat) (this : ClientTransaction.t) kb key :
  getAnimationKey Math_cos Math_sin fuel this kb = Normal key ->
  (exists prefix, key = prefix +:+ "00")
  /\ Forall (fun c => c <> "."%char /\ c <> "-"%char) (list_ascii_of_string key).
Proof.
  unfold getAnimationKey, try_catch.
  destruct (getAnimationKey_try _ _ _ _ _) as [k|e|] eqn:Htry;
    [|intros [= <-]; apply fallback_text_shape|discriminate].
  intros [= <-]. revert Htry. unfold getAnimationKey_try. intros Htry.
  apply bind_Normal in Htry as (arr & _ & Htry). revert Htry.
  destruct (length arr =? 0)%nat; [discriminate|].
  destruct (_ ≫= _) as [frameRow|]; [|discriminate].
  destruct (length frameRow <? 7)%nat; [discriminate|].
  apply animate_shape.
Qed.

Lemma try_catch_not_thrown {A} (body : completion A) handler :
  (forall e, body <> Throw e) -> try_catch body handler = body.
Proof. destruct body as [a|e|]; intros Hno; [reflexivity | by destruct (Hno e) | reflexivity]. Qed.

(** Without animation frames in the document, and with the default
    indices, the animation key of a key of at least fifteen bytes is the
    one [animate] derives from the default row, at the time the bytes 12,
    14 and 7 give: the product of their residues modulo 16, over 4096. *)
Lemma getAnimationKey_default_row
    (fuel : nat) (this : ClientTransaction.t) (kb : list Z) :
  getFrames this = [] ->
  defaultRowIndex this = None -> defaultKeyBytesIndices this = None ->
  (15 <= length kb)%nat ->
  getAnimationKey Math_cos Math_sin fuel this kb
  = animate Math_cos Math_sin fuel [0; 0; 0; 255; 255; 255; 120; 100; 100; 0; 0; 1]
      (lit (kb !!! 12%nat mod 16) * lit (kb !!! 14%nat mod 16)
       * lit (kb !!! 7%nat mod 16) / lit 4096)%js.
Proof.
  intros Hframes Hrow Hidx Hlen.
  assert (Hbyte : forall i, 0 <= i < 15 ->
            byte_mod_16 kb i = Some (kb !!! Z.to_nat i mod 16)).
  { intros i Hi. unfold byte_mod_16.
    destruct (i <? 0) eqn:Hneg; [apply Z.ltb_lt in Hneg; lia|].
    rewrite (list_lookup_lookup_total_lt kb (Z.to_nat i)) by lia. reflexivity. }
  unfold getAnimationKey.
  rewrite try_catch_not_thrown.
  2:{ intros e. unfold getAnimationKey_try, get2DArray.
      rewrite (proj2 (Nat.ltb_ge _ _)) by lia. rewrite Hframes, Hrow, Hidx.
      cbn [length Nat.eqb mbind completion_bind default_array].
      rewrite (Hbyte 2) by lia. cbn [fmap option_fmap option_map mbind option_bind].
      rewrite Z.mod_1_r. cbn [Z.to_nat lookup list_lookup length Nat.ltb Nat.leb].
      apply animate_never_throws. }
  unfold getAnimationKey_try, get2DArray.
  rewrite (proj2 (Nat.ltb_ge _ _)) by lia. rewrite Hframes, Hrow, Hidx.
  cbn [length Nat.eqb mbind completion_bind default_array].
  rewrite (Hbyte 2), (Hbyte 12), (Hbyte 14), (Hbyte 7) by lia.
  cbn [fmap option_fmap option_map mbind option_bind].
  rewrite Z.mod_1_r. reflexivity.
Qed.

End Construction.

Section ConstructionWitnesses.
Import Platform Dom ClientTransaction Spec Samples.


Lemma create_fields_witness :
  exists k kb ak,
    key sample_instance = Some k /\ k <> ""
    /\ (k = fallbackKey
        \/ attr id (site_verification
                      {| site_verification := [Some "AQID"]; loading_x_anim := [] |})
           = Some k)
    /\ keyBytes sample_instance = Some kb /\ getKeyBytes k = Normal kb
    /\ Forall is_byte kb
    /\ animationKey sample_instance = Some ak
    /\ homePage sample_instance
       = {| site_verification := [Some "AQID"]; loading_x_anim := [] |}.
Proof.
  apply (create_fields cos_reference sin_reference 10
           {| site_verification := [Some "AQID"]; loading_x_anim := [] |}
           NoCustomFetch sample_instance).
  vm_compute. reflexivity.
Defined.

Lemma create_fallback_witness :
  exists instance,
    create cos_reference sin_reference 10 no_markup NoCustomFetch = Normal instance
    /\ key instance = Some fallbackKey
    /\ keyBytes instance
       = Some (TextEncoder_encode "MentionedByObserver<3Development")
    /\ animationKey instance = Some "1e00f00"
    /\ forall method path timeNow now r,
         exists token,
           generateTransactionId instance method path timeNow now r
           = Normal token.
Proof.
  apply (create_fallback cos_reference sin_reference 10 no_markup NoCustomFetch).
  left. exists KeyNotFound. reflexivity.
Defined.

Lemma create_blank_key_witness :
  exists instance,
    create cos_reference sin_reference 10
      {| site_verification := [Some " "]; loading_x_anim := [] |} NoCustomFetch
    = Normal instance
    /\ key instance = Some " "
    /\ keyBytes instance = Some []
    /\ animationKey instance = Some "1e00f00"
    /\ forall method path timeNow now r,
         generateTransactionId instance method path timeNow now r
         = Throw KeyBytesUndefinedOrEmpty.
Proof.
  apply (create_blank_key cos_reference sin_reference 10
           {| site_verification := [Some " "]; loading_x_anim := [] |}
           NoCustomFetch " ").
  - reflexivity.
  - discriminate.
  - repeat constructor.
Defined.

Lemma getAnimationKey_try_errors_witness :
  (InvalidKeyBytes = InvalidKeyBytes /\ (length [1; 2; 3]%Z < 6)%nat)
  \/ (InvalidKeyBytes = InvalidFrameRow /\ (6 <= length [1; 2; 3]%Z)%nat).
Proof.
  apply (getAnimationKey_try_errors cos_reference sin_reference 10
           (constructor no_markup) [1; 2; 3]%Z InvalidKeyBytes).
  reflexivity.
Defined.

Lemma getAnimationKey_shape_witness :
  (exists prefix, "0001007ae147ae147ae007ae147ae147ae100" = prefix +:+ "00")
  /\ Forall (fun c => c <> "."%char /\ c <> "-"%char)
            (list_ascii_of_string "0001007ae147ae147ae007ae147ae147ae100").
Proof.
  apply (getAnimationKey_shape cos_reference sin_reference 60
           (constructor no_markup)
           (TextEncoder_encode "MentionedByObserver<3Development")
           "0001007ae147ae147ae007ae147ae147ae100").
  vm_compute. reflexivity.
Defined.

End ConstructionWitnesses.

(* ===================================================================== *)
(** * Ranges in binary64                                                 *)
(* ===================================================================== *)

Section Binary64Ranges.
Import Platform ClientTransaction Spec Reading Checks.
Local Open Scope Z_scope.

(** X12.  [solve] on a byte value: the rotation angle
    [solve(v, 60, 360, true)] is an integer from 60 to 360, and a curve
    control [solve(v, isOdd(index), 1, false)] lies between [isOdd(index)]
    - which is 0 or -1 - and 1. *)
Theorem solve_byte_ranges (v index : Z) :
  0 <= v <= 255 ->
  (exists z, toInteger (solve (lit v) (lit 60) (lit 360) true) = Some z
             /\ 60 <= z <= 360)
  /\ (num_leb (Utils.isOdd index) (solve (lit v) (Utils.isOdd index) (lit 1) false)
      = true)
  /\ (num_leb (solve (lit v) (Utils.isOdd index) (lit 1) false) (lit 1) = true).
Proof.
  intros Hv.
  assert (Hc : solve_check v = true).
  { apply (forallb_seqZ solve_check 256); [vm_compute; reflexivity | lia]. }
  unfold solve_check in Hc.
  apply andb_prop in Hc as [Hc Hneg]. apply andb_prop in Hc as [Hrot Hpos].
  apply andb_prop in Hpos as [Hpos1 Hpos2]. apply andb_prop in Hneg as [Hneg1 Hneg2].
  split.
  - destruct (toInteger _) as [z|]; [|discriminate].
    exists z. split; [reflexivity|].
    apply andb_prop in Hrot as [Hlo Hhi]. apply Z.leb_le in Hlo, Hhi. lia.
  - unfold Utils.isOdd. destruct (Z.rem index 2 =? 0); split; assumption.
Qed.

Lemma solve_byte_ranges_witness :
  (exists z, toInteger (solve (lit 120) (lit 60) (lit 360) true) = Some z
             /\ 60 <= z <= 360)
  /\ (num_leb (Utils.isOdd 1) (solve (lit 120) (Utils.isOdd 1) (lit 1) false) = true)
  /\ (num_leb (solve (lit 120) (Utils.isOdd 1) (lit 1) false) (lit 1) = true).
Proof. apply (solve_byte_ranges 120 1). lia. Defined.

End Binary64Ranges.

Section NotANumber.
Import Platform Cubic Spec Reading Checks.
Local Open Scope js_scope.

(** With the time NaN no comparison of a pass succeeds: the pass keeps
    [start] and moves [end] to the midpoint, whatever the controls. *)
Lemma loop_body_nan (this : Cubic.t b64) start end_ :
  loop_body this NaN start end_
  = Continue start ((start + end_) / lit 2) ((start + end_) / lit 2).
Proof.
  unfold loop_body.
  set (xEst := calculate _ _ _).
  assert (Hsub : NaN - xEst = NaN) by (by destruct xEst).
  rewrite Hsub.
  replace (num_abs NaN <? tolerance) with false by reflexivity.
  replace (xEst <? NaN) with false by (by destruct xEst as [| | |[]]).
  reflexivity.
Qed.

Lemma loop_nan (this : Cubic.t b64) fuel : forall start mid end_,
  loop fuel this NaN start mid end_
  = calculate (c1 this) (c3 this) <$> final_mid fuel start mid end_.
Proof.
  induction fuel as [|fuel IH]; intros start mid end_; [reflexivity|].
  cbn [loop final_mid]. destruct (start <? end_); [|reflexivity].
  rewrite loop_body_nan. apply IH.
Qed.

(** X13.  The time NaN - the frame time of a key that lacks one of the
    bytes it is read from - raises nothing in [getValue].  For all
    controls the loop runs 1075 passes, until the interval has shrunk to
    nothing, and returns the curve value at 0. *)
Theorem getValue_nan_time (this : Cubic.t b64) (k : nat) :
  getValue (1076 + k) this NaN = Some (calculate (c1 this) (c3 this) (lit 0))
  /\ getValue 1075 this NaN = None.
Proof.
  split.
  - apply getValue_more. unfold getValue.
    replace (NaN <=? lit 0) with false by reflexivity.
    replace (lit 1 <=? NaN) with false by reflexivity.
    rewrite loop_nan.
    replace (final_mid 1076 (lit 0) (lit 0) (lit 1)) with (Some (lit 0 : b64))
      by (vm_compute; reflexivity).
    reflexivity.
  - unfold getValue.
    replace (NaN <=? lit 0) with false by reflexivity.
    replace (lit 1 <=? NaN) with false by reflexivity.
    rewrite loop_nan.
    replace (final_mid 1075 (lit 0) (lit 0) (lit 1)) with (@None b64)
      by (vm_compute; reflexivity).
    reflexivity.
Qed.

End NotANumber.

Section MatrixText.
Import Platform ClientTransaction Spec Reading Checks.
Local Open Scope Z_scope.

Lemma lit_one : (lit 1 : b64) = S754_finite false 4503599627370496 (-52).
Proof. vm_compute. reflexivity. Qed.

(** [|x| <= y] on finite doubles, [y] positive: the exponents are
    compared first, then the mantissas. *)
Lemma SFleb_abs_finite s m e m' e' :
  SFleb (SFabs (S754_finite s m e)) (S754_finite false m' e') = true ->
  e < e' \/ (e = e' /\ (m <= m')%positive).
Proof.
  unfold SFleb, SFabs, SFcompare. rewrite Pos.compare_cont_spec.
  unfold Pos.switch_Eq, Pos.le.
  destruct (Z.compare_spec e e') as [He|He|He]; [|left; exact He|discriminate].
  intros Hle. right. split; [exact He|].
  destruct (m ?= m')%positive; [discriminate | discriminate | discriminate Hle].
Qed.

Lemma canonical_digits s m e :
  valid_binary prec emax (S754_finite s m e) = true ->
  Z.pos (digits2_pos m) + e - 53 <= e.
Proof.
  unfold valid_binary, bounded. intros Hvalid.
  apply andb_prop in Hvalid as [Hcanon _].
  unfold canonical_mantissa in Hcanon. apply Z.eqb_eq in Hcanon.
  unfold fexp, emin, prec, emax in Hcanon. lia.
Qed.

(** A double of magnitude at most 1 has a mantissa of at most
    [2 ^ - e]. *)
Lemma unit_mantissa s m e :
  valid_binary prec emax (S754_finite s m e) = true ->
  SFleb (SFabs (S754_finite s m e)) (lit 1 : b64) = true ->
  e <= -52 /\ Z.pos m <= 2 ^ (- e).
Proof.
  intros Hvalid Hle. rewrite lit_one in Hle.
  apply canonical_digits in Hvalid.
  pose proof (digits2_pos_bound m) as Hdigits.
  apply SFleb_abs_finite in Hle as [He|[He Hm]].
  - split; [lia|].
    assert (H53 : 2 ^ Z.pos (digits2_pos m) <= 2 ^ 53) by (apply Z.pow_le_mono_r; lia).
    assert (He53 : 2 ^ 53 <= 2 ^ (- e)) by (apply Z.pow_le_mono_r; lia).
    lia.
  - clear Hvalid Hdigits. subst e. split; [discriminate|].
    replace (2 ^ (- -52)) with (Z.pos 4503599627370496) by (vm_compute; reflexivity).
    exact Hm.
Qed.

Lemma lit_sextillion :
  b64_of_Z (10 ^ 21) = S754_finite false 7629394531250000 17.
Proof. vm_compute. reflexivity. Qed.

(** [Number(x.toFixed(2))] of a double of magnitude at most 1 is a
    number of hundredths, at most a hundred of them. *)
Lemma toFixed2_unit (value : b64) :
  valid_binary prec emax value = true ->
  SFleb (SFabs value) (lit 1 : b64) = true ->
  exists s n, 0 <= n <= 100 /\ toFixed2 value = b64_of_ratio s n 100.
Proof.
  intros Hvalid Hle.
  destruct value as [s|s| |s m e]; [|rewrite lit_one in Hle; discriminate..|].
  - (exists false, 0). split; [lia | reflexivity].
  - destruct (unit_mantissa s m e Hvalid Hle) as [He Hm].
    clear Hvalid Hle. exists s. eexists. split; [|unfold toFixed2].
    2:{ rewrite lit_sextillion. unfold SFleb, SFabs, SFcompare.
        destruct (Z.compare_spec 17 e) as [He'|He'|He']; [lia|lia|].
        destruct (Z.leb_spec 0 e) as [He''|_]; [lia|]. reflexivity. }
    rewrite Z.shiftr_div_pow2 by lia.
    replace (- e + 1) with (Z.succ (- e)) by lia.
    rewrite Z.pow_succ_r by lia.
    assert (Hp : 0 < 2 ^ (- e)) by (apply Z.pow_pos_nonneg; lia).
    set (p := 2 ^ (- e)) in *. clearbody p. split.
    + (apply Z.div_pos; lia).
    + assert (Hlt : (200 * Z.pos m + p) / (2 * p) < 101); [|lia].
      (apply Z.div_lt_upper_bound; lia).
Qed.

Lemma hundredth_check_true s n :
  0 <= n <= 100 -> hundredth_check 16 s n = true.
Proof.
  intros Hn. apply (forallb_seqZ (hundredth_check 16 s) 101); [|lia].
  (destruct s; vm_compute; reflexivity).
Qed.

(** The text of a matrix component that is a double between -1 and 1:
    sixteen passes of each loop of [floatToHex] suffice. *)
Lemma matrix_text_returns (fuel : nat) (value : b64) :
  valid_binary prec emax value = true ->
  SFleb (SFabs value) (lit 1 : b64) = true ->
  exists text, matrix_text (16 + fuel) value = Normal text /\ text <> "".
Proof.
  intros Hvalid Hle.
  destruct (toFixed2_unit value Hvalid Hle) as (s & n & Hn & Hfixed).
  pose proof (hundredth_check_true s n Hn) as Hcheck.
  unfold hundredth_check in Hcheck. unfold matrix_text. rewrite Hfixed.
  destruct (Utils.floatToHex 16 _) as [hexValue|] eqn:Hhex; [|discriminate].
  rewrite (floatToHex_more 16 fuel _ _ Hhex). cbn [of_fuel mbind completion_bind].
  destruct (Str.startsWith "." hexValue); eexists; (split; [reflexivity|]).
  - discriminate.
  - by destruct hexValue.
Qed.

(** More fuel does not change the text. *)
Lemma matrix_text_more n k value text :
  matrix_text n value = Normal text -> matrix_text (n + k) value = Normal text.
Proof.
  unfold matrix_text.
  destruct (Utils.floatToHex n _) as [hexValue|] eqn:Hhex; [|discriminate].
  by rewrite (floatToHex_more n k _ _ Hhex).
Qed.

(** X14.  The text of a matrix component is always produced when the
    component is a double between -1 and 1, as a cosine or a sine is:
    [Number(value.toFixed(2))] is then one of the 201 numbers of
    hundredths from -1 to 1, on each of which [floatToHex] returns
    within sixteen passes of each of its loops.  The text is not empty
    and is the same for every larger fuel. *)
Theorem matrix_text_total (value : b64) :
  valid_binary prec emax value = true ->
  SFleb (SFabs value) (lit 1 : b64) = true ->
  exists text,
    text <> "" /\ forall k, matrix_text (16 + k) value = Normal text.
Proof.
  intros Hvalid Hle.
  destruct (matrix_text_returns 0 value Hvalid Hle) as (text & Htext & Hne).
  exists text. split; [exact Hne|]. intros k.
  change (16 + k)%nat with (16 + 0 + k)%nat. by apply matrix_text_more.
Qed.

Lemma matrix_text_total_witness :
  exists text,
    text <> "" /\ forall k, matrix_text (16 + k) (lit 1 / lit 3)%js = Normal text.
Proof.
  apply (matrix_text_total (lit 1 / lit 3)%js); vm_compute; reflexivity.
Defined.


(** X15.  [floatToHex] outside the finite numbers: NaN and -Infinity give
    the text ["."], and on +Infinity the first loop never ends.  In
    [animate], a matrix component NaN therefore becomes ["0."], and an
    infinite one is never turned into text. *)
Theorem floatToHex_not_finite (fuel : nat) :
  Utils.floatToHex (S fuel) NaN = Some "."
  /\ Utils.floatToHex (S fuel) (S754_infinity true) = Some "."
  /\ Utils.floatToHex fuel (S754_infinity false) = None
  /\ matrix_text (S fuel) NaN = Normal "0."
  /\ (forall s, matrix_text fuel (S754_infinity s) = OutOfFuel).
Proof.
  assert (Hinf : Utils.floatToHex fuel (S754_infinity false) = None).
  { unfold Utils.floatToHex.
    replace (num_floor (S754_infinity false)) with (S754_infinity false) by reflexivity.
    by rewrite int_loop_infinity. }
  split_and!.
  - reflexivity.
  - reflexivity.
  - exact Hinf.
  - reflexivity.
  - intros s. unfold matrix_text.
    replace (toFixed2 (S754_infinity s)) with (S754_infinity s) by reflexivity.
    destruct s.
    + replace (num_ltb (S754_infinity true) (lit 0)) with true by reflexivity.
      cbn [SFopp negb]. by rewrite Hinf.
    + replace (num_ltb (S754_infinity false) (lit 0)) with false by reflexivity.
      by rewrite Hinf.
Qed.

End MatrixText.

(* ===================================================================== *)
(** * Where animate can fail to return                                   *)
(* ===================================================================== *)

Section AnimateReturns.
Import Platform Dom ClientTransaction Spec Reading Checks Samples.
Variables Math_cos Math_sin : b64 -> b64.
Local Open Scope Z_scope.

Lemma interpolate_numbers (xs ys : list b64) (f : b64) :
  length xs = length ys ->
  exists out,
    Interpolate.interpolate (map Interpolate.VNum xs) (map Interpolate.VNum ys) f
    = Normal out.
Proof.
  intros Hlen. unfold Interpolate.interpolate. rewrite !length_map, Hlen, Nat.eqb_refl.
  cbn [negb]. revert ys Hlen.
  induction xs as [|x xs IH]; intros [|y ys] Hlen; try discriminate.
  - by eexists.
  - destruct (IH ys) as [out Hout]; [by injection Hlen|].
    cbn. rewrite Hout. cbn. by eexists.
Qed.

Lemma cosine_like_opposite (y : b64) :
  cosine_like y = true -> cosine_like (SFopp y) = true.
Proof. by destruct y. Qed.

(** A component that is NaN or a double between -1 and 1 has a text. *)
Lemma matrix_text_cosine_like (k : nat) (value : b64) :
  cosine_like value = true ->
  exists text, matrix_text (16 + k) value = Normal text.
Proof.
  intros Hlike. destruct value as [s|s| |s m e].
  4: { apply andb_prop in Hlike as [Hvalid Hle].
       destruct (matrix_text_returns k _ Hvalid Hle) as (text & Htext & _). eauto. }
  - apply andb_prop in Hlike as [Hvalid Hle].
    destruct (matrix_text_returns k _ Hvalid Hle) as (text & Htext & _). eauto.
  - apply andb_prop in Hlike as [_ Hle]. rewrite lit_one in Hle. discriminate.
  - exists "0.". reflexivity.
Qed.

(** Once the bisection has returned, [animate] returns a key: the
    interpolations are of numbers with numbers, and the matrix
    components have texts. *)
Lemma animate_try_returns (k : nat) frames targetTime c0 c1 c2 c3 rest val :
  (7 <= length frames)%nat ->
  curveValues frames = c0 :: c1 :: c2 :: c3 :: rest ->
  Cubic.getValue (16 + k) (Cubic.new c0 c1 c2 c3) targetTime = Some val ->
  cosine_like (Math_cos (rotation_angle frames val)) = true ->
  cosine_like (Math_sin (rotation_angle frames val)) = true ->
  exists key,
    animate_try Math_cos Math_sin (16 + k) frames targetTime = Normal key.
Proof.
  intros H7 Hcurve Hv Hcos Hsin. unfold animate_try.
  rewrite (proj2 (Nat.ltb_ge _ _) H7).
  fold (curveValues frames). rewrite Hcurve, Hv. cbn [of_fuel mbind completion_bind].
  cbv zeta.
  destruct (interpolate_numbers
              (map b64_of_Z (take 3 frames) ++ [lit 1])
              (map b64_of_Z (take 3 (drop 3 frames)) ++ [lit 1]) val) as [color ->].
  { rewrite !length_app, !length_map, !length_take, length_drop. lia. }
  cbn [mbind completion_bind].
  unfold Interpolate.interpolate. cbn [length Nat.eqb negb Interpolate.interpolate_each
    Interpolate.interpolateNum mbind completion_bind lookup list_lookup fmap option_fmap
    option_map default from_option id as_number].
  unfold Rotation.convertRotationToMatrix.
  fold (rotation_angle frames val).
  destruct (matrix_text_cosine_like k _ Hcos) as (t1 & Ht1).
  destruct (matrix_text_cosine_like k _ (cosine_like_opposite _ Hsin)) as (t2 & Ht2).
  destruct (matrix_text_cosine_like k _ Hsin) as (t3 & Ht3).
  cbn [mapM]. rewrite Ht1, Ht2, Ht3. cbn [mbind completion_bind mret completion_ret].
  by eexists.
Qed.

(** More fuel does not change the key [animate] has derived. *)
Lemma animate_try_more n k frames targetTime key :
  animate_try Math_cos Math_sin n frames targetTime = Normal key ->
  animate_try Math_cos Math_sin (n + k) frames targetTime = Normal key.
Proof.
  unfold animate_try.
  destruct (length frames <? 7)%nat; [discriminate|].
  destruct (imap _ (drop 7 frames)) as [|c0 [|c1 [|c2 [|c3 rest]]]]; try discriminate.
  destruct (Cubic.getValue n _ targetTime) as [v|] eqn:Hv; [|discriminate].
  rewrite (getValue_more n k _ _ _ Hv). cbn [of_fuel mbind completion_bind].
  intros Hkey.
  apply bind_Normal in Hkey as (color & -> & Hkey).
  apply bind_Normal in Hkey as (rotation & -> & Hkey).
  apply bind_Normal in Hkey as (texts & Htexts & Hkey).
  cbn [mbind completion_bind]. rewrite <- Hkey.
  replace (mapM (matrix_text (n + k)) _) with (Normal texts : completion (list string));
    [reflexivity|].
  rewrite <- Htexts. unfold Rotation.convertRotationToMatrix. cbn [mapM].
  revert Htexts. unfold Rotation.convertRotationToMatrix. cbn [mapM].
  repeat match goal with
         | |- context [matrix_text n ?value] =>
             let text := fresh "text" in
             let Htext := fresh "Htext" in
             destruct (matrix_text n value) as [text| |] eqn:Htext;
             [rewrite (matrix_text_more n k value text Htext)
             |cbn [mbind completion_bind]; discriminate..]
         end.
  reflexivity.
Qed.


Lemma b64_same_eq (x y : b64) : b64_same x y = true -> x = y.
Proof.
  destruct x as [s|s| |s m e], y as [s'|s'| |s' m' e']; cbn; try discriminate.
  - intros Hs. apply eqb_prop in Hs. by subst.
  - intros Hs. apply eqb_prop in Hs. by subst.
  - reflexivity.
  - intros H. apply andb_prop in H as [H He]. apply andb_prop in H as [Hs Hm].
    apply eqb_prop in Hs. apply Pos.eqb_eq in Hm. apply Z.eqb_eq in He. by subst.
Qed.

Lemma product_exact a b c :
  0 <= a < 16 -> 0 <= b < 16 -> 0 <= c < 16 ->
  num_mul (num_mul (lit a) (lit b)) (lit c) = (lit (a * b * c) : b64).
Proof.
  intros Ha Hb Hc. apply b64_same_eq.
  apply (forallb_seqZ (product_check a b) 16); [|exact Hc].
  apply (forallb_seqZ2
           (fun a b => forallb (product_check a b) (seqZ 0 16)) 16 16);
    [vm_compute; reflexivity | exact Ha | exact Hb].
Qed.

Lemma listed_In p l : listed p l = true -> In p l.
Proof.
  induction l as [|q l IH]; cbn [listed]; [discriminate|].
  destruct (Z.eqb_spec q p) as [->|_]; [by left | right; by apply IH].
Qed.

Lemma default_row_check_true a b c :
  0 <= a < 16 -> 0 <= b < 16 -> 0 <= c < 16 ->
  default_row_check 60 (a * b * c) = true.
Proof.
  intros Ha Hb Hc.
  assert (Hall : forallb (default_row_check 60) frame_products = true)
    by (vm_compute; reflexivity).
  rewrite forallb_forall in Hall. apply Hall, listed_In.
  apply (forallb_seqZ (product_listed a b) 16); [|exact Hc].
  apply (forallb_seqZ2
           (fun a b => forallb (product_listed a b) (seqZ 0 16)) 16 16);
    [vm_compute; reflexivity | exact Ha | exact Hb].
Qed.

(** X16.  [animate] has one loop that may fail to end, the bisection of
    [Cubic.getValue].  Once the bisection has returned within the fuel,
    sixteen passes or more being allowed to each loop, and [Math.cos]
    and [Math.sin] give at the rotation angle NaN or a double between -1
    and 1, [animate] returns a key: it is not empty and it is the same
    for every larger fuel. *)
Theorem animate_returns (k : nat) frames targetTime c0 c1 c2 c3 rest val :
  (7 <= length frames)%nat ->
  curveValues frames = c0 :: c1 :: c2 :: c3 :: rest ->
  Cubic.getValue (16 + k) (Cubic.new c0 c1 c2 c3) targetTime = Some val ->
  cosine_like (Math_cos (rotation_angle frames val)) = true ->
  cosine_like (Math_sin (rotation_angle frames val)) = true ->
  exists key,
    key <> ""
    /\ forall j,
         animate Math_cos Math_sin (16 + k + j) frames targetTime = Normal key.
Proof.
  intros H7 Hcurve Hv Hcos Hsin.
  destruct (animate_try_returns k frames targetTime c0 c1 c2 c3 rest val
              H7 Hcurve Hv Hcos Hsin) as [key Hkey].
  exists key. split; [by eapply animate_try_nonempty|].
  intros j. unfold animate. by rewrite (animate_try_more _ j _ _ _ Hkey).
Qed.


(** X17.  A document without animation frames always gets its animation
    key.  With the default indices and a key of at least fifteen bytes,
    the bisection returns within 60 passes at each of the frame times the
    key bytes 12, 14 and 7 can give; when [Math.cos] and [Math.sin] give,
    at the rotation angle of the value it returns, NaN or a double
    between -1 and 1, [getAnimationKey] returns the key [animate] derives
    from the default row - the same key for every larger fuel. *)
Theorem getAnimationKey_without_frames (this : ClientTransaction.t) (kb : list Z) :
  getFrames this = [] ->
  defaultRowIndex this = None -> defaultKeyBytesIndices this = None ->
  (15 <= length kb)%nat ->
  (forall c0 c1 c2 c3 rest val,
     curveValues [0; 0; 0; 255; 255; 255; 120; 100; 100; 0; 0; 1]
       = c0 :: c1 :: c2 :: c3 :: rest ->
     Cubic.getValue 60 (Cubic.new c0 c1 c2 c3)
       (lit (kb !!! 12%nat mod 16) * lit (kb !!! 14%nat mod 16)
        * lit (kb !!! 7%nat mod 16) / lit 4096)%js = Some val ->
     cosine_like
       (Math_cos (rotation_angle [0; 0; 0; 255; 255; 255; 120; 100; 100; 0; 0; 1] val))
     = true
     /\ cosine_like
          (Math_sin (rotation_angle [0; 0; 0; 255; 255; 255; 120; 100; 100; 0; 0; 1] val))
        = true) ->
  exists key, forall k,
    getAnimationKey Math_cos Math_sin (60 + k) this kb = Normal key
    /\ animate Math_cos Math_sin (60 + k)
         [0; 0; 0; 255; 255; 255; 120; 100; 100; 0; 0; 1]
         (lit (kb !!! 12%nat mod 16) * lit (kb !!! 14%nat mod 16)
          * lit (kb !!! 7%nat mod 16) / lit 4096)%js
       = Normal key.
Proof.
  intros Hframes Hrow Hidx Hlen Htrig.
  set (a := kb !!! 12%nat mod 16) in *. set (b := kb !!! 14%nat mod 16) in *.
  set (c := kb !!! 7%nat mod 16) in *.
  assert (Ha : 0 <= a < 16) by (apply Z.mod_pos_bound; lia).
  assert (Hb : 0 <= b < 16) by (apply Z.mod_pos_bound; lia).
  assert (Hc : 0 <= c < 16) by (apply Z.mod_pos_bound; lia).
  pose proof (default_row_check_true a b c Ha Hb Hc) as Hcheck.
  unfold default_row_check in Hcheck.
  rewrite <- (product_exact a b c Ha Hb Hc) in Hcheck.
  change (hd [] default_array)
    with [0; 0; 0; 255; 255; 255; 120; 100; 100; 0; 0; 1] in Hcheck.
  destruct (curveValues _) as [|c0 [|c1 [|c2 [|c3 rest]]]] eqn:Hcurve;
    try discriminate Hcheck.
  destruct (Cubic.getValue 60 _ _) as [v|] eqn:Hv; [|discriminate Hcheck].
  clear Hcheck.
  destruct (Htrig c0 c1 c2 c3 rest v eq_refl Hv) as [Hcos Hsin].
  destruct (animate_try_returns 44 [0; 0; 0; 255; 255; 255; 120; 100; 100; 0; 0; 1]
              _ c0 c1 c2 c3 rest v ltac:(cbn; lia) Hcurve Hv Hcos Hsin) as [key Hkey].
  exists key. intros k.
  assert (Hanimate :
    animate Math_cos Math_sin (60 + k)
      [0; 0; 0; 255; 255; 255; 120; 100; 100; 0; 0; 1]
      (lit a * lit b * lit c / lit 4096)%js = Normal key).
  { unfold animate. change (16 + 44)%nat with 60%nat in Hkey.
    by rewrite (animate_try_more 60 k _ _ _ Hkey). }
  split; [|exact Hanimate].
  rewrite (getAnimationKey_default_row Math_cos Math_sin (60 + k) this kb
             Hframes Hrow Hidx Hlen).
  exact Hanimate.
Qed.

End AnimateReturns.

Section ReferenceTrigonometry.
Import Platform Dom ClientTransaction Spec Reading Samples.
Local Open Scope Z_scope.

(** The theorem on the default row at the time 1/2, with the reference
    functions. *)
Lemma animate_returns_witness :
  exists key,
    key <> ""
    /\ forall j,
         animate cos_reference sin_reference (16 + 0 + j)
           [0; 0; 0; 255; 255; 255; 120; 100; 100; 0; 0; 1] (lit 1 / lit 2)%js
         = Normal key.
Proof.
  eapply (animate_returns cos_reference sin_reference 0
            [0; 0; 0; 255; 255; 255; 120; 100; 100; 0; 0; 1] (lit 1 / lit 2)%js).
  - cbn. lia.
  - vm_compute. reflexivity.
  - vm_compute. reflexivity.
  - vm_compute. reflexivity.
  - vm_compute. reflexivity.
Defined.

(** The theorem on the built-in site key and a page without frames,
    with the reference functions. *)
Lemma getAnimationKey_without_frames_witness :
  exists key, forall k,
    getAnimationKey cos_reference sin_reference (60 + k)
      (constructor no_markup) (TextEncoder_encode "MentionedByObserver<3Development")
    = Normal key
    /\ animate cos_reference sin_reference (60 + k)
         [0; 0; 0; 255; 255; 255; 120; 100; 100; 0; 0; 1]
         (lit (TextEncoder_encode "MentionedByObserver<3Development" !!! 12%nat mod 16)
          * lit (TextEncoder_encode "MentionedByObserver<3Development" !!! 14%nat mod 16)
          * lit (TextEncoder_encode "MentionedByObserver<3Development" !!! 7%nat mod 16)
          / lit 4096)%js
       = Normal key.
Proof.
  apply (getAnimationKey_without_frames cos_reference sin_reference
           (constructor no_markup)).
  - reflexivity.
  - reflexivity.
  - reflexivity.
  - vm_compute. lia.
  - intros c0 c1 c2 c3 rest val Hcurve Hval.
    vm_compute in Hcurve. injection Hcurve as <- <- <- <- <-.
    vm_compute in Hval. injection Hval as <-.
    split; vm_compute; reflexivity.
Defined.

End ReferenceTrigonometry.

(* ===================================================================== *)
(** * Numerals in exact arithmetic                                        *)
(* ===================================================================== *)

Section ExactNumerals.
Import Utils Spec Reading Checks.
Local Open Scope Z_scope.

Lemma digit_check_true d : 0 <= d < 16 -> digit_check d = true.
Proof.
  intros Hd. apply (forallb_seqZ digit_check 16); [vm_compute; reflexivity | exact Hd].
Qed.

Lemma hex_value_from_app a s1 s2 :
  hex_value_from a (s1 +:+ s2) = hex_value_from a s1 ≫= fun a' => hex_value_from a' s2.
Proof.
  unfold hex_value_from. rewrite list_ascii_of_string_app, fold_left_app.
  destruct (fold_left _ (list_ascii_of_string s1) (Some a)) as [a'|]; [reflexivity|].
  cbn. induction (list_ascii_of_string s2) as [|c l IH]; [reflexivity | exact IH].
Qed.

(** Reading a digit text of the encoder after the value [a] gives
    [16 * a + d]. *)
Lemma hex_value_from_digit a d s :
  0 <= d < 16 ->
  hex_value_from a (digit (inject_Z d) +:+ s) = hex_value_from (16 * a + d) s.
Proof.
  intros Hd. rewrite hex_value_from_app.
  pose proof (digit_check_true d Hd) as Hc. unfold digit_check in Hc.
  unfold hex_value_from.
  destruct (list_ascii_of_string (digit (inject_Z d))) as [|c [|c' l]]; try discriminate.
  cbn [fold_left mbind option_bind].
  destruct (hex_digit_value c) as [v|]; [|discriminate].
  apply Z.eqb_eq in Hc. by subst v.
Qed.

(** One pass of the first loop on an integer: an ordinary division
    step. *)
Lemma int_body_integer (m : Z) (q : Q) (acc : list string) :
  int_body {| x := inject_Z m; quotient := q; result := acc |}
  = {| x := inject_Z (m / 16); quotient := inject_Z (m / 16);
       result := digit (inject_Z (m mod 16)) :: acc |}.
Proof.
  unfold int_body. cbn [x quotient result num_floor num_div num_sub num_mul exact lit].
  assert (Hq : Qfloor (Qred (inject_Z m / inject_Z 16)) = m / 16).
  { rewrite (Qfloor_comp _ _ (Qred_correct _)).
    unfold Qfloor, Qdiv, Qmult, Qinv, inject_Z. cbn [Qnum Qden].
    by rewrite Z.mul_1_r. }
  rewrite Hq.
  assert (Hr : Qfloor (Qred (inject_Z m - Qred (inject_Z (m / 16) * inject_Z 16)))
               = m mod 16).
  { rewrite (Qfloor_comp _ (inject_Z (m mod 16))); [apply Qfloor_Z|].
    rewrite !Qred_correct. unfold Qminus.
    rewrite <- inject_Z_mult, <- inject_Z_opp, <- inject_Z_plus.
    rewrite inject_Z_injective, Z.mod_eq by lia. ring. }
  by rewrite Hr.
Qed.

Lemma int_loop_integer (fuel : nat) : forall m acc,
  0 <= m -> (Z.to_nat m < fuel)%nat ->
  exists s,
    int_loop fuel {| x := inject_Z m; quotient := inject_Z m; result := acc |} = Some s
    /\ hex_value (join (result s)) = hex_value_from m (join acc)
    /\ (m = 0 -> result s = acc).
Proof.
  induction fuel as [|fuel IH]; intros m acc Hm Hfuel; [lia|].
  cbn [int_loop quotient]. change (num_ltb (lit 0) (inject_Z m)) with (Qltb 0 (inject_Z m)).
  destruct (Qltb 0 (inject_Z m)) eqn:Hpos.
  - apply Qltb_lt in Hpos. change 0%Q with (inject_Z 0) in Hpos.
    rewrite <- Zlt_Qlt in Hpos.
    rewrite int_body_integer.
    destruct (IH (m / 16) (digit (inject_Z (m mod 16)) :: acc)) as (s & Hs & Hval & _).
    { apply Z.div_pos; lia. }
    { assert (m / 16 < m) by (apply Z.div_lt; lia). lia. }
    exists s. split; [exact Hs|]. split; [|lia].
    rewrite Hval, join_cons, hex_value_from_digit by (apply Z.mod_pos_bound; lia).
    f_equal. rewrite (Z.div_mod m 16) at 3 by lia. lia.
  - apply Qltb_ge in Hpos. change 0%Q with (inject_Z 0) in Hpos.
    rewrite <- Zle_Qle in Hpos. assert (m = 0) by lia. subst m.
    eexists. split; [reflexivity|]. cbn [result]. split; reflexivity.
Qed.

(** X20.  On a natural number [n], in exact arithmetic, [floatToHex]
    returns its upper-case hexadecimal numeral: the text reads back as
    [n], and it is empty for 0.  [n] passes and one test are always
    enough. *)
Theorem floatToHex_numeral (n : Z) :
  0 <= n ->
  exists s,
    (forall k, floatToHex (S (Z.to_nat n) + k) (inject_Z n) = Some s)
    /\ hex_value s = Some n
    /\ (n = 0 -> s = "").
Proof.
  intros Hn.
  destruct (int_loop_integer (S (Z.to_nat n)) n [] Hn) as (s & Hs & Hval & Hzero); [lia|].
  exists (join (result s)). split; [|split].
  - intros k. apply floatToHex_more. unfold floatToHex.
    cbn [num_floor num_sub num_eqb exact lit]. rewrite Qfloor_Z, Hs. cbn [mbind option_bind].
    replace (Qeq_bool (Qred (inject_Z n - inject_Z n)) (inject_Z 0)) with true; [reflexivity|].
    symmetry. apply Qeq_bool_iff. rewrite Qred_correct. change (inject_Z 0) with 0%Q. ring.
  - exact Hval.
  - intros H0. by rewrite (Hzero H0).
Qed.

Lemma floatToHex_numeral_witness :
  exists s,
    (forall k, floatToHex (S (Z.to_nat 255) + k) (inject_Z 255) = Some s)
    /\ hex_value s = Some 255
    /\ (255 = 0 -> s = "").
Proof. apply (floatToHex_numeral 255). lia. Defined.

End ExactNumerals.
